(** * Review triage: finding extraction, patch normalisation, persistent state

    A shallow embedding of [scripts/interactive_review.py] and
    [scripts/postprocess_review.py], followed by the properties of the
    parser, the diff normaliser, the triage store and the interactive
    workflow that the specification states.

    Conventions of the embedding:
    - A Python [str] is a [list ascii] (written [text]); the model covers the
      characters of the Latin-1 range, which is where every literal, character
      class and separator of the two scripts lives.
    - Python's [re] patterns are values of [regex], run by a backtracking
      matcher that enumerates the successes in Python's priority order.
    - A Python [dict] with string keys is a [gmap text _].
    - The console, the assistant process, [git apply], the editor and the state
      file are a [World] threaded through the interactive loop. *)

From Stdlib Require Import Ascii String ZArith List Bool Lia Permutation Sorted.
From stdpp Require Import gmap strings list fin_maps.
Import ListNotations.

Local Open Scope Z_scope.
Local Open Scope list_scope.

(** ** Text: Python [str] operations *)

Abbreviation text := (list ascii).

Definition str (s : string) : text := list_ascii_of_string s.

Definition LF : ascii := "010"%char.
Definition CR : ascii := "013"%char.
Definition backslash : ascii := "092"%char.
Definition dquote : ascii := "034"%char.
Definition nl : text := [LF].

Module Py.

(** [c.isspace()] for a character of the Latin-1 range; also [\s] of a
    [str] pattern. *)
Definition isspace (c : ascii) : bool :=
  let n := nat_of_ascii c in
  ((9 <=? n) && (n <=? 13) || (28 <=? n) && (n <=? 32)
   || (n =? 133) || (n =? 160))%nat.

(** The line boundaries of [str.splitlines] in the Latin-1 range. *)
Definition islinebreak (c : ascii) : bool :=
  let n := nat_of_ascii c in
  ((10 <=? n) && (n <=? 13) || (28 <=? n) && (n <=? 30) || (n =? 133))%nat.

Definition isupper_AZ (c : ascii) : bool :=
  let n := nat_of_ascii c in ((65 <=? n) && (n <=? 90))%nat.

Definition isdigit (c : ascii) : bool :=
  let n := nat_of_ascii c in ((48 <=? n) && (n <=? 57))%nat.

(** [c.lower()] on the Latin-1 range. *)
Definition lower_char (c : ascii) : ascii :=
  let n := nat_of_ascii c in
  if ((65 <=? n) && (n <=? 90)
      || (192 <=? n) && (n <=? 222) && negb (n =? 215))%nat
  then ascii_of_nat (n + 32) else c.

(** [c.upper()] on ASCII letters; the scripts apply [upper] only to text
    matched by [[A-Z]+]. *)
Definition upper_char (c : ascii) : ascii :=
  let n := nat_of_ascii c in
  if ((97 <=? n) && (n <=? 122))%nat then ascii_of_nat (n - 32) else c.

Definition lower (s : text) : text := map lower_char s.
Definition upper (s : text) : text := map upper_char s.

(** [s.startswith(p)] *)
Fixpoint startswith (s p : text) {struct p} : bool :=
  match p, s with
  | [], _ => true
  | _ :: _, [] => false
  | c :: p', d :: s' => Ascii.eqb c d && startswith s' p'
  end.

(** [s.endswith(p)] *)
Definition endswith (s p : text) : bool := startswith (rev s) (rev p).

(** [sub in s] *)
Fixpoint contains (s sub : text) : bool :=
  startswith s sub ||
  match s with
  | [] => false
  | _ :: s' => contains s' sub
  end.

(** [s.find(sub, start)]: the lowest index at or after [start] where [sub]
    occurs, [-1] when there is none. *)
Fixpoint find_at (s sub : text) (i : Z) : Z :=
  if startswith s sub then i
  else match s with
       | [] => -1
       | _ :: s' => find_at s' sub (i + 1)
       end.

Definition find (s sub : text) (start : nat) : Z :=
  find_at (drop start s) sub (Z.of_nat start).

(** [s.replace(old, new)] for a non-empty [old]: occurrences are replaced
    left to right and do not overlap. [skip] counts the characters of an
    occurrence still to be passed over. *)
Fixpoint replace_go (old new : text) (skip : nat) (s : text) : text :=
  match s with
  | [] => []
  | c :: s' =>
      match skip with
      | S k => replace_go old new k s'
      | O => if startswith s old
             then new ++ replace_go old new (length old - 1) s'
             else c :: replace_go old new 0 s'
      end
  end.

Definition replace (s old new : text) : text := replace_go old new 0 s.

Fixpoint lstrip_by (p : ascii -> bool) (s : text) : text :=
  match s with
  | c :: s' => if p c then lstrip_by p s' else s
  | [] => []
  end.

Definition rstrip_by (p : ascii -> bool) (s : text) : text :=
  rev (lstrip_by p (rev s)).

Definition strip_by (p : ascii -> bool) (s : text) : text :=
  rstrip_by p (lstrip_by p s).

Definition in_chars (chars : text) (c : ascii) : bool :=
  existsb (Ascii.eqb c) chars.

(** [s.strip()], [s.rstrip()] *)
Definition strip (s : text) : text := strip_by isspace s.
Definition rstrip (s : text) : text := rstrip_by isspace s.

(** [s.strip(chars)], [s.lstrip(chars)], [s.rstrip(chars)] *)
Definition strip_chars (s chars : text) : text := strip_by (in_chars chars) s.
Definition lstrip_chars (s chars : text) : text := lstrip_by (in_chars chars) s.
Definition rstrip_chars (s chars : text) : text := rstrip_by (in_chars chars) s.

(** [s.split(sep)] for a one-character separator; never empty. *)
Fixpoint split (sep : ascii) (s : text) : list text :=
  match s with
  | [] => [[]]
  | c :: s' =>
      if Ascii.eqb c sep then [] :: split sep s'
      else match split sep s' with
           | l :: ls => (c :: l) :: ls
           | [] => [[c]]
           end
  end.

(** [sep.join(ls)] *)
Fixpoint join (sep : text) (ls : list text) : text :=
  match ls with
  | [] => []
  | l :: ls' =>
      match ls' with
      | [] => l
      | _ :: _ => l ++ sep ++ join sep ls'
      end
  end.

(** [s.splitlines()]: a CR LF pair is one boundary and a final boundary
    opens no further line. [cur] holds the current line, reversed. *)
Fixpoint splitlines_go (cur : text) (s : text) : list text :=
  match s with
  | [] => match cur with [] => [] | _ :: _ => [rev cur] end
  | c :: s' =>
      if islinebreak c then
        rev cur ::
          (if Ascii.eqb c CR then
             match s' with
             | d :: s'' => if Ascii.eqb d LF then splitlines_go [] s''
                           else splitlines_go [] s'
             | [] => splitlines_go [] s'
             end
           else splitlines_go [] s')
      else splitlines_go (c :: cur) s'
  end.

Definition splitlines (s : text) : list text := splitlines_go [] s.

End Py.

(** ** Regular expressions: the fragment of Python's [re] the scripts use *)

Module Re.

Inductive regex : Type :=
| Eps                                   (* empty pattern *)
| Chr (c : ascii)                       (* a literal character *)
| Cls (p : ascii -> bool)               (* a character class; [.] under re.S *)
| Seq (r1 r2 : regex)
| Alt (r1 r2 : regex)                   (* r1|r2 *)
| Opt (r : regex)                       (* r? *)
| Star (greedy : bool) (p : ascii -> bool)  (* [p]* and [p]*? *)
| Group (name : nat) (r : regex)        (* a capturing group *)
| Ahead (r : regex)                     (* (?=r) *)
| EndZ                                  (* \Z *)
| Bol.                                  (* ^ under re.MULTILINE *)

(** A position in the subject: the text already passed (reversed) and the
    text ahead; [caps] are the groups captured so far, latest first. *)
Record mstate : Type := MState {
  before : text;
  after : text;
  caps : list (nat * text)
}.

Definition any_char (_ : ascii) : bool := true.

Fixpoint Lit (l : text) : regex :=
  match l with
  | [] => Eps
  | c :: l' => Seq (Chr c) (Lit l')
  end.

Definition Plus (greedy : bool) (p : ascii -> bool) : regex :=
  Seq (Cls p) (Star greedy p).

(** All the ways [[p]*] can match at a position, in the order Python tries
    them: longest first when greedy, shortest first when lazy. *)
Fixpoint star (greedy : bool) (p : ascii -> bool)
    (b a : text) (cs : list (nat * text)) : list mstate :=
  match a with
  | [] => [MState b a cs]
  | c :: a' =>
      if p c then
        if greedy then star greedy p (c :: b) a' cs ++ [MState b a cs]
        else MState b a cs :: star greedy p (c :: b) a' cs
      else [MState b a cs]
  end.

(** The text a group consumed between two positions. *)
Definition consumed (st st' : mstate) : text :=
  rev (take (length (before st') - length (before st)) (before st')).

(** [run r st]: every state in which a match of [r] started at [st] can end,
    in backtracking order; the head is the match Python reports. *)
Fixpoint run (r : regex) (st : mstate) : list mstate :=
  match r with
  | Eps => [st]
  | Chr c =>
      match after st with
      | d :: a' => if Ascii.eqb c d then [MState (d :: before st) a' (caps st)] else []
      | [] => []
      end
  | Cls p =>
      match after st with
      | d :: a' => if p d then [MState (d :: before st) a' (caps st)] else []
      | [] => []
      end
  | Seq r1 r2 => flat_map (run r2) (run r1 st)
  | Alt r1 r2 => run r1 st ++ run r2 st
  | Opt r1 => run r1 st ++ [st]
  | Star g p => star g p (before st) (after st) (caps st)
  | Group n r1 =>
      map (fun st' => MState (before st') (after st')
                             ((n, consumed st st') :: caps st'))
          (run r1 st)
  | Ahead r1 =>
      match run r1 st with
      | [] => []
      | _ :: _ => [st]
      end
  | EndZ => match after st with [] => [st] | _ :: _ => [] end
  | Bol =>
      match before st with
      | [] => [st]
      | c :: _ => if Ascii.eqb c LF then [st] else []
      end
  end.

(** A match object: where the match starts and the final matcher state. *)
Record rmatch : Type := RMatch {
  m_start : mstate;
  m_end : mstate
}.

(** [m.group(0)] and [m.group(name)] *)
Definition group0 (m : rmatch) : text := consumed (m_start m) (m_end m).

Fixpoint assoc (n : nat) (cs : list (nat * text)) : option text :=
  match cs with
  | [] => None
  | (k, v) :: cs' => if Nat.eqb k n then Some v else assoc n cs'
  end.

Definition group (m : rmatch) (n : nat) : text :=
  default [] (assoc n (caps (m_end m))).

Definition match_at (r : regex) (st : mstate) : option rmatch :=
  match run r st with
  | st' :: _ => Some (RMatch st st')
  | [] => None
  end.

(** Scanning: the leftmost position ahead of [(b, a)] where [r] matches. *)
Fixpoint search_from (r : regex) (b a : text) : option rmatch :=
  match match_at r (MState b a []) with
  | Some m => Some m
  | None =>
      match a with
      | [] => None
      | c :: a' => search_from r (c :: b) a'
      end
  end.

(** [re.search(r, s)] *)
Definition search (r : regex) (s : text) : option rmatch :=
  search_from r [] s.

(** [re.finditer(r, s)]: successive non-overlapping matches. The patterns of
    the scripts never match the empty text, so the scan resumes where the
    previous match ended. *)
Fixpoint finditer_from (fuel : nat) (r : regex) (b a : text) : list rmatch :=
  match fuel with
  | O => []
  | S fuel' =>
      match search_from r b a with
      | None => []
      | Some m =>
          m :: (if (length (after (m_end m)) <? length a)%nat
                then finditer_from fuel' r (before (m_end m)) (after (m_end m))
                else [])
      end
  end.

Definition finditer (r : regex) (s : text) : list rmatch :=
  finditer_from (S (length s)) r [] s.

End Re.

(** ** The report parser ([interactive_review.py], [postprocess_review.py]) *)

Record Finding : Type := mkFinding {
  identifier : text;
  title : text;
  file : text;
  lines : text;
  suggestion : text;
  raw_block : text;
  details : text;
  reasoning : text;
  function : text
}.

(** [d.setdefault(k, []).append(x)] on a dict of lists. *)
Definition setdefault_append (k x : text) (d : gmap text (list text))
    : gmap text (list text) :=
  <[k := default [] (d !! k) ++ [x]]> d.

(** [d.setdefault(k, [])] *)
Definition setdefault_nil (k : text) (d : gmap text (list text))
    : gmap text (list text) :=
  match d !! k with
  | Some _ => d
  | None => <[k := []]> d
  end.

Definition aliases : gmap text text :=
  list_to_map
    [ (str "title", str "title");
      (str "file", str "file");
      (str "function", str "function");
      (str "lines", str "lines");
      (str "line", str "lines");
      (str "details", str "details");
      (str "suggestion", str "suggestion");
      (str "reasoning", str "reasoning") ].

Definition canonicalize_label (label : text) : option text :=
  let normalized := Py.strip (Py.lower label) in
  let normalized := Py.replace normalized (str "(if 'bad')") [] in
  let normalized :=
    Py.replace normalized (str "(if " ++ dquote :: str "bad" ++ dquote :: str ")") [] in
  let normalized := Py.replace normalized (str "(if bad)") [] in
  let normalized := Py.strip (Py.rstrip_chars normalized (str ":")) in
  aliases !! normalized.

Definition clean_value (t : text) : text :=
  let cleaned := Py.rstrip t in
  if Py.endswith cleaned (str "\") then Py.rstrip (removelast cleaned) else cleaned.

(** One iteration of the line loop of [parse_fields]: the accumulator is the
    dict of field lines and the currently open field. *)
Definition parse_fields_line (acc : gmap text (list text) * option text)
    (raw_line : text) : gmap text (list text) * option text :=
  let '(fields, current_field) := acc in
  let stripped := Py.strip raw_line in
  let continuation :=
    match current_field with
    | Some cf => (setdefault_append cf (clean_value raw_line) fields, current_field)
    | None => (fields, current_field)
    end in
  match stripped with
  | [] =>
      match current_field with
      | Some cf => (setdefault_append cf [] fields, current_field)
      | None => (fields, current_field)
      end
  | _ :: _ =>
      if Py.startswith stripped (str "---") || Py.startswith stripped (str "### ")
      then (fields, None)
      else if Py.startswith stripped (str "**") then
        let closing := Py.find stripped (str "**") 2 in
        if closing =? -1 then continuation
        else
          let label := Py.strip (take (Z.to_nat closing - 2) (drop 2 stripped)) in
          let remainder :=
            Py.lstrip_chars (drop (Z.to_nat closing + 2) stripped) (str ": ") in
          match canonicalize_label label with
          | Some field_name =>
              let fields := setdefault_nil field_name fields in
              match remainder with
              | [] => (fields, Some field_name)
              | _ :: _ =>
                  (setdefault_append field_name (clean_value remainder) fields,
                   Some field_name)
              end
          | None => continuation
          end
      else continuation
  end.

Definition parse_fields (block_body : text) : gmap text text :=
  let '(fields, _) :=
    fold_left parse_fields_line (Py.splitlines block_body) (∅, None) in
  (fun value => Py.strip_chars (Py.join nl value) nl) <$> fields.

(** r"## Change-by-Change Review(?P<section>.*?)(?:\n## |\Z)", re.S *)
Definition g_section : nat := 1.
Definition section_pattern : Re.regex :=
  Re.Seq (Re.Lit (str "## Change-by-Change Review"))
    (Re.Seq (Re.Group g_section (Re.Star false Re.any_char))
       (Re.Alt (Re.Lit (LF :: str "## ")) Re.EndZ)).

(** r"### Assessment of the change:\s*(?P<grade>[A-Z]+).*?\n(?P<body>.*?)(?=\n### Assessment|\n## |\Z)", re.S *)
Definition g_grade : nat := 1.
Definition g_body : nat := 2.
Definition block_end : Re.regex :=
  Re.Ahead (Re.Alt (Re.Lit (LF :: str "### Assessment"))
              (Re.Alt (Re.Lit (LF :: str "## ")) Re.EndZ)).
Definition block_pattern : Re.regex :=
  Re.Seq (Re.Lit (str "### Assessment of the change:"))
    (Re.Seq (Re.Star true Py.isspace)
       (Re.Seq (Re.Group g_grade (Re.Plus true Py.isupper_AZ))
          (Re.Seq (Re.Star false Re.any_char)
             (Re.Seq (Re.Chr LF)
                (Re.Seq (Re.Group g_body (Re.Star false Re.any_char))
                   block_end))))).

Section Parser.

(** [sha256(s.encode("utf-8")).hexdigest()] of the Python library. *)
Variable sha256_hexdigest : text -> text.

Definition finding_of_match (m : Re.rmatch) : Finding :=
  let body := Re.group m g_body in
  let fields := parse_fields body in
  let raw_block := Py.strip (Re.group0 m) in
  let get k := default [] (fields !! str k) in
  {| identifier := take 16 (sha256_hexdigest raw_block);
     title := get "title";
     file := get "file";
     lines := get "lines";
     suggestion := get "suggestion";
     raw_block := raw_block;
     details := get "details";
     reasoning := get "reasoning";
     function := get "function" |}.

Definition is_bad (m : Re.rmatch) : bool :=
  bool_decide (Py.upper (Py.strip (Re.group m g_grade)) = str "BAD").

Definition parse_bad_findings (review_text : text) : list Finding :=
  let normalized := Py.replace review_text [CR; LF] nl in
  match Re.search section_pattern normalized with
  | None => []
  | Some section_match =>
      let section := Re.group section_match g_section in
      map finding_of_match (List.filter is_bad (Re.finditer block_pattern section))
  end.

End Parser.

(** ** Diff extraction *)

(** r"```(?:diff|patch|suggestion)?\n(.*?)```", re.S *)
Definition fence : text := str "```".
Definition fence_pattern : Re.regex :=
  Re.Seq (Re.Lit fence)
    (Re.Seq (Re.Opt (Re.Alt (Re.Lit (str "diff"))
                       (Re.Alt (Re.Lit (str "patch")) (Re.Lit (str "suggestion")))))
       (Re.Seq (Re.Chr LF)
          (Re.Seq (Re.Group 1 (Re.Star false Re.any_char)) (Re.Lit fence)))).

Definition extract_patch (ai_output : text) : option text :=
  match Re.search fence_pattern ai_output with
  | None => None
  | Some m =>
      let patch := Py.strip (Re.group m 1) in
      Some (if Py.endswith patch nl then patch else patch ++ nl)
  end.

(** ** Diff normalisation of the post-processor ([postprocess_review.py]) *)

Definition nonempty {A} (l : list A) : bool :=
  match l with [] => false | _ :: _ => true end.

(** [next(idx for idx, x in enumerate(l) if p x)]; [None] is StopIteration. *)
Fixpoint find_index {A} (p : A -> bool) (l : list A) : option nat :=
  match l with
  | [] => None
  | x :: l' => if p x then Some O else S <$> find_index p l'
  end.

Module Postprocess.

Fixpoint drop_dot_slash (cleaned : text) : text :=
  match cleaned with
  | c :: d :: rest =>
      if Ascii.eqb c "."%char && Ascii.eqb d "/"%char
      then drop_dot_slash rest else cleaned
  | _ => cleaned
  end.

Definition sanitize_path (path : text) : text :=
  drop_dot_slash (Py.replace (Py.strip path) [backslash] (str "/")).

Definition is_hunk (line : text) : bool := Py.startswith line (str "@@").
Definition is_diff_git (line : text) : bool := Py.startswith line (str "diff --git ").
Definition is_old (line : text) : bool := Py.startswith line (str "--- ").
Definition is_new (line : text) : bool := Py.startswith line (str "+++ ").

Definition old_header (path_hint : text) : text := str "--- a/" ++ path_hint.
Definition new_header (path_hint : text) : text := str "+++ b/" ++ path_hint.
Definition diff_header (path_hint : text) : text :=
  str "diff --git a/" ++ path_hint ++ str " b/" ++ path_hint.

Definition keeps_path (path_hint line : text) : bool :=
  negb (nonempty path_hint && negb (Py.contains line (str "/dev/null"))).

(** The loop over the file-header lines: the rewritten lines with the
    flags [has_old] and [has_new]. *)
Fixpoint rewrite_headers (path_hint : text) (prepared : list text)
    : list text * bool * bool :=
  match prepared with
  | [] => ([], false, false)
  | line :: rest =>
      let '(rest', has_old, has_new) := rewrite_headers path_hint rest in
      if is_old line then
        ((if keeps_path path_hint line then line else old_header path_hint) :: rest',
         true, has_new)
      else if is_new line then
        ((if keeps_path path_hint line then line else new_header path_hint) :: rest',
         has_old, true)
      else (line :: rest', has_old, has_new)
  end.

(** [sanitize_path(file_path) if file_path else ""] *)
Definition path_hint_of (file_path : option text) : text :=
  match file_path with
  | Some f => if nonempty f then sanitize_path f else []
  | None => []
  end.

(** The first loop: the first [diff --git] line is rewritten for the path,
    and one is put on top when there is none. *)
Definition with_diff_line (path_hint : text) (prepared : list text) : list text :=
  let diff_line := if nonempty path_hint then diff_header path_hint else [] in
  let '(prepared, diff_present) :=
    match find_index is_diff_git prepared with
    | Some idx =>
        (if nonempty path_hint then <[idx := diff_line]> prepared else prepared, true)
    | None => (prepared, false)
    end in
  if negb diff_present && nonempty path_hint then diff_line :: prepared
  else prepared.

(** The file headers synthesised in front of the first hunk, when the diff
    has neither. *)
Definition insert_headers (path_hint : text) (prepared : list text)
    : option (list text) :=
  if negb (nonempty path_hint) then None else
  match find_index is_hunk prepared with
  | None => None
  | Some first_hunk =>
      Some (take first_hunk prepared
            ++ [old_header path_hint; new_header path_hint]
            ++ drop first_hunk prepared)
  end.

(** The end of the function: a last check for the [diff --git] line, then
    the lines joined with exactly one final line feed. *)
Definition render (path_hint : text) (prepared : list text) : text :=
  let diff_line := if nonempty path_hint then diff_header path_hint else [] in
  let prepared :=
    if nonempty path_hint && negb (existsb is_diff_git prepared)
    then diff_line :: prepared else prepared in
  Py.rstrip_chars (Py.join nl prepared) nl ++ nl.

Definition prepare_patch_for_application (patch : text) (file_path : option text)
    : option text :=
  let normalized :=
    Py.strip_chars (Py.replace (Py.replace patch [CR; LF] nl) [CR] nl) nl in
  if negb (nonempty normalized) then None else
  let lines := Py.split LF normalized in
  if negb (existsb is_hunk lines) then None else
  let path_hint := path_hint_of file_path in
  let prepared := with_diff_line path_hint lines in
  let '(prepared, has_old, has_new) := rewrite_headers path_hint prepared in
  if (has_old && negb has_new) || (has_new && negb has_old) then None else
  let with_headers :=
    if negb has_old && negb has_new then insert_headers path_hint prepared
    else Some prepared in
  match with_headers with
  | None => None
  | Some prepared => Some (render path_hint prepared)
  end.

End Postprocess.

(** ** The interactive reviewer ([interactive_review.py]) *)

(** Python truthiness of an [Optional[str]]: [None] and the empty string are
    false. *)
Definition truthy (o : option text) : bool :=
  match o with
  | Some (_ :: _) => true
  | _ => false
  end.

Definition one_of (c : text) (l : list text) : bool := bool_decide (c ∈ l).

Module Interactive.

(** r"^--- ", r"^\+\+\+ " and r"^@@ " under re.MULTILINE *)
Definition line_start (l : text) : Re.regex := Re.Seq Re.Bol (Re.Lit l).

Definition found (r : Re.regex) (s : text) : bool :=
  match Re.search r s with Some _ => true | None => false end.

Definition prepare_patch_for_application (patch : text) : option text :=
  let normalized := Py.replace patch [CR; LF] nl in
  let normalized := Py.strip_chars normalized nl in
  if negb (nonempty (Py.strip normalized)) then None else
  let normalized :=
    if Py.endswith normalized nl then normalized else normalized ++ nl in
  if negb (found (line_start (str "--- ")) normalized) then None else
  if negb (found (line_start (str "+++ ")) normalized) then None else
  if negb (found (line_start (str "@@ ")) normalized) then None else
  Some normalized.

(** *** The persisted state

    The state file is a JSON object with the keys [review_hash], [findings]
    and [current_index]; a key that is absent is [None] here. The loop is
    entered with the state [ensure_state_for_findings] returns, where the
    key [findings] is always present, so the dict under it is a plain map. *)
Record State : Type := mkState {
  review_hash : option text;
  findings_state : gmap text (gmap text text);
  current_index : option Z
}.

Definition k_status : text := str "status".
Definition k_last_ai_output : text := str "last_ai_output".
Definition k_last_patch : text := str "last_patch".
Definition k_last_patch_source : text := str "last_patch_source".

Definition pending : text := str "pending".
Definition acknowledged : text := str "acknowledged".
Definition fixed : text := str "fixed".

Definition fresh_entry : gmap text text :=
  <[k_status := pending]>
    (<[k_last_ai_output := []]>
       (<[k_last_patch := []]>
          (<[k_last_patch_source := []]> ∅))).

(** [d.setdefault(k, v)] on the dict of entries. *)
Definition setdefault (k : text) (v : gmap text text)
    (d : gmap text (gmap text text)) : gmap text (gmap text text) :=
  match d !! k with
  | Some _ => d
  | None => <[k := v]> d
  end.

Definition ensure_state_for_findings (state : State) (new_hash : text)
    (findings : list Finding) : State :=
  let finding_ids := map identifier findings in
  let state :=
    if bool_decide (review_hash state = Some new_hash) then state
    else mkState (Some new_hash) ∅ (Some 0) in
  let kept : gmap text (gmap text text) :=
    filter (fun kv => kv.1 ∈ finding_ids) (findings_state state) in
  let filled :=
    fold_left (fun d finding => setdefault (identifier finding) fresh_entry d)
              findings kept in
  mkState (review_hash state) filled
          (match current_index state with
           | Some i => Some i
           | None => Some 0
           end).

Definition status_of (state : State) (finding : Finding) : text :=
  default pending
    (default ∅ (findings_state state !! identifier finding) !! k_status).

Definition is_resolved (status : text) : bool :=
  one_of status [acknowledged; fixed].

(** The scan of [find_first_pending_index], from position [index] on. *)
Fixpoint first_pending_from (index : Z) (findings : list Finding)
    (state : State) : Z :=
  match findings with
  | [] => index
  | finding :: rest =>
      if negb (is_resolved (status_of state finding)) then index
      else first_pending_from (index + 1) rest state
  end.

Definition find_first_pending_index (findings : list Finding) (state : State) : Z :=
  first_pending_from 0 findings state.

(** *** The world around the loop

    Everything the loop does to its surroundings is recorded in order in
    [trace]. What the surroundings answer is read from three queues: the
    lines typed at the console, what [run_ai_fix] returns on each call, and
    whether each [git apply] succeeds. *)
Inductive event : Type :=
| Display (index total : Z) (finding : Finding) (status : text)
| Print (message : text)
| Input (prompt answer : text)
| Save (state : State)
| OpenEditor (finding : Finding)
| RunAiFix (finding : Finding) (output : option text)
| GitApply (patch : text) (ok : bool).

Record World : Type := mkWorld {
  stdin : list text;
  ai_replies : list (option text);
  git_replies : list bool;
  trace : list event
}.

(** A computation in the world; [None] is the [EOFError] that [input]
    raises when the console is closed, which ends the loop at once. *)
Definition M (A : Type) : Type := World -> option A * World.

Definition ret {A} (a : A) : M A := fun w => (Some a, w).

Definition bind {A B} (m : M A) (k : A -> M B) : M B :=
  fun w =>
    match m w with
    | (Some a, w') => k a w'
    | (None, w') => (None, w')
    end.

Notation "x <- m ;; k" := (bind m (fun x => k))
  (at level 100, m at next level, right associativity).
Notation "m ;; k" := (bind m (fun _ => k))
  (at level 100, right associativity).

Definition emit (e : event) : M unit :=
  fun w => (Some tt, mkWorld (stdin w) (ai_replies w) (git_replies w) (trace w ++ [e])).

Definition print (message : text) : M unit := emit (Print message).
Definition display_finding (index total : Z) (finding : Finding) (status : text)
    : M unit := emit (Display index total finding status).
Definition save_state (state : State) : M unit := emit (Save state).
Definition open_in_editor (finding : Finding) : M unit := emit (OpenEditor finding).

Definition input (prompt : text) : M text :=
  fun w =>
    match stdin w with
    | [] => (None, w)
    | answer :: rest =>
        (Some answer,
         mkWorld rest (ai_replies w) (git_replies w)
                 (trace w ++ [Input prompt answer]))
    end.

(** [run_ai_fix]: the assistant process is a collaborator; an exhausted
    queue stands for no assistant being installed. *)
Definition run_ai_fix (finding : Finding) : M (option text) :=
  fun w =>
    let output := default None (head (ai_replies w)) in
    (Some output,
     mkWorld (stdin w) (tail (ai_replies w)) (git_replies w)
             (trace w ++ [RunAiFix finding output])).

Definition git_apply (patch : text) : M bool :=
  fun w =>
    let ok := default false (head (git_replies w)) in
    (Some ok,
     mkWorld (stdin w) (ai_replies w) (tail (git_replies w))
             (trace w ++ [GitApply patch ok])).

Definition apply_patch (patch : text) : M bool :=
  match prepare_patch_for_application patch with
  | Some prepared =>
      ok <- git_apply prepared ;;
      if ok then print (str "Patch applied successfully.") ;; ret true
      else print (str "git apply failed.") ;; ret false
  | None =>
      print (str "The provided patch is not a valid unified diff.") ;; ret false
  end.

(** [findings_state[finding.identifier] = entry] and
    [state["current_index"] = index] *)
Definition store (finding : Finding) (entry : gmap text text) (state : State)
    : State :=
  mkState (review_hash state)
          (<[identifier finding := entry]> (findings_state state))
          (current_index state).

Definition set_index (index : Z) (state : State) : State :=
  mkState (review_hash state) (findings_state state) (Some index).

Definition forget_patch (entry : gmap text text) : gmap text text :=
  <[k_last_patch_source := []]> (<[k_last_patch := []]> entry).

Definition remember_patch (patch source : text) (entry : gmap text text)
    : gmap text text :=
  <[k_last_patch_source := source]> (<[k_last_patch := patch]> entry).

(** How one pass through the body of the [while] loop ends. *)
Inductive control : Type :=
| Continue (index : Z) (state : State)
| Break (index : Z) (state : State).

Definition msg_stale : text :=
  str "Stored patch could not be prepared for application and will be discarded.".
Definition msg_suggestion_unprepared : text :=
  str "The review suggestion includes a diff but it could not be prepared for application.".
Definition msg_suggestion_no_diff : text :=
  str "The review suggestion did not include a diff to apply automatically.".
Definition msg_suggestion_empty : text :=
  str "The review suggestion did not contain a diff.".
Definition prompt_command : text :=
  str "Command [n=next, o=open, f=fix, a=apply, p=prev, q=quit, ?=help]: ".
Definition prompt_generate : text :=
  str "No usable diff is available. Generate an AI fix now? [y/N]: ".
Definition prompt_confirm : text := str "Apply this patch? [y/N]: ".
Definition msg_help : text :=
  str "Commands:" ++ nl
  ++ str "  n / next    Mark as acknowledged and move to the next finding." ++ nl
  ++ str "  o / open    Open the file in $EDITOR at the referenced location." ++ nl
  ++ str "  f / fix     Ask gemini or cursor-agent for a patch (opens in a new terminal)." ++ nl
  ++ str "  a / apply   Apply the stored patch or the review suggestion diff." ++ nl
  ++ str "  p / prev    Revisit the previous finding." ++ nl
  ++ str "  q / quit    Exit the reviewer." ++ nl.

(** The [fix] command. *)
Definition command_fix (finding : Finding) (entry : gmap text text)
    (index : Z) (state : State) : M control :=
  ai_output <- run_ai_fix finding ;;
  entry <-
    (if truthy ai_output then
       let entry := <[k_last_ai_output := default [] ai_output]> entry in
       let patch := extract_patch (default [] ai_output) in
       if truthy patch then
         print (str "Stored diff for later application (use 'a' to apply).") ;;
         ret (<[k_last_patch_source := str "ai"]>
                (<[k_last_patch := default [] patch]> entry))
       else
         print (str "No diff block detected in AI output.") ;;
         ret (forget_patch entry)
     else ret entry) ;;
  let state := store finding entry state in
  save_state state ;;
  ret (Continue index state).

(** The last part of the [apply] command: preview, confirmation and the
    real application of a resolved patch. *)
Definition confirm_and_apply (finding : Finding) (entry : gmap text text)
    (patch patch_source : text) (index : Z) (state : State) : M control :=
  let source_label :=
    if bool_decide (patch_source = str "suggestion") then str "review suggestion"
    else if bool_decide (patch_source = str "ai") then str "AI-generated diff"
    else str "stored diff" in
  print (str "Patch preview (" ++ source_label ++ str "):" ++ nl) ;;
  print patch ;;
  answer <- input prompt_confirm ;;
  let confirm := Py.lower (Py.strip answer) in
  if negb (bool_decide (confirm = str "y")) then
    print (str "Patch application cancelled.") ;;
    ret (Continue index state)
  else
    applied <- apply_patch patch ;;
    let '(index, state) :=
      if applied then
        let entry := <[k_last_patch_source := patch_source]>
                       (<[k_status := fixed]> entry) in
        (index + 1, store finding entry state)
      else (index, state) in
    let state := set_index index state in
    save_state state ;;
    ret (Continue index state).

(** The third way to a patch: asking the assistant, once the user agrees. *)
Definition resolve_by_assistant (finding : Finding) (entry : gmap text text)
    (suggestion_issue : text) (index : Z) (state : State) : M control :=
  (if nonempty suggestion_issue then print suggestion_issue else ret tt) ;;
  answer <- input prompt_generate ;;
  let response := Py.lower (Py.strip answer) in
  if negb (one_of response [str "y"; str "yes"]) then
    print (str "No patch available to apply.") ;;
    ret (Continue index state)
  else
    ai_output <- run_ai_fix finding ;;
    if negb (truthy ai_output) then
      print (str "AI fix failed to produce output.") ;;
      ret (Continue index state)
    else
      let entry := <[k_last_ai_output := default [] ai_output]> entry in
      let ai_patch := extract_patch (default [] ai_output) in
      if negb (truthy ai_patch) then
        print (str "AI fix did not return a diff block.") ;;
        let state := store finding (forget_patch entry) state in
        save_state state ;;
        ret (Continue index state)
      else
        let prepared_ai_patch :=
          prepare_patch_for_application (default [] ai_patch) in
        if negb (truthy prepared_ai_patch) then
          print (str "AI fix returned a diff that could not be prepared for application.") ;;
          let state := store finding (forget_patch entry) state in
          save_state state ;;
          ret (Continue index state)
        else
          let patch := default [] prepared_ai_patch in
          let patch_source := str "ai" in
          let entry := remember_patch patch patch_source entry in
          let state := store finding entry state in
          save_state state ;;
          print (str "Stored AI-generated diff for review.") ;;
          confirm_and_apply finding entry patch patch_source index state.

(** The second way to a patch: a diff inside the finding's own suggestion.
    Entered with no usable cached patch. *)
Definition resolve_by_suggestion (finding : Finding) (entry : gmap text text)
    (index : Z) (state : State) : M control :=
  if nonempty (suggestion finding) then
    let suggestion_patch := extract_patch (suggestion finding) in
    if truthy suggestion_patch then
      let prepared_suggestion :=
        prepare_patch_for_application (default [] suggestion_patch) in
      if truthy prepared_suggestion then
        let patch := default [] prepared_suggestion in
        let patch_source := str "suggestion" in
        let entry := remember_patch patch patch_source entry in
        let state := store finding entry state in
        save_state state ;;
        confirm_and_apply finding entry patch patch_source index state
      else resolve_by_assistant finding entry msg_suggestion_unprepared index state
    else resolve_by_assistant finding entry msg_suggestion_no_diff index state
  else resolve_by_assistant finding entry msg_suggestion_empty index state.

(** The [apply] command: the cached patch first. *)
Definition command_apply (finding : Finding) (entry : gmap text text)
    (index : Z) (state : State) : M control :=
  let patch := default [] (entry !! k_last_patch) in
  let patch_source := default [] (entry !! k_last_patch_source) in
  let prepared_patch :=
    if nonempty patch then prepare_patch_for_application patch else None in
  if truthy prepared_patch then
    confirm_and_apply finding entry (default [] prepared_patch) patch_source
                      index state
  else if nonempty patch then
    print msg_stale ;;
    let entry := forget_patch entry in
    let state := store finding entry state in
    save_state state ;;
    resolve_by_suggestion finding entry index state
  else resolve_by_suggestion finding entry index state.

(** The [next] command. *)
Definition command_next (finding : Finding) (entry : gmap text text)
    (index : Z) (state : State) : M control :=
  let entry := <[k_status := acknowledged]> entry in
  let state := store finding entry state in
  let index := index + 1 in
  let state := set_index index state in
  save_state state ;;
  ret (Continue index state).

(** One pass through the body of the [while] loop, at a valid [index]. *)
Definition loop_body (findings : list Finding) (index : Z) (state : State)
    : M control :=
  let total := Z.of_nat (length findings) in
  match findings !! Z.to_nat index with
  | None => ret (Break index state)
  | Some finding =>
      let entry := default ∅ (findings_state state !! identifier finding) in
      let status := default pending (entry !! k_status) in
      display_finding index total finding status ;;
      answer <- input prompt_command ;;
      let command := Py.lower (Py.strip answer) in
      let command := if nonempty command then command else str "n" in
      if one_of command [str "?"; str "help"] then
        print msg_help ;;
        ret (Continue index state)
      else if one_of command [str "q"; str "quit"] then
        ret (Break index state)
      else if one_of command [str "p"; str "prev"] then
        let index := Z.max 0 (index - 1) in
        let state := set_index index state in
        save_state state ;;
        ret (Continue index state)
      else if one_of command [str "o"; str "open"] then
        open_in_editor finding ;;
        ret (Continue index state)
      else if one_of command [str "f"; str "fix"] then
        command_fix finding entry index state
      else if one_of command [str "a"; str "apply"] then
        command_apply finding entry index state
      else if one_of command [str "n"; str "next"] then
        command_next finding entry index state
      else
        print (str "Unrecognised command: " ++ command) ;;
        ret (Continue index state)
  end.

(** The [while 0 <= index < total] loop. Every pass reads at least one line
    from the console, so a [fuel] above the number of lines left is never
    used up (see [loop_fuel]). *)
Fixpoint loop (fuel : nat) (findings : list Finding) (index : Z) (state : State)
    : M (Z * State) :=
  if (0 <=? index) && (index <? Z.of_nat (length findings)) then
    match fuel with
    | O => fun w => (None, w)
    | S fuel' =>
        c <- loop_body findings index state ;;
        match c with
        | Continue index' state' => loop fuel' findings index' state'
        | Break index' state' => ret (index', state')
        end
    end
  else ret (index, state).

(** Where the loop starts. *)
Definition initial_index (findings : list Finding) (state : State) : Z :=
  let index :=
    Z.min (default (find_first_pending_index findings state) (current_index state))
          (Z.of_nat (length findings)) in
  if index >=? Z.of_nat (length findings)
  then find_first_pending_index findings state
  else index.

Definition interactive_loop (findings : list Finding) (state : State) : M State :=
  fun w =>
    (let total := Z.of_nat (length findings) in
     r <- loop (S (length (stdin w))) findings (initial_index findings state) state ;;
     let '(index, state) := r in
     let state := set_index (Z.max 0 (Z.min index total)) state in
     save_state state ;;
     (if index >=? total then print (str "All findings processed.") else ret tt) ;;
     ret state) w.

End Interactive.

(** ** Vocabulary of the statements *)

(** The lines of a diff text, whichever of the three line-ending conventions
    it uses. *)
Definition unix_newlines (patch : text) : text :=
  Py.replace (Py.replace patch [CR; LF] nl) [CR] nl.

Definition diff_lines (patch : text) : list text :=
  Py.split LF (unix_newlines patch).

Definition has_line (p : text -> bool) (patch : text) : bool :=
  existsb p (diff_lines patch).

(** The same lines without the blank ones at the two ends. *)
Definition trimmed_lines (patch : text) : list text :=
  Py.split LF (Py.strip_chars (unix_newlines patch) nl).

Definition no_line_break (s : text) : Prop := (LF ∉ s) /\ (CR ∉ s).

(** What the loop over the file headers does to one line. *)
Definition rewrite_header (path_hint line : text) : text :=
  if Postprocess.is_old line then
    if Postprocess.keeps_path path_hint line then line
    else Postprocess.old_header path_hint
  else if Postprocess.is_new line then
    if Postprocess.keeps_path path_hint line then line
    else Postprocess.new_header path_hint
  else line.

(** A list of lines that joins to a text with no line feed at either end. *)
Definition ends_ok (ls : list text) : Prop :=
  hd [] ls <> [] /\ last ls <> Some [] /\ ls <> [].

(** What [Postprocess.prepare_patch_for_application] makes of the lines of a
    diff once the empty diff and the diff without hunk are set aside. *)
Definition assemble (path_hint : text) (lines : list text) : option text :=
  let prepared := map (rewrite_header path_hint)
                      (Postprocess.with_diff_line path_hint lines) in
  let has_old := existsb Postprocess.is_old lines in
  let has_new := existsb Postprocess.is_new lines in
  if (has_old && negb has_new) || (has_new && negb has_old) then None else
  match (if negb has_old && negb has_new
         then Postprocess.insert_headers path_hint prepared
         else Some prepared) with
  | None => None
  | Some prepared => Some (Postprocess.render path_hint prepared)
  end.

(** The lines of a diff that normalisation for [path_hint] leaves as they
    are. *)
Definition normal_lines (path_hint : text) (ls : list text) : Prop :=
  Forall (fun x => rewrite_header path_hint x = x) ls
  /\ (nonempty path_hint = true ->
      head (List.filter Postprocess.is_diff_git ls)
      = Some (Postprocess.diff_header path_hint))
  /\ existsb Postprocess.is_old ls = true
  /\ existsb Postprocess.is_new ls = true
  /\ existsb Postprocess.is_hunk ls = true
  /\ ends_ok ls
  /\ Forall no_line_break ls.

(** *** Fenced blocks *)

Definition fence_tags : list text := [str "diff"; str "patch"; str "suggestion"; []].

(** A fenced block with this [tag], interior [body] and continuation [post]
    opens at the start of [s]. *)
Definition block_at (s tag body post : text) : Prop :=
  s = fence ++ tag ++ nl ++ body ++ fence ++ post /\ tag ∈ fence_tags.

Definition opens_block (s : text) : Prop :=
  exists tag body post, block_at s tag body post.

(** The text contains a fenced block tagged diff, patch, suggestion or not
    tagged. *)
Definition has_fenced_block (t : text) : Prop :=
  exists pre s, t = pre ++ s /\ opens_block s.

(** [body] is the interior of the first such block of [t]: no block opens
    further left, and the interior stops at the first closing fence. *)
Definition first_fenced_block (t body : text) : Prop :=
  exists pre tag post,
    let s := fence ++ tag ++ nl ++ body ++ fence ++ post in
    t = pre ++ s
    /\ tag ∈ fence_tags
    /\ (forall p1 c p2, pre = p1 ++ c :: p2 -> ~ opens_block (c :: p2 ++ s))
    /\ (forall b1 c b2, body = b1 ++ c :: b2 ->
          Py.startswith (c :: b2 ++ fence ++ post) fence = false).

(** The lines the interactive reviewer sees in a diff: only CR LF is folded
    into a line feed. *)
Definition interactive_lines (patch : text) : list text :=
  Py.split LF (Py.replace patch [CR; LF] nl).

(** *** Assessment blocks *)

Definition block_head : text := str "### Assessment of the change:".

(** An assessment block as the report writes it: the header line, made of
    the fixed words, blanks, the grade and whatever else the line holds, then
    the lines of the body. *)
Record Block : Type := mkBlock {
  b_space : text;
  b_grade : text;
  b_rest : text;
  b_body : text
}.

Definition block_text (blk : Block) : text :=
  block_head ++ b_space blk ++ b_grade blk ++ b_rest blk ++ LF :: b_body blk.






(** The finding a whole block stands for. *)
Definition finding_of_block (sha256_hexdigest : text -> text) (blk : Block) : Finding :=
  let fields := parse_fields (b_body blk) in
  let raw_block := Py.strip (block_text blk) in
  let get k := default [] (fields !! str k) in
  {| identifier := take 16 (sha256_hexdigest raw_block);
     title := get "title";
     file := get "file";
     lines := get "lines";
     suggestion := get "suggestion";
     raw_block := raw_block;
     details := get "details";
     reasoning := get "reasoning";
     function := get "function" |}.

(** *** Statuses over a session of the interactive loop *)

Module Session.
Import Interactive.

(** The status the store holds for the identifier [id]; an absent entry or
    key reads as pending, as in the loop. *)
Definition status_at (state : State) (id : text) : text :=
  default pending (default ∅ (findings_state state !! id) !! k_status).

Definition resolved_at (state : State) (id : text) : Prop :=
  is_resolved (status_at state id) = true.

(** Whatever is resolved in [base] is resolved in [state]. *)
Definition no_regress (base state : State) : Prop :=
  forall id, resolved_at base id -> resolved_at state id.

(** The entry the loop holds for [finding] is resolved when [base] has the
    finding resolved. *)
Definition entry_ok (base : State) (finding : Finding) (entry : gmap text text) : Prop :=
  resolved_at base (identifier finding) ->
  is_resolved (default pending (entry !! k_status)) = true.

Definition state_of (c : control) : State :=
  match c with Continue _ s => s | Break _ s => s end.

(** A computation that only consumes console lines, at least one of them
    when [strict] and it returns, and that fails only on a closed console. *)
Definition reads {A} (strict : bool) (m : M A) : Prop :=
  forall w,
    (length (stdin (m w).2) <= length (stdin w))%nat
    /\ (strict = true -> forall a, (m w).1 = Some a ->
        (length (stdin (m w).2) < length (stdin w))%nat)
    /\ ((m w).1 = None -> stdin (m w).2 = []).

End Session.

(** *** Lines of a diff *)

Module Lines.
Import Py Postprocess.

(** [q] is one of the four line tests. *)
Definition line_test (q : text -> bool) : Prop :=
  q = is_old \/ q = is_new \/ q = is_hunk \/ q = is_diff_git.

(** Some line of [s] starts with [l]. *)
Definition line_starts (l s : text) : Prop :=
  exists p r, s = p ++ r /\ (p = [] \/ last p = Some LF) /\ startswith r l = true.

End Lines.

(** *** What the matcher does on a pattern *)

Module Matching.
Import Py Re.

(** The ways to cut a text in two, the cut moving right; [acc] is what lies
    left of the text. *)
Fixpoint splits (acc a : text) : list (text * text) :=
  (acc, a) :: match a with
              | [] => []
              | c :: a' => splits (acc ++ [c]) a'
              end.

(** The cuts of [p ++ r] that fall strictly inside [p]. *)
Fixpoint splits_before (acc p r : text) : list (text * text) :=
  match p with
  | [] => []
  | c :: p' => (acc, p ++ r) :: splits_before (acc ++ [c]) p' r
  end.

(** The interior and the closing fence: [(.*?)```]. *)
Definition body_pattern : regex := Seq (Group 1 (Star false any_char)) (Lit fence).

(** The closing fence tried after the interior [x.1]. *)
Definition close_at (b : text) (cs : list (nat * text)) (x : text * text) : list mstate :=
  run (Lit fence) (MState (rev x.1 ++ b) x.2 ((1%nat, x.1) :: cs)).

(** What follows the opening fence for one tag. *)
Definition after_tag (tag : text) (b a : text) : list mstate :=
  if startswith a (tag ++ nl)
  then run body_pattern (MState (rev (tag ++ nl) ++ b) (drop (length (tag ++ nl)) a) [])
  else [].

(** No closing fence begins inside [body]. *)
Definition shortest (body post : text) : Prop :=
  forall b1 c b2, body = b1 ++ c :: b2 ->
    startswith (c :: b2 ++ fence ++ post) fence = false.

(** [st'] is the first way [r] matches at [st]. *)
Definition leads (r : regex) (st st' : mstate) : Prop :=
  exists rest, run r st = st' :: rest.

(** The text does not begin with a character of the class [p]. *)
Definition stops (p : ascii -> bool) (a : text) : Prop :=
  forall c, head a = Some c -> p c = false.







End Matching.

Import Session Lines Matching.

(** ** Sample data *)

Module Sample.
Import Interactive.

(** A diff with a hunk and no file header, as the scenario of the
    specification has it, and the same diff with its two headers. *)
Definition hunk_only : text :=
  str "@@ -1,1 +1,1 @@" ++ nl ++ str "-a" ++ nl ++ str "+b" ++ nl.

Definition with_headers : text :=
  str "--- a/lib/foo.go" ++ nl ++ str "+++ b/lib/foo.go" ++ nl ++ hunk_only.

Definition fenced (body : text) : text :=
  str "```diff" ++ nl ++ body ++ str "```".

(** Two findings; the suggestion of [foo] is the fenced [hunk_only]. *)
Definition foo : Finding :=
  mkFinding (str "00f1") (str "Null check missing") (str "lib/foo.go") (str "10-12")
    (fenced hunk_only) (str "raw foo") [] [] [].

Definition bar : Finding :=
  mkFinding (str "00f2") (str "Unused import") (str "lib/bar.go") (str "3")
    [] (str "raw bar") [] [] [].

Definition fresh_state : State :=
  ensure_state_for_findings (mkState None ∅ None) (str "h1") [foo; bar].

(** [foo] was acknowledged in an earlier run and the cursor was left on it. *)
Definition resumed_state : State :=
  mkState (Some (str "h1"))
    (<[identifier foo := <[k_status := acknowledged]> fresh_entry]>
       (findings_state fresh_state))
    (Some 0).

Definition console (lines : list string) (ai : list (option text)) (git : list bool)
    : World :=
  mkWorld (map str lines) ai git [].

(** The statuses of the finding [id] in the states saved during a run, in
    order. *)
Definition saved_statuses (id : text) (w : World) : list text :=
  flat_map (fun e => match e with
                     | Save st => [status_at st id]
                     | _ => []
                     end) (trace w).

(** Three reports of one block, graded bad, BAD and Bad. *)
Definition lower_report : text :=
  str "## Change-by-Change Review" ++ nl
  ++ str "### Assessment of the change: bad" ++ nl
  ++ str "**Title:** x" ++ nl.

Definition upper_report : text :=
  str "## Change-by-Change Review" ++ nl
  ++ str "### Assessment of the change: BAD" ++ nl
  ++ str "**Title:** x" ++ nl.

Definition mixed_report : text :=
  str "## Change-by-Change Review" ++ nl
  ++ str "### Assessment of the change: Bad" ++ nl
  ++ str "**Title:** x" ++ nl.

(** Two blocks, a preamble and a closing section to build reports from. *)
Definition bad_block : Block :=
  mkBlock (str " ") (str "BAD") [] (str "**Title:** x" ++ nl ++ str "**File:** lib/foo.go").





(** A diff with the old-file header only. *)
Definition old_only : text :=
  str "--- a/lib/foo.go" ++ nl ++ hunk_only.

(** A path with a line feed in it, and what one and two passes of the
    post-processor make of [hunk_only] for it. *)
Definition broken_path : text := str "a" ++ nl ++ str "b".

Definition once : text :=
  str "diff --git a/a" ++ nl ++ str "b b/a" ++ nl ++ str "b" ++ nl
  ++ str "--- a/a" ++ nl ++ str "b" ++ nl
  ++ str "+++ b/a" ++ nl ++ str "b" ++ nl ++ hunk_only.

Definition twice : text :=
  str "diff --git a/a" ++ nl ++ str "b b/a" ++ nl ++ str "b" ++ nl
  ++ str "b b/a" ++ nl ++ str "b" ++ nl
  ++ str "--- a/a" ++ nl ++ str "b" ++ nl ++ str "b" ++ nl
  ++ str "+++ b/a" ++ nl ++ str "b" ++ nl ++ str "b" ++ nl ++ hunk_only.

(** [hunk_only] normalised for src/x.go. *)
Definition x_go : text :=
  str "diff --git a/src/x.go b/src/x.go" ++ nl
  ++ str "--- a/src/x.go" ++ nl ++ str "+++ b/src/x.go" ++ nl ++ hunk_only.

(** A context line: it begins with a blank. *)
Definition indented : text := str " a" ++ nl.

(** A store written for another report, where [foo] was fixed. *)
Definition stale_state : State :=
  mkState (Some (str "h0"))
    (<[identifier foo := <[k_status := fixed]> fresh_entry]> ∅)
    (Some 1).

(** A console session: fix, apply, confirm, prev, next, quit; the assistant
    answers with a complete diff and [git apply] succeeds. *)
Definition session : World :=
  console ["f"; "a"; "y"; "p"; "n"; "q"] [Some (fenced with_headers)] [true].


End Sample.

(** * More of the scripts *)

(** ** The line span of a finding ([interactive_review.py]) *)

Module Span.

(** The value of a text of ASCII digits. *)
Definition digit_value (c : ascii) : Z := Z.of_nat (nat_of_ascii c) - 48.

Definition int_of_digits (s : text) : Z :=
  fold_left (fun acc c => 10 * acc + digit_value c) s 0.

(** A call that returns a value or raises [ValueError]. *)
Inductive outcome (A : Type) : Type :=
| Returns (a : A)
| ValueError.
Arguments Returns {A} a.
Arguments ValueError {A}.

(** [int(s)] for a text of ASCII digits: the conversion is refused with a
    [ValueError] when the text has more digits, leading zeros included,
    than [sys.get_int_max_str_digits()], which is 4300 unless the
    interpreter was told otherwise. *)
Definition int_max_str_digits : nat := 4300.

Definition int (s : text) : outcome Z :=
  if (length s <=? int_max_str_digits)%nat then Returns (int_of_digits s)
  else ValueError.

(** r"(\d+)(?:\s*-\s*(\d+))?" *)
Definition g_first : nat := 1.
Definition g_last : nat := 2.

Definition span_tail : Re.regex :=
  Re.Seq (Re.Star true Py.isspace)
    (Re.Seq (Re.Chr "-"%char)
       (Re.Seq (Re.Star true Py.isspace)
          (Re.Group g_last (Re.Plus true Py.isdigit)))).

Definition span_pattern : Re.regex :=
  Re.Seq (Re.Group g_first (Re.Plus true Py.isdigit)) (Re.Opt span_tail).

(** [parse_line_span]: [re.match] anchors the pattern at the start of the
    text; a group that took no part in the match reads as empty. The two
    conversions are made in order, and the first that fails ends the
    call. *)
Definition parse_line_span (line_text : text) : outcome (option Z * option Z) :=
  if negb (nonempty line_text) then Returns (None, None) else
  match Re.match_at span_pattern (Re.MState [] line_text []) with
  | None => Returns (None, None)
  | Some m =>
      match int (Re.group m g_first) with
      | ValueError => ValueError
      | Returns start =>
          match
            (if nonempty (Re.group m g_last) then int (Re.group m g_last)
             else Returns start)
          with
          | ValueError => ValueError
          | Returns stop => Returns (Some start, Some stop)
          end
      end
  end.

End Span.

(** ** The rest of the post-processor ([postprocess_review.py]) *)

Module Suggestion.

(** [format_diff_suggestion] and [format_no_patch] *)
Definition format_diff_suggestion (patch : text) : text :=
  let body := Py.rstrip_chars patch nl in
  nl ++ str "```diff" ++ nl ++ body ++ nl ++ str "```".

Definition format_no_patch : text := str " (no auto-applicable patch)".

(** SUGGESTION_PATTERN:
    r"(\*\*Suggestion[^*]*\*\*:)(?P<content>.*?)(?=\n\*\*Reasoning|\n---|\Z)",
    re.S *)
Definition g_label : nat := 1.
Definition g_content : nat := 2.

Definition not_star (c : ascii) : bool := negb (Ascii.eqb c "*"%char).

Definition content_end : Re.regex :=
  Re.Ahead (Re.Alt (Re.Lit (LF :: str "**Reasoning"))
              (Re.Alt (Re.Lit (LF :: str "---")) Re.EndZ)).

Definition suggestion_pattern : Re.regex :=
  Re.Seq (Re.Group g_label
            (Re.Seq (Re.Lit (str "**Suggestion"))
               (Re.Seq (Re.Star true not_star) (Re.Lit (str "**:")))))
    (Re.Seq (Re.Group g_content (Re.Star false Re.any_char)) content_end).

(** [update_suggestion_block]: the content group starts where the label
    group ends and, the pattern ending in a lookahead, ends where the match
    ends. *)
Definition update_suggestion_block (raw_block replacement : text) : text :=
  match Re.search suggestion_pattern raw_block with
  | None => raw_block
  | Some m =>
      let start := (length (Re.before (Re.m_start m)) + length (Re.group m g_label))%nat in
      let stop := length (Re.before (Re.m_end m)) in
      take start raw_block ++ replacement ++ drop stop raw_block
  end.

End Suggestion.

(** *** Occurrences *)

(** No occurrence of [m] begins inside [pre] when [m] follows it. *)
Fixpoint absent_before (m pre : text) : bool :=
  match pre with
  | [] => true
  | _ :: rest => negb (Py.startswith (pre ++ m) m) && absent_before m rest
  end.

(** [s] without its longest prefix of characters that satisfy [p]. *)
Fixpoint skip (p : ascii -> bool) (s : text) : text :=
  match s with
  | [] => []
  | c :: s' => if p c then skip p s' else s
  end.

(** A suggestion label begins [s]: the two stars and the word, then no
    star up to the two closing stars, then a colon. *)
Definition label_at (s : text) : bool :=
  Py.startswith s (str "**Suggestion")
  && Py.startswith
       (skip (fun c => negb (Ascii.eqb c "*"%char)) (drop (length (str "**Suggestion")) s))
       (str "**:").

(** A suggestion label begins somewhere in [s]. *)
Fixpoint has_label (s : text) : bool :=
  label_at s || match s with [] => false | _ :: s' => has_label s' end.

(** The suggestion content may end before [s]: at the end of the text, or
    before a line that opens the reasoning or a rule. *)
Definition ends_content (s : text) : bool :=
  negb (nonempty s) || Py.startswith s (LF :: str "**Reasoning")
  || Py.startswith s (LF :: str "---").

(** [content] is followed by [rest] and is the shortest text after which
    the suggestion content may end. *)
Fixpoint content_of (content rest : text) : bool :=
  match content with
  | [] => ends_content rest
  | _ :: content' => negb (ends_content (content ++ rest)) && content_of content' rest
  end.

(** No character of a span continues it: not a digit, not a blank, not a
    dash. *)
Definition ends_span (c : ascii) : bool :=
  Py.isdigit c || Py.isspace c || Ascii.eqb c "-"%char.

(** *** Lines of a block body, as [parse_fields] reads them *)

Module FieldLines.

(** The field a line opens when it is a recognised label line. *)
Definition opens_field (raw_line : text) : option text :=
  (parse_fields_line (∅, None) raw_line).2.

(** A line that closes the current field: a rule or a heading. *)
Definition is_rule (raw_line : text) : bool :=
  let stripped := Py.strip raw_line in
  Py.startswith stripped (str "---") || Py.startswith stripped (str "### ").

(** A line that goes to the current field as it is. *)
Definition plain (raw_line : text) : Prop :=
  opens_field raw_line = None /\ is_rule raw_line = false.

(** A label line of the field [k] with nothing after the label. *)
Definition bare_label (k : text) (raw_line : text) : Prop :=
  parse_fields_line (∅, None) raw_line = ({[k := []]}, Some k).

Definition field_names : list text :=
  [str "title"; str "file"; str "function"; str "lines";
   str "details"; str "suggestion"; str "reasoning"].

(** The accumulator of the line loop holds known field names only. *)
Definition named (acc : gmap text (list text) * option text) : Prop :=
  (forall k, is_Some (acc.1 !! k) -> k ∈ field_names)
  /\ (forall k, acc.2 = Some k -> k ∈ field_names).

End FieldLines.

(** *** Invariants of a session of the interactive loop *)

Module Audit.
Import Interactive Session.

(** A computation that keeps the invariant [I] of the world and whose
    result, when it has one, satisfies [Q]. *)
Definition hstep (I : World -> Prop) {A} (m : M A) (Q : A -> Prop) : Prop :=
  forall w, I w -> I (m w).2 /\ forall a, (m w).1 = Some a -> Q a.

(** Every state written to the state file so far satisfies [G]. *)
Definition saves_all (G : State -> Prop) (w : World) : Prop :=
  forall st, In (Save st) (trace w) -> G st.

(** An event other than a run of [git apply]. *)
Definition quiet (e : event) : Prop :=
  match e with GitApply _ _ => False | _ => True end.

(** Every run of [git apply] comes right after the answer y to the question
    whether to apply the patch. *)
Definition confirmed (t : list event) : Prop :=
  forall l patch ok r, t = l ++ GitApply patch ok :: r ->
    exists l' answer,
      l = l' ++ [Input prompt_confirm answer]
      /\ Py.lower (Py.strip answer) = str "y".

(** What [G] asks of the state a pass of the loop ends with. *)
Definition keeps_G (G : State -> Prop) (c : control) : Prop :=
  G (match c with Continue _ s => s | Break _ s => s end).

(** What is asked of the end of the apply command, at a valid position. *)
Definition confirm_ok (total : Z) (I : World -> Prop) (G : State -> Prop)
    (E : Finding -> gmap text text -> Prop) : Prop :=
  forall finding entry patch source index state,
    G state -> E finding entry -> 0 <= index < total ->
    hstep I (confirm_and_apply finding entry patch source index state) (keeps_G G).

(** The entry of a finding is fixed only if [base] has the finding fixed. *)
Definition entry_not_fixed (base : State) (finding : Finding)
    (entry : gmap text text) : Prop :=
  default pending (entry !! k_status) = fixed ->
  status_at base (identifier finding) = fixed.

(** No finding is fixed in [state] that was not fixed in [base]. *)
Definition no_new_fixed (base state : State) : Prop :=
  forall id, status_at state id = fixed -> status_at base id = fixed.

(** [git apply] never succeeds, and no state saved so far has a finding
    fixed that [base] had not. *)
Definition git_fails (base : State) (w : World) : Prop :=
  Forall (fun ok => ok = false) (git_replies w) /\ saves_all (no_new_fixed base) w.

(** The record of the world so far has every run of [git apply] confirmed. *)
Definition asked (w : World) : Prop := confirmed (trace w).

(** The cursor of the store is a position in the list of [total] findings,
    or the position after the last one. *)
Definition cursor_ok (total : Z) (state : State) : Prop :=
  exists i, current_index state = Some i /\ 0 <= i <= total.

End Audit.

(** *** More sample data *)

Module Cases.
Import Interactive Sample Suggestion.

(** A finding whose suggestion is a fenced diff with its two file headers. *)
Definition baz : Finding :=
  mkFinding (str "00f3") (str "Off by one") (str "lib/foo.go") (str "10 - 12, 14")
    (fenced with_headers) (str "raw baz") [] [] [].

Definition baz_state : State :=
  ensure_state_for_findings (mkState None ∅ None) (str "h2") [baz].

(** A console session: apply, confirm, quit; [git apply] fails. *)
Definition refused : World := console ["a"; "y"; "q"] [] [false].

(** A diff whose hunk header has no blank after the two at signs, and what
    the post-processor makes of it for src/x.go. *)
Definition tight : text :=
  str "@@-1,1 +1,1@@" ++ nl ++ str "-a" ++ nl ++ str "+b" ++ nl.

Definition tight_x_go : text :=
  str "diff --git a/src/x.go b/src/x.go" ++ nl
  ++ str "--- a/src/x.go" ++ nl ++ str "+++ b/src/x.go" ++ nl ++ tight.

(** A block of a report, before and after its suggestion was normalised,
    and the same block with the colon of the label inside the stars. *)
Definition block_top : text :=
  str "### Assessment of the change: BAD" ++ nl ++ str "**Title**: x" ++ nl.

Definition block_tail : text := nl ++ str "**Reasoning**: r".

Definition label_line : text := str "**Suggestion (if 'BAD')**:".

Definition raw_headerless : text :=
  block_top ++ label_line ++ format_diff_suggestion hunk_only ++ block_tail.

Definition raw_normalised : text :=
  block_top ++ label_line ++ format_diff_suggestion x_go ++ block_tail.

Definition raw_colon_inside : text :=
  block_top ++ str "**Suggestion:**" ++ format_diff_suggestion hunk_only ++ block_tail.

(** The body of the normalised block: what follows its first line. *)
Definition body_normalised : text :=
  str "**Title**: x" ++ nl ++ label_line ++ format_diff_suggestion x_go ++ block_tail.

End Cases.

(** *** The states of a session, in order *)

Module History.
Import Interactive Session.

(** The states written to the state file so far, oldest first. *)
Definition saved (w : World) : list State :=
  flat_map (fun e => match e with Save st => [st] | _ => [] end) (trace w).

(** Each state of the list keeps resolved whatever an earlier state of the
    list has resolved. *)
Definition keeps_resolved (states : list State) : Prop :=
  StronglySorted no_regress states.

(** The states [past], then the states saved so far, then the state [cur]
    the loop holds. *)
Definition kept (past : list State) (cur : State) (w : World) : Prop :=
  keeps_resolved (past ++ saved w ++ [cur]).

(** The states [past] and the states saved so far. *)
Definition settled (past : list State) (w : World) : Prop :=
  keeps_resolved (past ++ saved w).

(** A pass of the loop ends in a state that fits after the saved ones. *)
Definition ends_at (past : list State) (c : control) (w : World) : Prop :=
  kept past (state_of c) w.

(** A computation started in a world where [P] holds: it leaves a world
    where [N] holds, and [Q] holds of its result and that world when it
    returns. *)
Definition triple (N P : World -> Prop) {A} (m : M A) (Q : A -> World -> Prop) : Prop :=
  forall w, P w -> N (m w).2 /\ forall a, (m w).1 = Some a -> Q a (m w).2.

End History.

(** *** More sample data for the apply command *)

Module Stale.
Import Interactive Sample.


End Stale.

(** *** The findings section, part by part *)











Module Blocks.
Import Sample.






End Blocks.

(** * Properties *)

Module Reconcile.
Import Interactive.

Lemma fold_setdefault_lookup (findings : list Finding) (d : gmap text (gmap text text)) (id : text) :
  fold_left (fun d finding => setdefault (identifier finding) fresh_entry d) findings d !! id
  = match d !! id with
    | Some e => Some e
    | None => if bool_decide (id ∈ map identifier findings) then Some fresh_entry else None
    end.
Proof.
  revert d. induction findings as [|f fs IH]; intros d; simpl.
  - destruct (d !! id); reflexivity.
  - rewrite IH. unfold setdefault.
    destruct (decide (identifier f = id)) as [->|Hne].
    + destruct (d !! id) eqn:E.
      * rewrite E. reflexivity.
      * rewrite lookup_insert_eq. rewrite bool_decide_eq_true_2 by (left). reflexivity.
    + assert (Hd : (match d !! identifier f with Some _ => d | None => <[identifier f := fresh_entry]> d end) !! id = d !! id).
      { destruct (d !! identifier f); [reflexivity|]. by rewrite lookup_insert_ne. }
      rewrite Hd. destruct (d !! id); [reflexivity|].
      destruct (decide (id ∈ map identifier fs)) as [Hin|Hnin].
      * rewrite !bool_decide_eq_true_2; [reflexivity| by right | done].
      * rewrite !bool_decide_eq_false_2; [reflexivity| | done].
        intros Hin. apply elem_of_cons in Hin as [->|]; done.
Qed.

Lemma fresh_entry_keys :
  fresh_entry
  = {[ str "status" := str "pending"; str "last_ai_output" := [];
       str "last_patch" := []; str "last_patch_source" := [] ]}.
Proof. vm_compute. reflexivity. Qed.

(** C6: when the stored fingerprint is not the one of the report just
    parsed, reconciliation returns a store with the new fingerprint, the
    cursor at 0 and, for every identifier, no entry unless a current
    finding has that identifier, and then the entry made of the four keys
    status, last_ai_output, last_patch and last_patch_source, with the
    status pending and the three others empty, whatever the prior state
    held under that identifier. *)
Theorem ensure_state_fresh (state : State) (new_hash : text) (findings : list Finding) :
  review_hash state ≠ Some new_hash ->
  let state' := ensure_state_for_findings state new_hash findings in
  review_hash state' = Some new_hash
  /\ current_index state' = Some 0
  /\ forall id : text,
       findings_state state' !! id =
       if bool_decide (id ∈ map identifier findings)
       then Some {[ str "status" := str "pending"; str "last_ai_output" := [];
                    str "last_patch" := []; str "last_patch_source" := [] ]}
       else None.
Proof.
  intros Hne. unfold ensure_state_for_findings.
  rewrite bool_decide_eq_false_2 by exact Hne. simpl.
  split; [reflexivity|]. split; [reflexivity|].
  intros id. rewrite fold_setdefault_lookup.
  rewrite map_filter_empty, lookup_empty, fresh_entry_keys. reflexivity.
Qed.

End Reconcile.

Module StoreFacts.
Import Interactive.

Lemma no_regress_refl st : no_regress st st.
Proof. intros id H. exact H. Qed.

Lemma status_at_store finding entry state id :
  status_at (store finding entry state) id =
  if decide (identifier finding = id) then default pending (entry !! k_status)
  else status_at state id.
Proof.
  unfold status_at, store; simpl. rewrite lookup_insert.
  destruct (decide (identifier finding = id)); reflexivity.
Qed.

Lemma no_regress_store base finding entry state :
  no_regress base state -> entry_ok base finding entry ->
  no_regress base (store finding entry state).
Proof.
  intros Hs He id Hid. unfold resolved_at. rewrite status_at_store.
  destruct (decide (identifier finding = id)) as [<-|]; [by apply He | by apply Hs].
Qed.

Lemma no_regress_set_index base index state :
  no_regress base state -> no_regress base (set_index index state).
Proof. intros Hs id Hid. apply (Hs id Hid). Qed.

Lemma entry_ok_insert base finding entry k v :
  k <> k_status -> entry_ok base finding entry -> entry_ok base finding (<[k := v]> entry).
Proof. intros Hk He Hid. rewrite lookup_insert_ne by exact Hk. by apply He. Qed.

Lemma entry_ok_status base finding entry v :
  is_resolved v = true -> entry_ok base finding (<[k_status := v]> entry).
Proof. intros Hv _. by rewrite lookup_insert_eq. Qed.

Lemma entry_ok_lookup base finding state :
  no_regress base state ->
  entry_ok base finding (default ∅ (findings_state state !! identifier finding)).
Proof. intros Hs Hid. apply (Hs _ Hid). Qed.

Ltac key_ne := unfold k_status, k_last_ai_output, k_last_patch, k_last_patch_source; discriminate.

Lemma entry_ok_forget base finding entry :
  entry_ok base finding entry -> entry_ok base finding (forget_patch entry).
Proof. intros H. unfold forget_patch. do 2 (apply entry_ok_insert; [key_ne|]). exact H. Qed.

Lemma entry_ok_remember base finding entry patch source :
  entry_ok base finding entry -> entry_ok base finding (remember_patch patch source entry).
Proof. intros H. unfold remember_patch. do 2 (apply entry_ok_insert; [key_ne|]). exact H. Qed.

(** *** The states of a session keep what is resolved *)

Import History.

Lemma no_regress_trans s1 s2 s3 : no_regress s1 s2 -> no_regress s2 s3 -> no_regress s1 s3.
Proof. intros H1 H2 id H. by apply H2, H1. Qed.

Lemma keeps_resolved_snoc l x :
  keeps_resolved (l ++ [x]) <-> keeps_resolved l /\ Forall (fun y => no_regress y x) l.
Proof.
  unfold keeps_resolved. induction l as [|a l IH]; cbn [app].
  - split; [intros _; split; constructor|]. intros _. repeat constructor.
  - split.
    + intros H. apply StronglySorted_inv in H as [Hs Hf]. apply IH in Hs as [Hs Hl].
      apply Forall_app in Hf as [Hf Hx]. split; [by constructor|].
      constructor; [by inversion Hx|exact Hl].
    + intros [H Hf]. apply StronglySorted_inv in H as [Hs Ha].
      inversion Hf as [|? ? Hax Hl]; subst. constructor.
      * apply IH. by split.
      * apply Forall_app. split; [exact Ha|]. by constructor.
Qed.

Lemma kept_saved past cur w : kept past cur w -> settled past w.
Proof. unfold kept, settled. rewrite app_assoc. intros H. apply keeps_resolved_snoc in H; destruct H as [H _]. exact H. Qed.

Lemma kept_move past cur st w : kept past cur w -> no_regress cur st -> kept past st w.
Proof.
  unfold kept. rewrite !app_assoc. intros H Hst.
  apply keeps_resolved_snoc in H; destruct H as [Hs Hf]. apply keeps_resolved_snoc. split; [exact Hs|].
  eapply Forall_impl; [exact Hf|]. intros s Hs'. exact (no_regress_trans _ _ _ Hs' Hst).
Qed.

Lemma kept_save past cur w w' st :
  saved w' = saved w ++ [st] -> kept past cur w -> no_regress cur st -> kept past st w'.
Proof.
  intros Hw H Hst. apply (kept_move _ _ st) in H; [|exact Hst].
  unfold kept in *. rewrite Hw. rewrite !app_assoc in *.
  apply keeps_resolved_snoc. split; [exact H|].
  apply keeps_resolved_snoc in H; destruct H as [_ Hf]. apply Forall_app. split; [exact Hf|].
  constructor; [apply no_regress_refl|constructor].
Qed.

Lemma saved_snoc w w' e :
  trace w' = trace w ++ [e] ->
  saved w' = saved w ++ match e with Save st => [st] | _ => [] end.
Proof. intros H. unfold saved. by rewrite H, flat_map_app; cbn [flat_map]; rewrite app_nil_r. Qed.

Section Past.
Variable past : list State.

Lemma triple_ret {A} (P : World -> Prop) (a : A) (Q : A -> World -> Prop) :
  (forall w, P w -> settled past w /\ Q a w) -> triple (settled past) P (ret a) Q.
Proof. intros H w Hw. destruct (H w Hw). cbn. split; [done|]. by intros a' [= <-]. Qed.

Lemma triple_bind {A B} (P : World -> Prop) (m : M A) (k : A -> M B)
    (Q : A -> World -> Prop) (R : B -> World -> Prop) :
  triple (settled past) P m Q -> (forall a, triple (settled past) (Q a) (k a) R) -> triple (settled past) P (bind m k) R.
Proof.
  intros Hm Hk w Hw. unfold bind. destruct (Hm w Hw) as [Hn Hq].
  destruct (m w) as [[a|] w'] eqn:E; cbn [fst snd] in *.
  - exact (Hk a w' (Hq a eq_refl)).
  - split; [exact Hn|]. intros a [=].
Qed.

Lemma triple_pure {A} (phi : Prop) (P : World -> Prop) (m : M A) Q :
  (phi -> triple (settled past) P m Q) -> triple (settled past) (fun w => phi /\ P w) m Q.
Proof. intros H w [Hphi Hw]. by apply H. Qed.

Lemma triple_done {A} cur (a : A) (Q : A -> World -> Prop) :
  (forall w, kept past cur w -> Q a w) -> triple (settled past) (kept past cur) (ret a) Q.
Proof. intros H. apply triple_ret. intros w Hw. split; [exact (kept_saved _ _ _ Hw)|by apply H]. Qed.

Lemma triple_emit cur e :
  (forall st, e <> Save st) ->
  triple (settled past) (kept past cur) (emit e) (fun _ => kept past cur).
Proof.
  intros He w Hw. unfold emit. cbn [fst snd].
  set (w' := mkWorld _ _ _ _).
  assert (Hs : saved w' = saved w).
  { rewrite (saved_snoc w w' e eq_refl). destruct e; try apply app_nil_r. by destruct (He state). }
  assert (Hk : kept past cur w') by (unfold kept; by rewrite Hs).
  split; [exact (kept_saved _ _ _ Hk)|]. by intros.
Qed.

Lemma triple_print cur msg : triple (settled past) (kept past cur) (print msg) (fun _ => kept past cur).
Proof. by apply triple_emit. Qed.

Lemma triple_save cur st :
  no_regress cur st -> triple (settled past) (kept past cur) (save_state st) (fun _ => kept past st).
Proof.
  intros Hst w Hw. unfold save_state, emit. cbn [fst snd].
  set (w' := mkWorld _ _ _ _).
  assert (Hk : kept past st w').
  { apply (kept_save past cur w w' st); [|exact Hw|exact Hst].
    exact (saved_snoc w w' (Save st) eq_refl). }
  split; [exact (kept_saved _ _ _ Hk)|]. by intros.
Qed.

Lemma triple_input cur prompt :
  triple (settled past) (kept past cur) (input prompt) (fun _ => kept past cur).
Proof.
  intros w Hw. unfold input. destruct (stdin w) as [|answer rest]; cbn [fst snd].
  - split; [exact (kept_saved _ _ _ Hw)|]. intros a [=].
  - set (w' := mkWorld _ _ _ _).
    assert (Hs : saved w' = saved w).
    { rewrite (saved_snoc w w' (Input prompt answer) eq_refl). apply app_nil_r. }
    assert (Hk : kept past cur w') by (unfold kept; by rewrite Hs).
    split; [exact (kept_saved _ _ _ Hk)|]. by intros.
Qed.

Lemma triple_run_ai_fix cur finding :
  triple (settled past) (kept past cur) (run_ai_fix finding) (fun _ => kept past cur).
Proof.
  intros w Hw. unfold run_ai_fix. cbn [fst snd].
  set (w' := mkWorld _ _ _ _).
  assert (Hs : saved w' = saved w).
  { rewrite (saved_snoc w w' (RunAiFix finding (default None (head (ai_replies w)))) eq_refl).
    apply app_nil_r. }
  assert (Hk : kept past cur w') by (unfold kept; by rewrite Hs).
  split; [exact (kept_saved _ _ _ Hk)|]. by intros.
Qed.

Lemma triple_git_apply cur patch :
  triple (settled past) (kept past cur) (git_apply patch) (fun _ => kept past cur).
Proof.
  intros w Hw. unfold git_apply. cbn [fst snd].
  set (w' := mkWorld _ _ _ _).
  assert (Hs : saved w' = saved w).
  { rewrite (saved_snoc w w' (GitApply patch (default false (head (git_replies w)))) eq_refl).
    apply app_nil_r. }
  assert (Hk : kept past cur w') by (unfold kept; by rewrite Hs).
  split; [exact (kept_saved _ _ _ Hk)|]. by intros.
Qed.

Lemma triple_apply_patch cur patch :
  triple (settled past) (kept past cur) (apply_patch patch) (fun _ => kept past cur).
Proof.
  unfold apply_patch. destruct (prepare_patch_for_application patch).
  - eapply triple_bind; [apply triple_git_apply|]. intros ok.
    destruct ok; (eapply triple_bind; [apply triple_print|]; intros; by apply triple_done).
  - eapply triple_bind; [apply triple_print|]. intros; by apply triple_done.
Qed.

(** Steps through a computation that does not move the state. *)
Ltac walk :=
  first
    [ apply triple_done; intros ? ?
    | eapply triple_bind;
      [ first [ apply triple_print | apply triple_input | apply triple_run_ai_fix
              | apply triple_apply_patch | apply triple_emit; intros ? [=] ]
      | intros ? ] ].

(** Saves the state [st], to which the loop moves from [cur]. *)
Ltac save_by tac :=
  eapply triple_bind; [apply triple_save; tac|intros ?; cbv beta].

Lemma entry_ok_store finding entry state :
  entry_ok (store finding entry state) finding entry.
Proof. unfold entry_ok, resolved_at. rewrite status_at_store. by rewrite decide_True. Qed.

Lemma store_ok cur finding entry :
  entry_ok cur finding entry -> no_regress cur (store finding entry cur).
Proof. intros He. apply no_regress_store; [apply no_regress_refl|exact He]. Qed.

Lemma index_ok cur index : no_regress cur (set_index index cur).
Proof. apply no_regress_set_index, no_regress_refl. Qed.

Lemma triple_command_fix finding entry index cur :
  entry_ok cur finding entry ->
  triple (settled past) (kept past cur) (command_fix finding entry index cur) (ends_at past).
Proof.
  intros He. unfold command_fix.
  eapply triple_bind; [apply triple_run_ai_fix|]. intros ai_output.
  eapply triple_bind with (Q := fun e w => entry_ok cur finding e /\ kept past cur w).
  - destruct (truthy ai_output); [|by apply triple_done].
    destruct (truthy _); (eapply triple_bind; [apply triple_print|]; intros ?; cbv beta;
                          apply triple_done; intros w Hw; split; [|exact Hw]).
    + do 3 (apply entry_ok_insert; [key_ne|]). exact He.
    + apply entry_ok_forget, entry_ok_insert; [key_ne|exact He].
  - intros entry'. apply triple_pure. intros He'.
    save_by ltac:(by apply store_ok). by apply triple_done.
Qed.

Lemma triple_confirm_and_apply finding entry patch source index cur :
  triple (settled past) (kept past cur) (confirm_and_apply finding entry patch source index cur) (ends_at past).
Proof.
  unfold confirm_and_apply.
  do 3 walk. destruct (negb _).
  - walk. by apply triple_done.
  - eapply triple_bind; [apply triple_apply_patch|]. intros applied.
    assert (Hst : no_regress cur
              (let '(index0, state0) :=
                 if applied then
                   (index + 1, store finding (<[k_last_patch_source := source]> (<[k_status := fixed]> entry)) cur)
                 else (index, cur) in set_index index0 state0)).
    { destruct applied; [|apply index_ok].
      apply no_regress_set_index, store_ok.
      apply entry_ok_insert; [key_ne|]. by apply entry_ok_status. }
    destruct applied; cbn [fst snd] in *; (save_by ltac:(exact Hst); by apply triple_done).
Qed.

Lemma triple_resolve_by_assistant finding entry issue index cur :
  entry_ok cur finding entry ->
  triple (settled past) (kept past cur) (resolve_by_assistant finding entry issue index cur) (ends_at past).
Proof.
  intros He. unfold resolve_by_assistant.
  eapply triple_bind with (Q := fun _ => kept past cur).
  { destruct (nonempty issue); [apply triple_print | by apply triple_done]. }
  intros ?; cbv beta. walk. destruct (negb _); [walk; by apply triple_done|].
  walk. destruct (negb _); [walk; by apply triple_done|].
  match goal with
  | |- context [<[k_last_ai_output := ?v]> entry] =>
      assert (He' : entry_ok cur finding (<[k_last_ai_output := v]> entry))
        by (apply entry_ok_insert; [key_ne|exact He])
  end.
  destruct (negb _).
  { walk. save_by ltac:(by apply store_ok, entry_ok_forget). by apply triple_done. }
  destruct (negb _).
  { walk. save_by ltac:(by apply store_ok, entry_ok_forget). by apply triple_done. }
  save_by ltac:(by apply store_ok, entry_ok_remember).
  walk. apply triple_confirm_and_apply.
Qed.

Lemma triple_resolve_by_suggestion finding entry index cur :
  entry_ok cur finding entry ->
  triple (settled past) (kept past cur) (resolve_by_suggestion finding entry index cur) (ends_at past).
Proof.
  intros He. unfold resolve_by_suggestion.
  destruct (nonempty _); [|by apply triple_resolve_by_assistant].
  destruct (truthy _); [|by apply triple_resolve_by_assistant].
  destruct (truthy _); [|by apply triple_resolve_by_assistant].
  save_by ltac:(by apply store_ok, entry_ok_remember).
  apply triple_confirm_and_apply.
Qed.

Lemma triple_command_apply finding entry index cur :
  entry_ok cur finding entry ->
  triple (settled past) (kept past cur) (command_apply finding entry index cur) (ends_at past).
Proof.
  intros He. unfold command_apply.
  destruct (truthy _); [by apply triple_confirm_and_apply|].
  destruct (nonempty _); [|by apply triple_resolve_by_suggestion].
  walk. save_by ltac:(by apply store_ok, entry_ok_forget).
  apply triple_resolve_by_suggestion.
  apply entry_ok_store.
Qed.

Lemma triple_command_next finding entry index cur :
  triple (settled past) (kept past cur) (command_next finding entry index cur) (ends_at past).
Proof.
  unfold command_next.
  assert (H : no_regress cur (set_index (index + 1) (store finding (<[k_status := acknowledged]> entry) cur))).
  { apply no_regress_set_index, store_ok. by apply entry_ok_status. }
  save_by ltac:(exact H). by apply triple_done.
Qed.

Lemma triple_loop_body findings index cur :
  triple (settled past) (kept past cur) (loop_body findings index cur) (ends_at past).
Proof.
  unfold loop_body.
  destruct (findings !! Z.to_nat index) as [finding|]; [|by apply triple_done].
  eapply triple_bind; [apply triple_emit; intros ? [=]|]. intros ?; cbv beta.
  walk.
  repeat match goal with
         | |- triple _ _ (if ?b then _ else _) _ => destruct b
         end.
  - walk. by apply triple_done.
  - by apply triple_done.
  - save_by ltac:(apply index_ok). by apply triple_done.
  - walk. by apply triple_done.
  - apply triple_command_fix. apply entry_ok_lookup, no_regress_refl.
  - apply triple_command_apply. apply entry_ok_lookup, no_regress_refl.
  - apply triple_command_next.
  - walk. by apply triple_done.
Qed.

Lemma triple_loop fuel findings index cur :
  triple (settled past) (kept past cur) (loop fuel findings index cur) (fun r => kept past r.2).
Proof.
  revert index cur. induction fuel as [|fuel IH]; intros index cur; cbn [loop].
  - destruct (_ && _); [|by apply triple_done].
    intros w Hw. cbn [fst snd]. split; [exact (kept_saved _ _ _ Hw)|]. intros a [=].
  - destruct (_ && _); [|by apply triple_done].
    eapply triple_bind; [apply triple_loop_body|].
    intros [i s|i s]; [apply IH|by apply triple_done].
Qed.

Lemma triple_session findings cur :
  triple (settled past) (kept past cur) (interactive_loop findings cur) (fun st => kept past st).
Proof.
  intros w Hw. unfold interactive_loop.
  match goal with |- context [bind ?m ?k w] => set (prog := bind m k) end.
  assert (H : triple (settled past) (kept past cur) prog (fun st => kept past st)).
  { subst prog. eapply triple_bind; [apply triple_loop|].
    intros [index st]. cbn [snd]. cbv zeta.
    set (st' := set_index _ st).
    save_by ltac:(apply index_ok).
    eapply triple_bind with (Q := fun _ => kept past st').
    { destruct (_ >=? _); [apply triple_print|by apply triple_done]. }
    intros ?; cbv beta. by apply triple_done. }
  exact (H w Hw).
Qed.

End Past.

(** C8: the state a session starts from, then the states the session saves,
    in order, then the state it ends with: each of them keeps resolved, that
    is acknowledged or fixed, every finding that an earlier one has
    resolved. A finding never goes back to pending. Between the two
    resolved statuses there is no order: the next command writes
    acknowledged over fixed. *)
Theorem session_keeps_resolved (findings : list Finding) (state : State) (w : World) :
  saved w = [] ->
  let run := interactive_loop findings state w in
  keeps_resolved (state :: saved run.2)
  /\ forall state', run.1 = Some state' ->
                    keeps_resolved (state :: saved run.2 ++ [state']).
Proof.
  intros Hw. cbv zeta.
  assert (Hk : kept [state] state w).
  { unfold kept. rewrite Hw. repeat constructor. apply no_regress_refl. }
  exact (triple_session [state] findings state w Hk).
Qed.

(** *** The loop never runs out of fuel *)

Lemma reads_ret {A} (a : A) : reads false (ret a).
Proof. intros w. split; [simpl; lia|]. split; discriminate. Qed.

Lemma reads_emit e : reads false (emit e).
Proof. intros w. split; [simpl; lia|]. split; discriminate. Qed.

Lemma reads_input prompt : reads true (input prompt).
Proof.
  intros w. unfold input. destruct (stdin w) eqn:E; simpl; rewrite ?E; simpl;
    (split; [lia|]); (split; [intros _ a [=]; lia|]); [reflexivity|discriminate].
Qed.

Lemma reads_run_ai_fix finding : reads false (run_ai_fix finding).
Proof. intros w. split; [simpl; lia|]. split; discriminate. Qed.

Lemma reads_git_apply patch : reads false (git_apply patch).
Proof. intros w. split; [simpl; lia|]. split; discriminate. Qed.

Lemma reads_weaken {A} (m : M A) b : reads b m -> reads false m.
Proof. intros H w. split; [apply H|]. split; [discriminate|apply H]. Qed.

Lemma reads_bind {A B} (m : M A) (k : A -> M B) b :
  reads b m -> (forall a, reads false (k a)) -> reads b (bind m k).
Proof.
  intros Hm Hk w. unfold bind. destruct (Hm w) as (Hle & Hlt & Heof).
  destruct (m w) as [[a|] w'] eqn:E; simpl in *.
  - destruct (Hk a w') as (Hle' & _ & Heof'). split; [lia|]. split; [|exact Heof'].
    intros Hb b' Hb'. specialize (Hlt Hb a eq_refl). lia.
  - split; [lia|]. split; [intros _ a [=]|]. intros _. by apply Heof.
Qed.

Ltac reads_tac known :=
  repeat first
    [ known
    | apply reads_ret | apply reads_emit | apply reads_run_ai_fix | apply reads_git_apply
    | apply (reads_weaken _ true), reads_input
    | apply reads_bind; [|intro]
    | match goal with
      | |- reads _ (if ?b then _ else _) => destruct b
      | |- reads _ (match ?x with _ => _ end) => destruct x
      end ].

Lemma reads_confirm_and_apply finding entry patch source index state :
  reads false (confirm_and_apply finding entry patch source index state).
Proof. unfold confirm_and_apply, apply_patch, print, save_state. reads_tac fail. Qed.

Lemma reads_resolve_by_assistant finding entry issue index state :
  reads false (resolve_by_assistant finding entry issue index state).
Proof.
  unfold resolve_by_assistant, print, save_state.
  reads_tac ltac:(apply reads_confirm_and_apply).
Qed.

Lemma reads_command_apply finding entry index state :
  reads false (command_apply finding entry index state).
Proof.
  unfold command_apply, resolve_by_suggestion, print, save_state.
  reads_tac ltac:(first [apply reads_confirm_and_apply|apply reads_resolve_by_assistant]).
Qed.

Lemma reads_loop_body findings index state :
  (0 <=? index) && (index <? Z.of_nat (length findings)) = true ->
  reads true (loop_body findings index state).
Proof.
  intros Hidx. unfold loop_body.
  destruct (findings !! Z.to_nat index) as [finding|] eqn:E.
  2:{ apply lookup_ge_None in E. lia. }
  intros w. unfold bind at 1, display_finding, emit at 1. cbn [fst snd].
  match goal with |- context [bind (input ?p) ?k ?w'] =>
    assert (H : reads true (bind (input p) k)); [|destruct (H w') as (Hle & Hlt & Heof)] end.
  { apply reads_bind; [apply reads_input|]. intros a.
    unfold command_fix, command_next, open_in_editor, print, save_state.
    reads_tac ltac:(apply reads_command_apply). }
  simpl in *. split; [exact Hle|]. split; [exact Hlt|exact Heof].
Qed.

Lemma loop_fuel (fuel1 fuel2 : nat) findings index state (w : World) :
  (length (stdin w) < fuel1)%nat -> (length (stdin w) < fuel2)%nat ->
  loop fuel1 findings index state w = loop fuel2 findings index state w.
Proof.
  revert fuel2 index state w.
  induction fuel1 as [|fuel1 IH]; intros fuel2 index state w H1 H2; [lia|].
  destruct fuel2 as [|fuel2]; [lia|]. simpl.
  destruct (_ && _) eqn:Hidx; [|reflexivity].
  unfold bind. destruct (reads_loop_body findings index state Hidx w) as (_ & Hlt & _).
  destruct (loop_body findings index state w) as [[c|] w'] eqn:E; [|reflexivity].
  specialize (Hlt eq_refl c eq_refl). simpl in Hlt.
  destruct c; [|reflexivity]. apply IH; lia.
Qed.

Lemma loop_eof (fuel : nat) findings index state (w : World) :
  (length (stdin w) < fuel)%nat ->
  (loop fuel findings index state w).1 = None ->
  stdin (loop fuel findings index state w).2 = [].
Proof.
  revert index state w.
  induction fuel as [|fuel IH]; intros index state w Hf; [lia|]. simpl.
  destruct (_ && _) eqn:Hidx; [|discriminate].
  unfold bind. destruct (reads_loop_body findings index state Hidx w) as (_ & Hlt & Heof).
  destruct (loop_body findings index state w) as [[c|] w'] eqn:E;
    [|intros _; by apply Heof].
  specialize (Hlt eq_refl c eq_refl). simpl in Hlt.
  destruct c; [|discriminate]. apply IH. lia.
Qed.

(** The session ends without a state only when the console was closed. *)
Lemma session_eof findings state (w : World) :
  (interactive_loop findings state w).1 = None ->
  stdin (interactive_loop findings state w).2 = [].
Proof.
  unfold interactive_loop. cbv zeta.
  pose proof (loop_eof (S (length (stdin w))) findings (initial_index findings state)
                state w (Nat.lt_succ_diag_r _)) as H.
  match goal with |- context [bind ?m ?k w] =>
    change (bind m k w)
      with (match m w with (Some a, w') => k a w' | (None, w') => (None, w') end)
  end.
  destruct (loop _ _ _ _ w) as [[[index st]|] w'] eqn:E; [|intros _; by apply H].
  intros Hn. exfalso. revert Hn. unfold bind, save_state, emit, print, ret. cbn.
  destruct (_ >=? _); discriminate.
Qed.

(** *** Where the loop starts *)

Lemma first_pending_from_spec findings state index :
  let r := first_pending_from index findings state in
  index <= r <= index + Z.of_nat (length findings)
  /\ (forall i f, (i < Z.to_nat (r - index))%nat -> findings !! i = Some f ->
                  is_resolved (status_of state f) = true)
  /\ (forall f, findings !! Z.to_nat (r - index) = Some f ->
                is_resolved (status_of state f) = false).
Proof.
  revert index. induction findings as [|f rest IH]; intros index; simpl.
  - replace (index - index) with 0 by lia. simpl. repeat split; try lia; intros; try lia; done.
  - destruct (is_resolved (status_of state f)) eqn:Hf; simpl.
    + destruct (IH (index + 1)) as (Hr & Hbefore & Hat).
      set (r := first_pending_from (index + 1) rest state) in *.
      replace (Z.to_nat (r - index)) with (S (Z.to_nat (r - (index + 1)))) by lia.
      repeat split; try lia.
      * intros [|i] g Hi Hg; simpl in Hg; [by injection Hg as <-|].
        apply (Hbefore i g); [lia|exact Hg].
      * intros g Hg. simpl in Hg. by apply Hat.
    + replace (index - index) with 0 by lia. simpl.
      split; [lia|]. split; [intros; lia|]. by intros g [= <-].
Qed.

(** C7, as the code has it: the loop starts on the persisted cursor
    whenever the cursor is below the number of findings, whatever the
    status of the finding it indexes; only a cursor at or past the end is
    replaced by the index of the first finding that is not resolved (the
    number of findings when all are). *)
Theorem initial_index_spec (findings : list Finding) (h : option text)
    (entries : gmap text (gmap text text)) (cursor : Z) :
  let state := mkState h entries (Some cursor) in
  let total := Z.of_nat (length findings) in
  let first := find_first_pending_index findings state in
  initial_index findings state = (if cursor <? total then cursor else first)
  /\ 0 <= first <= total
  /\ (forall i f, (i < Z.to_nat first)%nat -> findings !! i = Some f ->
                  is_resolved (status_of state f) = true)
  /\ (forall f, findings !! Z.to_nat first = Some f ->
                is_resolved (status_of state f) = false).
Proof.
  intros state total first. split.
  - unfold initial_index. simpl. fold total. fold first.
    destruct (cursor <? total) eqn:Hc.
    + rewrite Z.min_l by lia. destruct (cursor >=? total) eqn:Hge; [lia|reflexivity].
    + rewrite Z.min_r by lia. destruct (total >=? total) eqn:Hge; [reflexivity|lia].
  - pose proof (first_pending_from_spec findings state 0) as H. simpl in H.
    fold (find_first_pending_index findings state) in H. fold first in H.
    rewrite Z.sub_0_r in H. fold total in H. destruct H as (H1 & H2 & H3).
    repeat split; try lia; assumption.
Qed.
End StoreFacts.

Module PyFacts.
Import Py.

Lemma eqb_true_iff (c d : ascii) : Ascii.eqb c d = true <-> c = d.
Proof. apply Ascii.eqb_eq. Qed.

Lemma eqb_false_iff (c d : ascii) : Ascii.eqb c d = false <-> c <> d.
Proof. apply Ascii.eqb_neq. Qed.

(** **** startswith *)

Lemma startswith_iff (s p : text) : startswith s p = true <-> exists r, s = p ++ r.
Proof.
  revert s. induction p as [|c p IH]; intros s; simpl.
  - split; [intros _; by exists s|done].
  - destruct s as [|d s].
    + split; [done|]. intros [r [=]].
    + rewrite andb_true_iff, eqb_true_iff, IH. split.
      * intros [-> [r ->]]. by exists r.
      * intros [r [= -> ->]]. split; [done|by exists r].
Qed.

Lemma startswith_app (p r : text) : startswith (p ++ r) p = true.
Proof. apply startswith_iff. by exists r. Qed.

Lemma startswith_nil_l (p : text) : p <> [] -> startswith [] p = false.
Proof. by destruct p. Qed.

(** **** split and join *)

Lemma split_not_nil sep s : split sep s <> [].
Proof.
  destruct s as [|c s]; simpl; [done|].
  destruct (Ascii.eqb c sep); [done|]. by destruct (split sep s).
Qed.

Lemma split_cons_sep sep s : split sep (sep :: s) = [] :: split sep s.
Proof. simpl. by rewrite Ascii.eqb_refl. Qed.

Lemma split_cons_other sep c s :
  c <> sep ->
  split sep (c :: s) = (c :: hd [] (split sep s)) :: tl (split sep s).
Proof.
  intros Hc. simpl. apply eqb_false_iff in Hc. rewrite Hc.
  pose proof (split_not_nil sep s). by destruct (split sep s).
Qed.

Lemma split_app_sep sep (a b : text) :
  split sep (a ++ sep :: b) = split sep a ++ split sep b.
Proof.
  induction a as [|c a IH].
  - simpl app. rewrite split_cons_sep. reflexivity.
  - destruct (decide (c = sep)) as [->|Hc].
    + change ((sep :: a) ++ sep :: b) with (sep :: (a ++ sep :: b)).
      rewrite !split_cons_sep, IH. reflexivity.
    + change ((c :: a) ++ sep :: b) with (c :: (a ++ sep :: b)).
      rewrite !split_cons_other by exact Hc. rewrite IH.
      pose proof (split_not_nil sep a). by destruct (split sep a).
Qed.

Lemma split_no_sep sep (s : text) : sep ∉ s -> split sep s = [s].
Proof.
  induction s as [|c s IH]; intros Hs; [reflexivity|].
  rewrite split_cons_other by (intros ->; apply Hs; left).
  rewrite IH by (intros H; apply Hs; by right). reflexivity.
Qed.

Lemma split_lines_no_sep sep (s : text) : Forall (fun l => sep ∉ l) (split sep s).
Proof.
  induction s as [|c s IH].
  - simpl. constructor; [|constructor]. apply not_elem_of_nil.
  - destruct (decide (c = sep)) as [->|Hc].
    + rewrite split_cons_sep. constructor; [apply not_elem_of_nil|exact IH].
    + rewrite split_cons_other by exact Hc.
      pose proof (split_not_nil sep s). destruct (split sep s) as [|l ls]; [done|].
      simpl. inversion IH; subst. constructor; [|done].
      intros Hin. apply elem_of_cons in Hin as [?|?]; [by subst|done].
Qed.

Lemma split_chars sep (s : text) l c : l ∈ split sep s -> c ∈ l -> c ∈ s.
Proof.
  revert l. induction s as [|d s IH]; intros l Hl Hc.
  - simpl in Hl. apply list_elem_of_singleton in Hl. by subst.
  - destruct (decide (d = sep)) as [->|Hd].
    + rewrite split_cons_sep in Hl. apply elem_of_cons in Hl as [->|Hl].
      * by apply not_elem_of_nil in Hc.
      * right. by apply (IH l).
    + rewrite split_cons_other in Hl by exact Hd.
      pose proof (split_not_nil sep s). destruct (split sep s) as [|l0 ls]; [done|].
      simpl in Hl. apply elem_of_cons in Hl as [->|Hl].
      * apply elem_of_cons in Hc as [->|Hc]; [left|]. right. apply (IH l0); [left|done].
      * right. apply (IH l); [by right|done].
Qed.

Lemma join_cons sep l l' ls : join sep (l :: l' :: ls) = l ++ sep ++ join sep (l' :: ls).
Proof. reflexivity. Qed.

Lemma join_app sep (a b : list text) :
  a <> [] -> b <> [] -> join sep (a ++ b) = join sep a ++ sep ++ join sep b.
Proof.
  intros Ha Hb. induction a as [|l a IH]; [done|].
  destruct a as [|l' a].
  - simpl app. destruct b; [done|]. reflexivity.
  - change ((l :: l' :: a) ++ b) with (l :: l' :: (a ++ b)).
    rewrite !join_cons. change (l' :: a ++ b) with ((l' :: a) ++ b).
    rewrite IH by done. by rewrite <- !app_assoc.
Qed.

Lemma split_join sep (ls : list text) :
  ls <> [] -> Forall (fun l => sep ∉ l) ls -> split sep (join [sep] ls) = ls.
Proof.
  intros Hne Hls. induction ls as [|l ls IH]; [done|].
  inversion Hls as [|? ? Hl Hls']; subst.
  destruct ls as [|l' ls].
  - simpl. by apply split_no_sep.
  - rewrite join_cons. cbn [app]. rewrite split_app_sep, IH by done.
    by rewrite split_no_sep.
Qed.

Lemma join_split sep (s : text) : join [sep] (split sep s) = s.
Proof.
  induction s as [|c s IH]; [reflexivity|].
  pose proof (split_not_nil sep s) as Hn.
  destruct (decide (c = sep)) as [->|Hc].
  - rewrite split_cons_sep.
    destruct (split sep s) as [|l ls] eqn:E; [done|]. rewrite join_cons. cbn [app].
    by rewrite IH.
  - rewrite split_cons_other by exact Hc.
    destruct (split sep s) as [|l ls] eqn:E; [done|]. cbn [hd tl].
    destruct ls as [|l' ls].
    + simpl in *. by rewrite IH.
    + rewrite join_cons in *. rewrite <- IH. reflexivity.
Qed.

Lemma split_repeat sep n : split sep (repeat sep n) = repeat [] (S n).
Proof. induction n as [|n IH]; [reflexivity|]. simpl repeat. by rewrite split_cons_sep, IH. Qed.

Lemma split_repeat_app sep n s : split sep (repeat sep n ++ s) = repeat [] n ++ split sep s.
Proof. induction n as [|n IH]; [reflexivity|]. simpl repeat; simpl app. by rewrite split_cons_sep, IH. Qed.

Lemma split_app_repeat sep n s : split sep (s ++ repeat sep n) = split sep s ++ repeat [] n.
Proof.
  destruct n as [|n]; [by rewrite !app_nil_r|].
  simpl repeat. rewrite split_app_sep, split_repeat.
  simpl. by rewrite repeat_cons.
Qed.

Lemma split_head_nil sep s : hd [] (split sep s) = [] <-> s = [] \/ head s = Some sep.
Proof.
  destruct s as [|c s]; simpl; [by split; [left|]|].
  destruct (Ascii.eqb c sep) eqn:E.
  - apply eqb_true_iff in E as ->. simpl. split; [by right|done].
  - apply eqb_false_iff in E. pose proof (split_not_nil sep s).
    destruct (split sep s); [done|]. simpl. split; [done|]. intros [?|[= ?]]; done.
Qed.

Lemma last_app_ne {A} (a b : list A) : b <> [] -> last (a ++ b) = last b.
Proof.
  intros Hb. rewrite last_app. destruct (last b) eqn:E; [done|].
  by apply last_None in E.
Qed.

Lemma split_snoc_other sep (s : text) c :
  c <> sep ->
  exists ls l, split sep s = ls ++ [l] /\ split sep (s ++ [c]) = ls ++ [l ++ [c]].
Proof.
  intros Hc. induction s as [|d s (ls & l & H1 & H2)].
  - exists [], []. split; [reflexivity|]. simpl. apply eqb_false_iff in Hc. by rewrite Hc.
  - destruct (decide (d = sep)) as [->|Hd].
    + exists ([] :: ls), l. change ((sep :: s) ++ [c]) with (sep :: (s ++ [c])).
      rewrite !split_cons_sep, H1, H2. done.
    + change ((d :: s) ++ [c]) with (d :: (s ++ [c])).
      rewrite !split_cons_other by exact Hd. rewrite H1, H2.
      destruct ls as [|l0 ls].
      * exists [], (d :: l). done.
      * exists ((d :: l0) :: ls), l. done.
Qed.

Lemma split_last_nil sep s : last (split sep s) = Some [] <-> s = [] \/ last s = Some sep.
Proof.
  destruct s as [|c s _] using rev_ind; [by split; [left|]|].
  rewrite !last_snoc.
  destruct (decide (c = sep)) as [->|Hc].
  - rewrite split_app_sep. simpl split. rewrite last_snoc. split; [by right|done].
  - destruct (split_snoc_other sep s c Hc) as (ls & l & _ & ->).
    rewrite last_snoc. split.
    + intros [= H]. by destruct l.
    + intros [H|[= ?]]; [by destruct s|done].
Qed.

(** **** strip *)

Lemma lstrip_by_spec p s :
  exists pre, s = pre ++ lstrip_by p s /\ Forall (fun c => p c = true) pre
              /\ (forall c, head (lstrip_by p s) = Some c -> p c = false).
Proof.
  induction s as [|c s (pre & Hs & Hpre & Hhd)]; simpl.
  - exists []. repeat split; [constructor|done].
  - destruct (p c) eqn:E.
    + exists (c :: pre). simpl. rewrite <- Hs. repeat split; [by constructor|done].
    + exists []. repeat split; [constructor|]. by intros ? [= <-].
Qed.

Lemma lstrip_by_id p s :
  (forall c, head s = Some c -> p c = false) -> lstrip_by p s = s.
Proof. destruct s as [|c s]; [done|]. intros H. simpl. by rewrite (H c). Qed.

Lemma last_rev {A} (l : list A) : last (rev l) = head l.
Proof. destruct l; [done|]. simpl. by rewrite last_snoc. Qed.

Lemma head_rev {A} (l : list A) : head (rev l) = last l.
Proof. rewrite <- (rev_involutive l) at 2. by rewrite last_rev. Qed.

Lemma rstrip_by_spec p s :
  exists suf, s = rstrip_by p s ++ suf /\ Forall (fun c => p c = true) suf
              /\ (forall c, last (rstrip_by p s) = Some c -> p c = false).
Proof.
  unfold rstrip_by. destruct (lstrip_by_spec p (rev s)) as (pre & Hs & Hpre & Hhd).
  exists (rev pre). repeat split.
  - rewrite <- rev_app_distr, <- Hs. by rewrite rev_involutive.
  - by apply Forall_rev.
  - intros c. rewrite last_rev. apply Hhd.
Qed.

Lemma rstrip_by_id p s :
  (forall c, last s = Some c -> p c = false) -> rstrip_by p s = s.
Proof.
  intros H. unfold rstrip_by. rewrite lstrip_by_id; [apply rev_involutive|].
  intros c. rewrite head_rev. apply H.
Qed.

Lemma strip_by_id p s :
  (forall c, head s = Some c -> p c = false) ->
  (forall c, last s = Some c -> p c = false) -> strip_by p s = s.
Proof. intros Hh Hl. unfold strip_by. rewrite lstrip_by_id by exact Hh. by apply rstrip_by_id. Qed.

Lemma in_chars_nl c : in_chars nl c = Ascii.eqb c LF.
Proof. unfold in_chars. simpl. apply orb_false_r. Qed.

Lemma Forall_in_chars_nl (l : text) :
  Forall (fun c => in_chars nl c = true) l -> l = repeat LF (length l).
Proof.
  induction 1 as [|c l Hc _ IH]; [done|]. simpl. rewrite in_chars_nl in Hc.
  apply eqb_true_iff in Hc as ->. by rewrite <- IH.
Qed.

(** What [s.strip("\n")] is: [s] without the line feeds at its two ends. *)
Lemma strip_nl_spec (s : text) :
  exists k m, s = repeat LF k ++ strip_chars s nl ++ repeat LF m
              /\ head (strip_chars s nl) <> Some LF
              /\ last (strip_chars s nl) <> Some LF.
Proof.
  unfold strip_chars, strip_by.
  destruct (lstrip_by_spec (in_chars nl) s) as (pre & Hs & Hpre & Hhd).
  destruct (rstrip_by_spec (in_chars nl) (lstrip_by (in_chars nl) s)) as (suf & Ht & Hsuf & Hlast).
  exists (length pre), (length suf).
  rewrite <- (Forall_in_chars_nl pre Hpre), <- (Forall_in_chars_nl suf Hsuf).
  split; [by rewrite <- Ht|]. split.
  - intros Hh.
    destruct (rstrip_by (in_chars nl) (lstrip_by (in_chars nl) s)) as [|c r] eqn:E; [done|].
    injection Hh as ->. rewrite Ht in Hhd. specialize (Hhd LF eq_refl). done.
  - intros Hl. specialize (Hlast LF Hl). done.
Qed.

Lemma existsb_repeat_false {A} (p : A -> bool) x n : p x = false -> existsb p (repeat x n) = false.
Proof. intros H. induction n; simpl; [done|]. by rewrite H. Qed.

Lemma existsb_split_strip (p : text -> bool) (s : text) :
  p [] = false ->
  existsb p (split LF (strip_chars s nl)) = existsb p (split LF s).
Proof.
  intros Hp. destruct (strip_nl_spec s) as (k & m & Hs & _ & _).
  set (t := strip_chars s nl) in *. rewrite Hs.
  rewrite split_repeat_app, split_app_repeat, !existsb_app.
  rewrite !existsb_repeat_false by exact Hp. simpl. by rewrite orb_false_r.
Qed.

(** **** replace *)

Lemma replace_go_no_old old new (s : text) :
  (forall c, head old = Some c -> c ∉ s) -> old <> [] -> replace_go old new 0 s = s.
Proof.
  intros Hc Hold. destruct old as [|c old]; [done|]. specialize (Hc c eq_refl).
  induction s as [|d s IH]; [reflexivity|].
  simpl. assert (Ascii.eqb c d = false) as ->.
  { apply eqb_false_iff. intros ->. apply Hc. left. }
  simpl. rewrite IH; [done|]. intros H. apply Hc. by right.
Qed.

Lemma replace_no_old (s old new : text) c :
  head old = Some c -> c ∉ s -> replace s old new = s.
Proof.
  intros Hh Hc. apply replace_go_no_old; [|by destruct old].
  intros c'. rewrite Hh. by intros [= <-].
Qed.

(** Replacing every [c] by [d]: the result is the text mapped. *)
Lemma replace_char (s : text) c d :
  replace s [c] [d] = map (fun x => if Ascii.eqb c x then d else x) s.
Proof.
  unfold replace. induction s as [|x s IH]; [reflexivity|].
  simpl. rewrite andb_true_r. destruct (Ascii.eqb c x); simpl; by rewrite IH.
Qed.

Lemma replace_char_not_in (s : text) c d : c <> d -> c ∉ replace s [c] [d].
Proof.
  intros Hcd. rewrite replace_char. intros Hin. apply list_elem_of_fmap in Hin as (x & Hx & _).
  destruct (Ascii.eqb c x) eqn:E; [done|]. apply eqb_false_iff in E. done.
Qed.

End PyFacts.

Module PostFacts.
Import Py PyFacts Postprocess.

Lemma find_index_None {A} (p : A -> bool) l : find_index p l = None <-> existsb p l = false.
Proof.
  induction l as [|x l IH]; simpl; [done|].
  destruct (p x); simpl; [done|]. rewrite <- IH. by destruct (find_index p l).
Qed.

Lemma find_index_Some {A} (p : A -> bool) l i :
  find_index p l = Some i ->
  exists x, l !! i = Some x /\ p x = true /\ existsb p (take i l) = false.
Proof.
  revert i. induction l as [|x l IH]; intros i; simpl; [done|].
  destruct (p x) eqn:E.
  - intros [= <-]. by exists x.
  - destruct (find_index p l) as [j|] eqn:Ej; simpl; [|done].
    intros [= <-]. destruct (IH j eq_refl) as (y & Hy & Hp & Ht).
    exists y. simpl. by rewrite E.
Qed.

Lemma find_index_head_filter {A} (p : A -> bool) l i :
  find_index p l = Some i -> l !! i = head (List.filter p l).
Proof.
  revert i. induction l as [|x l IH]; intros i; simpl; [done|].
  destruct (p x) eqn:E.
  - by intros [= <-].
  - destruct (find_index p l) as [j|] eqn:Ej; simpl; [|done].
    intros [= <-]. by apply IH.
Qed.

Lemma existsb_head_filter {A} (p : A -> bool) l x :
  head (List.filter p l) = Some x -> existsb p l = true.
Proof.
  induction l as [|y l IH]; simpl; [done|].
  destruct (p y); simpl; [done|exact IH].
Qed.

Lemma take_drop_middle_at {A} (l : list A) i x :
  l !! i = Some x -> l = take i l ++ x :: drop (S i) l.
Proof. intros H. symmetry. by apply take_drop_middle. Qed.

(** **** The four kinds of line exclude one another *)

Lemma startswith_head (x : text) c p : startswith x (c :: p) = true -> head x = Some c.
Proof.
  destruct x as [|d x]; simpl; [done|]. intros H. apply andb_true_iff in H as [H _].
  apply eqb_true_iff in H. by subst.
Qed.

Lemma is_old_head x : is_old x = true -> head x = Some "-"%char.
Proof. apply startswith_head. Qed.
Lemma is_new_head x : is_new x = true -> head x = Some "+"%char.
Proof. apply startswith_head. Qed.
Lemma is_hunk_head x : is_hunk x = true -> head x = Some "@"%char.
Proof. apply startswith_head. Qed.
Lemma is_diff_git_head x : is_diff_git x = true -> head x = Some "d"%char.
Proof. apply startswith_head. Qed.

Ltac kinds :=
  repeat match goal with
         | H : is_old _ = true |- _ => apply is_old_head in H
         | H : is_new _ = true |- _ => apply is_new_head in H
         | H : is_hunk _ = true |- _ => apply is_hunk_head in H
         | H : is_diff_git _ = true |- _ => apply is_diff_git_head in H
         end;
  congruence.

Lemma is_old_old_header h : is_old (old_header h) = true. Proof. reflexivity. Qed.
Lemma is_new_new_header h : is_new (new_header h) = true. Proof. reflexivity. Qed.
Lemma is_diff_git_diff_header h : is_diff_git (diff_header h) = true. Proof. reflexivity. Qed.

Lemma line_test_rewrite_header q h x : line_test q -> q (rewrite_header h x) = q x.
Proof.
  intros Hq. unfold rewrite_header.
  destruct (is_old x) eqn:Eo.
  - destruct (keeps_path h x); [done|].
    destruct Hq as [->|[->|[->| ->]]]; rewrite ?Eo; try reflexivity;
      symmetry; apply not_true_is_false; intros H; kinds.
  - destruct (is_new x) eqn:En; [|done].
    destruct (keeps_path h x); [done|].
    destruct Hq as [->|[->|[->| ->]]]; rewrite ?Eo, ?En; try reflexivity;
      symmetry; apply not_true_is_false; intros H; kinds.
Qed.

Lemma existsb_map_rewrite_header q h ls :
  line_test q -> existsb q (map (rewrite_header h) ls) = existsb q ls.
Proof.
  intros Hq. induction ls as [|x ls IH]; simpl; [done|].
  by rewrite line_test_rewrite_header, IH.
Qed.

Lemma rewrite_headers_eq h ls :
  rewrite_headers h ls = (map (rewrite_header h) ls, existsb is_old ls, existsb is_new ls).
Proof.
  induction ls as [|x ls IH]; simpl; [done|]. rewrite IH. unfold rewrite_header.
  destruct (is_old x) eqn:Eo; simpl.
  - assert (is_new x = false) as -> by (apply not_true_is_false; intros H; kinds).
    reflexivity.
  - destruct (is_new x) eqn:En; simpl; reflexivity.
Qed.

Lemma keeps_path_nil x : keeps_path [] x = true.
Proof. reflexivity. Qed.

Lemma rewrite_header_nil x : rewrite_header [] x = x.
Proof. unfold rewrite_header. rewrite keeps_path_nil. by destruct (is_old x), (is_new x). Qed.

Lemma keeps_path_header h x :
  nonempty h = true -> keeps_path h x = Py.contains x (str "/dev/null").
Proof. intros Hh. unfold keeps_path. rewrite Hh. simpl. apply negb_involutive. Qed.

Lemma rewrite_header_old_header h : rewrite_header h (old_header h) = old_header h.
Proof. unfold rewrite_header. rewrite is_old_old_header. by destruct (keeps_path _ _). Qed.

Lemma rewrite_header_new_header h : rewrite_header h (new_header h) = new_header h.
Proof.
  unfold rewrite_header. assert (is_old (new_header h) = false) as -> by reflexivity.
  rewrite is_new_new_header. by destruct (keeps_path _ _).
Qed.

Lemma rewrite_header_idem h x : rewrite_header h (rewrite_header h x) = rewrite_header h x.
Proof.
  destruct (is_old x) eqn:Eo; [|destruct (is_new x) eqn:En].
  - destruct (keeps_path h x) eqn:Ek.
    + assert (E : rewrite_header h x = x) by (unfold rewrite_header; by rewrite Eo, Ek).
      by rewrite !E.
    + assert (E : rewrite_header h x = old_header h) by (unfold rewrite_header; by rewrite Eo, Ek).
      rewrite !E. apply rewrite_header_old_header.
  - destruct (keeps_path h x) eqn:Ek.
    + assert (E : rewrite_header h x = x) by (unfold rewrite_header; by rewrite Eo, En, Ek).
      by rewrite !E.
    + assert (E : rewrite_header h x = new_header h) by (unfold rewrite_header; by rewrite Eo, En, Ek).
      rewrite !E. apply rewrite_header_new_header.
  - assert (E : rewrite_header h x = x) by (unfold rewrite_header; by rewrite Eo, En).
    by rewrite !E.
Qed.

Lemma rewrite_header_other h x :
  is_old x = false -> is_new x = false -> rewrite_header h x = x.
Proof. intros Ho Hn. unfold rewrite_header. by rewrite Ho, Hn. Qed.

Lemma map_rewrite_header_none h ls :
  existsb is_old ls = false -> existsb is_new ls = false ->
  map (rewrite_header h) ls = ls.
Proof.
  induction ls as [|x ls IH]; simpl; [done|].
  intros Ho Hn. apply orb_false_iff in Ho as [Ho Ho'], Hn as [Hn Hn'].
  by rewrite rewrite_header_other, IH.
Qed.

(** **** The [diff --git] line *)

Lemma with_diff_line_nil ls : with_diff_line [] ls = ls.
Proof. unfold with_diff_line. simpl. by destruct (find_index is_diff_git ls). Qed.

Lemma with_diff_line_absent h ls :
  nonempty h = true -> existsb is_diff_git ls = false ->
  with_diff_line h ls = diff_header h :: ls.
Proof.
  intros Hh Hd. apply find_index_None in Hd. unfold with_diff_line. by rewrite Hd, Hh.
Qed.

Lemma with_diff_line_present h ls i :
  nonempty h = true -> find_index is_diff_git ls = Some i ->
  with_diff_line h ls = <[i := diff_header h]> ls.
Proof. intros Hh Hd. unfold with_diff_line. by rewrite Hd, Hh. Qed.

Lemma filter_insert_same {A} (p : A -> bool) (l : list A) i x y :
  l !! i = Some y -> p x = p y ->
  List.filter p (<[i := x]> l) =
  List.filter p (take i l) ++ (if p x then [x] else []) ++ List.filter p (drop (S i) l).
Proof.
  intros Hy Hp. rewrite insert_take_drop by (by eapply lookup_lt_Some).
  rewrite List.filter_app. simpl. by destruct (p x).
Qed.

Lemma filter_existsb_false {A} (p : A -> bool) l : existsb p l = false -> List.filter p l = [].
Proof.
  induction l as [|x l IH]; simpl; [done|]. intros H. apply orb_false_iff in H as [-> H].
  by apply IH.
Qed.

Lemma existsb_insert_same {A} (p : A -> bool) (l : list A) i x y :
  l !! i = Some y -> p x = p y -> existsb p (<[i := x]> l) = existsb p l.
Proof.
  intros Hy Hp. rewrite insert_take_drop by (by eapply lookup_lt_Some).
  rewrite (take_drop_middle_at l i y Hy) at 3.
  rewrite !existsb_app. simpl. by rewrite Hp.
Qed.

(** After the first loop the first [diff --git] line names the path. *)
Lemma with_diff_line_first h ls :
  nonempty h = true ->
  head (List.filter is_diff_git (with_diff_line h ls)) = Some (diff_header h).
Proof.
  intros Hh. destruct (find_index is_diff_git ls) as [i|] eqn:E.
  - rewrite (with_diff_line_present h ls i Hh E).
    destruct (find_index_Some _ _ _ E) as (y & Hy & Hp & Ht).
    rewrite (filter_insert_same _ _ _ _ y Hy) by (by rewrite Hp).
    by rewrite (filter_existsb_false _ _ Ht).
  - apply find_index_None in E. by rewrite with_diff_line_absent.
Qed.

Lemma with_diff_line_fixed h ls :
  nonempty h = true ->
  head (List.filter is_diff_git ls) = Some (diff_header h) ->
  with_diff_line h ls = ls.
Proof.
  intros Hh Hd. destruct (find_index is_diff_git ls) as [i|] eqn:E.
  - rewrite (with_diff_line_present h ls i Hh E).
    apply find_index_head_filter in E. rewrite Hd in E. by apply list_insert_id.
  - apply find_index_None in E. by rewrite (filter_existsb_false _ _ E) in Hd.
Qed.

Lemma with_diff_line_existsb q h ls :
  q = is_old \/ q = is_new \/ q = is_hunk ->
  existsb q (with_diff_line h ls) = existsb q ls.
Proof.
  intros Hq. destruct (nonempty h) eqn:Hh.
  2:{ destruct h; [|done]. by rewrite with_diff_line_nil. }
  assert (Hd : q (diff_header h) = false) by (by destruct Hq as [->|[->| ->]]).
  destruct (find_index is_diff_git ls) as [i|] eqn:E.
  - rewrite (with_diff_line_present h ls i Hh E).
    destruct (find_index_Some _ _ _ E) as (y & Hy & Hp & Ht).
    apply (existsb_insert_same _ _ _ _ y Hy). rewrite Hd. symmetry.
    apply not_true_is_false. intros H. destruct Hq as [->|[->| ->]]; kinds.
  - apply find_index_None in E. rewrite with_diff_line_absent by done. simpl. by rewrite Hd.
Qed.

End PostFacts.

Module PostTheory.
Import Py PyFacts Postprocess PostFacts.

Lemma prepare_eq patch file_path :
  prepare_patch_for_application patch file_path =
  if nonempty (strip_chars (unix_newlines patch) nl)
     && existsb is_hunk (trimmed_lines patch)
  then assemble (path_hint_of file_path) (trimmed_lines patch)
  else None.
Proof.
  unfold prepare_patch_for_application, trimmed_lines, unix_newlines, assemble.
  destruct (nonempty _); [|reflexivity]. simpl.
  destruct (existsb is_hunk _); [|reflexivity]. simpl.
  rewrite rewrite_headers_eq.
  rewrite !with_diff_line_existsb by auto. reflexivity.
Qed.

Lemma has_line_trimmed p patch :
  p [] = false -> existsb p (trimmed_lines patch) = has_line p patch.
Proof. intros Hp. unfold trimmed_lines, has_line, diff_lines. by apply existsb_split_strip. Qed.

Lemma one_header_rejected patch file_path :
  has_line is_old patch <> has_line is_new patch ->
  prepare_patch_for_application patch file_path = None.
Proof.
  intros H. rewrite prepare_eq. destruct (_ && _); [|reflexivity].
  unfold assemble. rewrite !has_line_trimmed by reflexivity.
  by destruct (has_line is_old patch), (has_line is_new patch).
Qed.

(** **** Lines that join to a text with clean ends *)

Lemma last_join sep (ls : list text) l :
  last ls = Some l -> l <> [] -> last (join sep ls) = last l.
Proof.
  intros Hl Hne. apply last_Some in Hl as [ls' ->].
  destruct ls' as [|x ls']; [reflexivity|].
  rewrite join_app by done. simpl join. rewrite app_assoc. by apply last_app_ne.
Qed.

Lemma head_join sep (ls : list text) :
  hd [] ls <> [] -> head (join sep ls) = head (hd [] ls).
Proof.
  destruct ls as [|l ls]; [done|]. simpl hd. intros Hl.
  destruct ls; [reflexivity|]. rewrite join_cons. by destruct l.
Qed.

Lemma Forall_last {A} (P : A -> Prop) l x : Forall P l -> last l = Some x -> P x.
Proof. intros H Hl. apply last_Some in Hl as [l' ->]. apply Forall_app in H as [_ H]. by inversion H. Qed.

Lemma join_clean_ends (ls : list text) :
  ends_ok ls -> Forall no_line_break ls ->
  join nl ls <> [] /\ head (join nl ls) <> Some LF /\ last (join nl ls) <> Some LF.
Proof.
  intros (Hhd & Hlast & Hne) Hlb.
  assert (Hh : head (join nl ls) <> Some LF).
  { rewrite head_join by exact Hhd. destruct ls as [|l ls]; [done|]. simpl hd in *.
    inversion Hlb as [|? ? [Hl _] _]; subst. intros Hc. apply Hl.
    destruct l; [done|]. injection Hc as ->. left. }
  assert (Hl : last (join nl ls) <> Some LF).
  { destruct (last ls) as [l|] eqn:El; [|by apply last_None in El].
    rewrite (last_join nl ls l El) by (intros ->; done).
    destruct (Forall_last _ _ _ Hlb El) as [Hl _]. intros Hc. apply Hl.
    apply last_Some in Hc as [l' ->]. apply elem_of_app. right. left. }
  split; [|done]. intros Hj. destruct ls as [|l ls]; [done|]. simpl hd in *.
  rewrite head_join in Hh by exact Hhd. simpl hd in *.
  assert (head (join nl (l :: ls)) = head l) by (by apply head_join).
  rewrite Hj in H. by destruct l.
Qed.

Lemma render_eq h (ls : list text) :
  (nonempty h = true -> existsb is_diff_git ls = true) ->
  ends_ok ls -> Forall no_line_break ls ->
  render h ls = join nl ls ++ nl.
Proof.
  intros Hd Hends Hlb. unfold render.
  assert (nonempty h && negb (existsb is_diff_git ls) = false) as ->.
  { destruct (nonempty h); [|done]. by rewrite Hd. }
  destruct (join_clean_ends ls Hends Hlb) as (_ & _ & Hl).
  unfold rstrip_chars. rewrite rstrip_by_id; [done|].
  intros c Hc. rewrite in_chars_nl. apply eqb_false_iff. intros ->. done.
Qed.

(** The lines of a stripped text that is not empty. *)
Lemma trimmed_lines_ok patch :
  nonempty (strip_chars (unix_newlines patch) nl) = true ->
  ends_ok (trimmed_lines patch) /\ Forall no_line_break (trimmed_lines patch).
Proof.
  intros Hne. unfold trimmed_lines.
  destruct (strip_nl_spec (unix_newlines patch)) as (k & m & Hs & Hh & Hl).
  set (z := strip_chars (unix_newlines patch) nl) in *.
  split.
  - split; [|split].
    + intros H. apply split_head_nil in H as [H|H]; [by rewrite H in Hne|done].
    + intros H. apply split_last_nil in H as [H|H]; [by rewrite H in Hne|done].
    + apply split_not_nil.
  - apply Forall_forall. intros l Hl'. split.
    + pose proof (split_lines_no_sep LF z) as H. rewrite Forall_forall in H. by apply H.
    + intros Hc. apply (split_chars LF z l CR Hl') in Hc.
      assert (Hx : CR ∈ unix_newlines patch).
      { rewrite Hs. apply elem_of_app. right. apply elem_of_app. by left. }
      unfold unix_newlines in Hx. by apply replace_char_not_in in Hx.
Qed.

End PostTheory.

Module PostHeaders.
Import Py PyFacts Postprocess PostFacts PostTheory.

Lemma find_index_split {A} (p : A -> bool) l i :
  find_index p l = Some i ->
  exists x, l = take i l ++ x :: drop (S i) l /\ p x = true /\ existsb p (take i l) = false
            /\ drop i l = x :: drop (S i) l.
Proof.
  intros H. destruct (find_index_Some _ _ _ H) as (x & Hx & Hp & Ht).
  exists x. repeat split; try done.
  - by apply take_drop_middle_at.
  - by apply drop_S.
Qed.

Lemma headerless_diff patch :
  has_line is_hunk patch = true ->
  has_line is_old patch = false ->
  has_line is_new patch = false ->
  has_line is_diff_git patch = false ->
  exists pre hunk post,
    trimmed_lines patch = pre ++ hunk :: post
    /\ is_hunk hunk = true
    /\ existsb is_hunk pre = false
    /\ forall file_path,
         let h := path_hint_of file_path in
         prepare_patch_for_application patch file_path =
         if nonempty h
         then Some (join nl (diff_header h :: pre
                             ++ [old_header h; new_header h]
                             ++ hunk :: post) ++ nl)
         else None.
Proof.
  intros Hhunk Hold Hnew Hdiff.
  rewrite <- has_line_trimmed in Hhunk, Hold, Hnew, Hdiff by reflexivity.
  assert (Hne : nonempty (strip_chars (unix_newlines patch) nl) = true).
  { destruct (strip_chars (unix_newlines patch) nl) eqn:E; [|done].
    unfold trimmed_lines in Hhunk. by rewrite E in Hhunk. }
  destruct (trimmed_lines_ok patch Hne) as [Hends Hlb].
  set (L := trimmed_lines patch) in *.
  destruct (find_index is_hunk L) as [i|] eqn:Ei.
  2:{ apply find_index_None in Ei. congruence. }
  destruct (find_index_split _ _ _ Ei) as (hunk & HL & Hh & Hpre & Hdrop).
  exists (take i L), hunk, (drop (S i) L).
  split; [exact HL|]. split; [exact Hh|]. split; [exact Hpre|].
  intros file_path h. rewrite prepare_eq. fold L. rewrite Hne, Hhunk.
  cbn [andb]. unfold assemble. fold h. rewrite Hold, Hnew. cbn [andb orb negb].
  destruct (nonempty h) eqn:Hnh.
  2:{ unfold insert_headers. by rewrite Hnh. }
  rewrite with_diff_line_absent by done.
  assert (Hmap : map (rewrite_header h) (diff_header h :: L) = diff_header h :: L).
  { cbn [map]. rewrite map_rewrite_header_none by done. by rewrite rewrite_header_other. }
  rewrite Hmap. unfold insert_headers. rewrite Hnh. cbn [negb find_index].
  assert (is_hunk (diff_header h) = false) as -> by reflexivity.
  rewrite Ei. cbn [fmap option_fmap option_map take drop]. rewrite Hdrop.
  cbn [app]. f_equal.
  unfold render. rewrite Hnh. cbn [existsb].
  rewrite is_diff_git_diff_header. cbn [orb negb andb].
  unfold rstrip_chars. rewrite rstrip_by_id; [done|].
  intros c Hc. rewrite in_chars_nl. apply eqb_false_iff. intros ->.
  destruct Hends as (_ & Hlast & HLne).
  destruct (last L) as [l|] eqn:El; [|by apply last_None in El].
  assert (Hll : last (diff_header h :: take i L ++ old_header h :: new_header h :: hunk :: drop (S i) L) = Some l).
  { assert (HlL : last L = last (hunk :: drop (S i) L)).
    { rewrite HL at 1. apply last_app_cons. }
    rewrite <- El, HlL.
    change (diff_header h :: take i L ++ old_header h :: new_header h :: hunk :: drop (S i) L)
      with ((diff_header h :: take i L) ++ old_header h :: new_header h :: hunk :: drop (S i) L).
    rewrite last_app_cons. reflexivity. }
  rewrite (last_join nl _ l Hll) in Hc by (intros ->; done).
  destruct (Forall_last _ _ _ Hlb El) as [Hl _]. apply Hl.
  apply last_Some in Hc as [l' ->]. apply elem_of_app. right. left.
Qed.

End PostHeaders.

Module NormalForm.
Import Py PyFacts Postprocess PostFacts PostTheory PostHeaders.

Lemma not_in_join (c : ascii) sep (ls : list text) :
  c ∉ sep -> Forall (fun l => c ∉ l) ls -> c ∉ join sep ls.
Proof.
  intros Hsep Hls. induction Hls as [|l ls Hl Hls IH]; [apply not_elem_of_nil|].
  destruct ls as [|l' ls]; [exact Hl|]. rewrite join_cons.
  rewrite !not_elem_of_app. auto.
Qed.

Lemma unix_newlines_id (s : text) : CR ∉ s -> unix_newlines s = s.
Proof.
  intros H. unfold unix_newlines.
  rewrite (replace_no_old s [CR; LF] nl CR) by done.
  by rewrite (replace_no_old s [CR] nl CR).
Qed.

Lemma lstrip_by_all p (pre s : text) :
  Forall (fun c => p c = true) pre -> lstrip_by p (pre ++ s) = lstrip_by p s.
Proof. induction 1 as [|c pre Hc _ IH]; [done|]. simpl. by rewrite Hc. Qed.

Lemma strip_chars_join (ls : list text) :
  ends_ok ls -> Forall no_line_break ls ->
  strip_chars (join nl ls ++ nl) nl = join nl ls.
Proof.
  intros Hends Hlb. destruct (join_clean_ends ls Hends Hlb) as (Hne & Hh & Hl).
  unfold strip_chars, strip_by.
  rewrite lstrip_by_id.
  2:{ intros c Hc. rewrite in_chars_nl. apply eqb_false_iff. intros ->.
      destruct (join nl ls); [done|]. simpl in *. congruence. }
  unfold rstrip_by. rewrite rev_app_distr. change (rev nl) with [LF].
  rewrite (lstrip_by_all _ [LF]) by (constructor; [reflexivity|constructor]).
  fold (rstrip_by (in_chars nl) (join nl ls)). apply rstrip_by_id.
  intros c Hc. rewrite in_chars_nl. apply eqb_false_iff. intros ->. done.
Qed.

Lemma map_fixed {A} (f : A -> A) l : Forall (fun x => f x = x) l -> map f l = l.
Proof. induction 1 as [|x l Hx _ IH]; [done|]. simpl. by rewrite Hx, IH. Qed.

(** A diff whose lines are already normal is left as it is. *)
Lemma second_pass h (ls : list text) file_path :
  path_hint_of file_path = h -> normal_lines h ls ->
  prepare_patch_for_application (join nl ls ++ nl) file_path = Some (join nl ls ++ nl).
Proof.
  intros Hh (Hfix & Hdiff & Hold & Hnew & Hhunk & Hends & Hlb).
  assert (Hlf : Forall (fun l : text => LF ∉ l) ls).
  { eapply Forall_impl; [exact Hlb|]. by intros l [? ?]. }
  assert (Hcr : Forall (fun l : text => CR ∉ l) ls).
  { eapply Forall_impl; [exact Hlb|]. by intros l [? ?]. }
  assert (Hq : unix_newlines (join nl ls ++ nl) = join nl ls ++ nl).
  { apply unix_newlines_id. rewrite not_elem_of_app. split.
    - apply not_in_join; [|exact Hcr]. by intros H%list_elem_of_singleton.
    - by intros H%list_elem_of_singleton. }
  assert (Hz : strip_chars (unix_newlines (join nl ls ++ nl)) nl = join nl ls).
  { rewrite Hq. by apply strip_chars_join. }
  assert (HL : trimmed_lines (join nl ls ++ nl) = ls).
  { unfold trimmed_lines. rewrite Hz. apply split_join; [apply Hends|exact Hlf]. }
  rewrite prepare_eq, Hz, HL, Hhunk, Hh.
  destruct (join_clean_ends ls Hends Hlb) as (Hne & _ & _).
  assert (nonempty (join nl ls) = true) as -> by (by destruct (join nl ls)).
  cbn [andb]. unfold assemble. rewrite Hold, Hnew. cbn [andb orb negb].
  assert (Hw : with_diff_line h ls = ls).
  { destruct (nonempty h) eqn:E; [by apply with_diff_line_fixed; auto|].
    destruct h; [|done]. apply with_diff_line_nil. }
  rewrite Hw, (map_fixed _ _ Hfix). f_equal.
  apply render_eq; [|done|done].
  intros E. eapply existsb_head_filter. by apply Hdiff.
Qed.

(** **** The lines the first pass leaves *)

Lemma ends_ok_cons (x : text) ls : x <> [] -> ends_ok ls -> ends_ok (x :: ls).
Proof.
  intros Hx (Hh & Hl & Hne). split; [done|]. split; [|done].
  destruct ls as [|y ls]; [done|]. by rewrite last_cons_cons.
Qed.

Lemma ends_ok_insert (x : text) ls i : x <> [] -> ends_ok ls -> ends_ok (<[i := x]> ls).
Proof.
  intros Hx (Hh & Hl & Hne). split; [|split].
  - destruct ls as [|y ls]; [done|]. by destruct i.
  - destruct ls as [|y ls _] using rev_ind; [done|].
    rewrite last_snoc in Hl.
    destruct (decide (i < length ls)%nat) as [Hi|Hi].
    + rewrite insert_app_l by exact Hi. by rewrite last_snoc.
    + destruct (decide (i = length ls)) as [->|Hi'].
      * replace (length ls) with (length ls + 0)%nat by lia.
        rewrite insert_app_r. simpl. rewrite last_snoc. congruence.
      * rewrite list_insert_ge by (rewrite length_app; simpl; lia).
        by rewrite last_snoc.
  - intros H. apply (f_equal length) in H. rewrite length_insert in H. by destruct ls.
Qed.

Lemma rewrite_header_nonempty h x : x <> [] -> rewrite_header h x <> [].
Proof.
  intros Hx. unfold rewrite_header.
  destruct (is_old x); [by destruct (keeps_path h x)|].
  destruct (is_new x); [by destruct (keeps_path h x)|done].
Qed.

Lemma ends_ok_map (f : text -> text) ls :
  (forall x, x <> [] -> f x <> []) -> ends_ok ls -> ends_ok (map f ls).
Proof.
  intros Hf (Hh & Hl & Hne). split; [|split].
  - destruct ls as [|y ls]; [done|]. simpl. by apply Hf.
  - destruct ls as [|y ls _] using rev_ind; [done|].
    rewrite map_app. simpl. rewrite last_snoc in *. intros [= H]. revert H. apply Hf. congruence.
  - by destruct ls.
Qed.

Lemma no_line_break_app (a b : text) :
  no_line_break a -> no_line_break b -> no_line_break (a ++ b).
Proof. intros [? ?] [? ?]. split; rewrite not_elem_of_app; auto. Qed.

Lemma no_line_break_str_header (lit : text) h :
  no_line_break lit -> no_line_break h -> no_line_break (lit ++ h).
Proof. apply no_line_break_app. Qed.

Lemma no_line_break_decide (s : text) :
  forallb (fun c => negb (Ascii.eqb c LF) && negb (Ascii.eqb c CR)) s = true ->
  no_line_break s.
Proof.
  intros H. rewrite forallb_forall in H. split; intros Hin; apply list_elem_of_In in Hin;
    specialize (H _ Hin); by rewrite ?Ascii.eqb_refl, ?andb_false_r in H.
Qed.

Lemma no_line_break_old_header h : no_line_break h -> no_line_break (old_header h).
Proof. intros Hh. apply no_line_break_app; [by apply no_line_break_decide|exact Hh]. Qed.

Lemma no_line_break_new_header h : no_line_break h -> no_line_break (new_header h).
Proof. intros Hh. apply no_line_break_app; [by apply no_line_break_decide|exact Hh]. Qed.

Lemma no_line_break_diff_header h : no_line_break h -> no_line_break (diff_header h).
Proof.
  intros Hh. unfold diff_header.
  repeat apply no_line_break_app; try exact Hh; by apply no_line_break_decide.
Qed.

Lemma no_line_break_rewrite_header h x :
  no_line_break h -> no_line_break x -> no_line_break (rewrite_header h x).
Proof.
  intros Hh Hx. unfold rewrite_header.
  destruct (is_old x); [destruct (keeps_path h x); [done|by apply no_line_break_old_header]|].
  destruct (is_new x); [destruct (keeps_path h x); [done|by apply no_line_break_new_header]|done].
Qed.

Lemma with_diff_line_Forall (P : text -> Prop) h ls :
  P (diff_header h) -> Forall P ls -> Forall P (with_diff_line h ls).
Proof.
  intros HD Hls. destruct (nonempty h) eqn:Hh.
  2:{ destruct h; [|done]. by rewrite with_diff_line_nil. }
  destruct (find_index is_diff_git ls) as [i|] eqn:E.
  - rewrite (with_diff_line_present h ls i Hh E). by apply Forall_insert.
  - apply find_index_None in E. rewrite with_diff_line_absent by done. by constructor.
Qed.

Lemma with_diff_line_ends_ok h ls : ends_ok ls -> ends_ok (with_diff_line h ls).
Proof.
  intros Hls. destruct (nonempty h) eqn:Hh.
  2:{ destruct h; [|done]. by rewrite with_diff_line_nil. }
  destruct (find_index is_diff_git ls) as [i|] eqn:E.
  - rewrite (with_diff_line_present h ls i Hh E). by apply ends_ok_insert.
  - apply find_index_None in E. rewrite with_diff_line_absent by done. by apply ends_ok_cons.
Qed.

Lemma filter_map_rewrite_header q h ls :
  line_test q ->
  List.filter q (map (rewrite_header h) ls) = map (rewrite_header h) (List.filter q ls).
Proof.
  intros Hq. induction ls as [|x ls IH]; [done|]. simpl.
  rewrite line_test_rewrite_header by exact Hq. destruct (q x); simpl; by rewrite IH.
Qed.

(** The lines after the two loops. *)
Lemma loops_normal h ls :
  no_line_break h -> ends_ok ls -> Forall no_line_break ls ->
  let prepared := map (rewrite_header h) (with_diff_line h ls) in
  Forall (fun x => rewrite_header h x = x) prepared
  /\ (nonempty h = true ->
      head (List.filter is_diff_git prepared) = Some (diff_header h))
  /\ (forall q, line_test q -> q <> is_diff_git -> existsb q prepared = existsb q ls)
  /\ ends_ok prepared
  /\ Forall no_line_break prepared.
Proof.
  intros Hh Hends Hlb prepared. subst prepared.
  split; [|split; [|split; [|split]]].
  - apply Forall_map. apply Forall_forall. intros x _. apply rewrite_header_idem.
  - intros Hne. rewrite filter_map_rewrite_header by (right; right; by right).
    pose proof (with_diff_line_first h ls Hne) as Hd.
    destruct (List.filter is_diff_git (with_diff_line h ls)) as [|d ds]; [done|].
    injection Hd as ->. cbn [map head]. by rewrite rewrite_header_other.
  - intros q Hq Hnd. rewrite existsb_map_rewrite_header by exact Hq.
    apply with_diff_line_existsb. destruct Hq as [?|[?|[?|?]]]; auto. done.
  - apply ends_ok_map; [apply rewrite_header_nonempty|]. by apply with_diff_line_ends_ok.
  - apply Forall_map. eapply Forall_impl.
    + apply with_diff_line_Forall; [by apply no_line_break_diff_header|exact Hlb].
    + intros x Hx. by apply no_line_break_rewrite_header.
Qed.
End NormalForm.

Module Idempotence.
Import Py PyFacts Postprocess PostFacts PostTheory PostHeaders NormalForm.

Lemma insert_headers_normal h (prepared ls : list text) :
  no_line_break h ->
  Forall (fun x => rewrite_header h x = x) prepared ->
  (nonempty h = true ->
   head (List.filter is_diff_git prepared) = Some (diff_header h)) ->
  ends_ok prepared -> Forall no_line_break prepared ->
  insert_headers h prepared = Some ls ->
  normal_lines h ls.
Proof.
  intros Hh Hfix Hdiff Hends Hlb Hins. unfold insert_headers in Hins.
  destruct (nonempty h) eqn:Hne; [|done]. cbn [negb] in Hins.
  destruct (find_index is_hunk prepared) as [i|] eqn:Ei; [|done].
  injection Hins as <-.
  destruct (find_index_split _ _ _ Ei) as (hunk & HP & Hhunk & Hpre & Hdrop).
  rewrite Hdrop.
  assert (Hfix' : Forall (fun x => rewrite_header h x = x) (take i prepared)
                  /\ Forall (fun x => rewrite_header h x = x) (hunk :: drop (S i) prepared)).
  { rewrite HP in Hfix. by apply Forall_app in Hfix. }
  assert (Hlb' : Forall no_line_break (take i prepared)
                 /\ Forall no_line_break (hunk :: drop (S i) prepared)).
  { rewrite HP in Hlb. by apply Forall_app in Hlb. }
  destruct Hfix' as [Hf1 Hf2], Hlb' as [Hl1 Hl2].
  split; [|split; [|split; [|split; [|split; [|split]]]]].
  - apply Forall_app. split; [done|]. cbn [app].
    constructor; [apply rewrite_header_old_header|].
    constructor; [apply rewrite_header_new_header|done].
  - intros _. rewrite <- (Hdiff eq_refl).
    assert (Hfp : List.filter is_diff_git prepared =
                  List.filter is_diff_git (take i prepared)
                  ++ List.filter is_diff_git (hunk :: drop (S i) prepared)).
    { rewrite HP at 1. apply List.filter_app. }
    rewrite Hfp, List.filter_app. reflexivity.
  - rewrite existsb_app. cbn [app existsb]. rewrite is_old_old_header.
    by rewrite orb_true_r.
  - rewrite existsb_app. cbn [app existsb]. rewrite is_new_new_header.
    by rewrite !orb_true_r.
  - rewrite existsb_app. cbn [app existsb]. rewrite Hhunk. by rewrite !orb_true_r.
  - destruct Hends as (Hhd & Hlast & Hpne). split; [|split].
    + destruct i as [|i]; [done|]. destruct prepared; [done|]. exact Hhd.
    + cbn [app].
      change (take i prepared ++ old_header h :: new_header h :: hunk :: drop (S i) prepared)
        with (take i prepared ++ [old_header h; new_header h] ++ hunk :: drop (S i) prepared).
      rewrite app_assoc, last_app_cons. rewrite HP in Hlast. by rewrite last_app_cons in Hlast.
    + by destruct (take i prepared).
  - apply Forall_app. split; [done|]. cbn [app].
    constructor; [by apply no_line_break_old_header|].
    constructor; [by apply no_line_break_new_header|done].
Qed.

Lemma first_pass patch file_path q :
  no_line_break (path_hint_of file_path) ->
  prepare_patch_for_application patch file_path = Some q ->
  exists ls, q = join nl ls ++ nl /\ normal_lines (path_hint_of file_path) ls.
Proof.
  intros Hh. rewrite prepare_eq. set (h := path_hint_of file_path) in *.
  destruct (nonempty _) eqn:Hne; [|done]. cbn [andb].
  destruct (existsb is_hunk _) eqn:Hhunk; [|done].
  destruct (trimmed_lines_ok patch Hne) as [Hends Hlb].
  set (L := trimmed_lines patch) in *.
  destruct (loops_normal h L Hh Hends Hlb) as (Hfix & Hdiff & Hex & Hends' & Hlb').
  unfold assemble.
  set (prepared := map (rewrite_header h) (with_diff_line h L)) in *.
  assert (Hrender : forall ls, normal_lines h ls -> render h ls = join nl ls ++ nl).
  { intros ls (_ & Hd & _ & _ & _ & He & Hl). apply render_eq; [|done|done].
    intros E. eapply existsb_head_filter. by apply Hd. }
  destruct (existsb is_old L) eqn:Ho, (existsb is_new L) eqn:Hn; cbn [andb orb negb]; try done.
  - intros [= <-]. exists prepared.
    assert (Hnorm : normal_lines h prepared).
    { split; [done|]. split; [done|].
      rewrite !Hex; try (left; reflexivity) || (right; left; reflexivity)
                    || (right; right; left; reflexivity);
        try (intros E; apply (f_equal (fun f => f (str "--- "))) in E; discriminate E);
        try (intros E; apply (f_equal (fun f => f (str "+++ "))) in E; discriminate E);
        try (intros E; apply (f_equal (fun f => f (str "@@"))) in E; discriminate E).
      by rewrite Ho, Hn, Hhunk. }
    split; [by apply Hrender|done].
  - destruct (insert_headers h prepared) as [ls|] eqn:Hins; [|done].
    intros [= <-]. exists ls.
    assert (Hnorm : normal_lines h ls) by (by eapply insert_headers_normal).
    split; [by apply Hrender|done].
Qed.

(** C10, as the code has it: when the path, once sanitized, holds no line
    break, a diff the post-processor returns for that path is returned
    unchanged when it is normalised again for the same path. *)
Theorem normalize_idempotent patch file_path q :
  no_line_break (path_hint_of file_path) ->
  prepare_patch_for_application patch file_path = Some q ->
  prepare_patch_for_application q file_path = Some q.
Proof.
  intros Hh Hq. destruct (first_pass patch file_path q Hh Hq) as (ls & -> & Hn).
  by apply (second_pass (path_hint_of file_path)).
Qed.
End Idempotence.

Module ReFacts.
Import Py PyFacts Re.

Lemma run_Lit l b a cs :
  run (Lit l) (MState b a cs) =
  if startswith a l then [MState (rev l ++ b) (drop (length l) a) cs] else [].
Proof.
  revert b a. induction l as [|c l IH]; intros b a; [reflexivity|].
  cbn [Lit run flat_map after before caps]. destruct a as [|d a]; [reflexivity|].
  cbn [startswith]. destruct (Ascii.eqb c d) eqn:E; [|reflexivity].
  apply Ascii.eqb_eq in E as <-. cbn [flat_map andb]. rewrite app_nil_r, IH.
  destruct (startswith a l); [|reflexivity].
  cbn [rev length drop]. by rewrite <- app_assoc.
Qed.

Lemma run_Lit_app l b a cs :
  run (Lit l) (MState b (l ++ a) cs) = [MState (rev l ++ b) a cs].
Proof. rewrite run_Lit, startswith_app. by rewrite drop_app_length. Qed.

Lemma splits_app acc p r :
  splits acc (p ++ r) = splits_before acc p r ++ splits (acc ++ p) r.
Proof.
  revert acc. induction p as [|c p IH]; intros acc.
  - cbn [app splits_before]. by rewrite app_nil_r.
  - cbn [app splits splits_before]. rewrite IH. by rewrite <- app_assoc.
Qed.

Lemma splits_before_spec acc p r x :
  x ∈ splits_before acc p r ->
  exists p1 c p2, p = p1 ++ c :: p2 /\ x = (acc ++ p1, c :: p2 ++ r).
Proof.
  revert acc. induction p as [|c p IH]; intros acc Hx; [by apply elem_of_nil in Hx|].
  cbn [splits_before] in Hx. apply elem_of_cons in Hx as [->|Hx].
  - exists [], c, p. by rewrite app_nil_r.
  - destruct (IH _ Hx) as (p1 & d & p2 & -> & ->).
    exists (c :: p1), d, p2. by rewrite <- app_assoc.
Qed.

Lemma star_lazy_any acc b a cs :
  star false any_char (rev acc ++ b) a cs =
  map (fun x => MState (rev x.1 ++ b) x.2 cs) (splits acc a).
Proof.
  revert acc. induction a as [|c a IH]; intros acc; [reflexivity|].
  cbn [star splits map any_char fst snd]. f_equal.
  rewrite <- IH. by rewrite rev_unit.
Qed.

Lemma star_lazy_any0 b a cs :
  star false any_char b a cs =
  map (fun x => MState (rev x.1 ++ b) x.2 cs) (splits [] a).
Proof. exact (star_lazy_any [] b a cs). Qed.

Lemma flat_map_nil {A B} (f : A -> list B) l :
  (forall x, x ∈ l -> f x = []) -> flat_map f l = [].
Proof.
  induction l as [|x l IH]; intros H; [reflexivity|]. cbn [flat_map].
  rewrite (H x) by left. apply IH. intros y Hy. apply H. by right.
Qed.

Lemma flat_map_map {A B C} (f : B -> list C) (g : A -> B) l :
  flat_map f (map g l) = flat_map (fun x => f (g x)) l.
Proof. induction l as [|x l IH]; [reflexivity|]. cbn [map flat_map]. by rewrite IH. Qed.


Lemma consumed_app p b a a' cs cs' :
  consumed (MState b a cs) (MState (rev p ++ b) a' cs') = p.
Proof.
  unfold consumed. cbn [before]. rewrite length_app, length_rev.
  replace (length p + length b - length b)%nat with (length p) by lia.
  rewrite take_app_length'. 2: by rewrite length_rev.
  apply rev_involutive.
Qed.

(** [(?P<n>.*?)] followed by [k]. *)
Lemma run_lazy_group n k b a cs :
  run (Seq (Group n (Star false any_char)) k) (MState b a cs) =
  flat_map (fun x => run k (MState (rev x.1 ++ b) x.2 ((n, x.1) :: cs))) (splits [] a).
Proof.
  cbn [run before after caps]. rewrite star_lazy_any0.
  rewrite map_map, flat_map_map. apply flat_map_ext. intros [p r].
  cbn [fst snd before after caps]. by rewrite consumed_app.
Qed.

(** The first cut at which [f] succeeds decides the head of the result. *)
Lemma flat_map_splits_first {B} (f : text * text -> list B) (p r : text) :
  (forall p1 c p2, p = p1 ++ c :: p2 -> f (p1, c :: p2 ++ r) = []) ->
  flat_map f (splits [] (p ++ r)) = flat_map f (splits p r).
Proof.
  intros H. rewrite splits_app, flat_map_app. cbn [app].
  rewrite flat_map_nil; [reflexivity|].
  intros x Hx. apply splits_before_spec in Hx as (p1 & c & p2 & -> & ->). by apply H.
Qed.

Lemma flat_map_splits_none {B} (f : text * text -> list B) (a : text) :
  (forall p r, a = p ++ r -> f (p, r) = []) -> flat_map f (splits [] a) = [].
Proof.
  intros H. apply flat_map_nil. intros [p r] Hx.
  assert (Hs : forall acc s x, x ∈ splits acc s -> exists q, s = q ++ x.2 /\ x.1 = acc ++ q).
  { clear. intros acc s. revert acc. induction s as [|c s IH]; intros acc x Hx.
    - cbn in Hx. apply list_elem_of_singleton in Hx as ->. exists [].
      split; [reflexivity|]. cbn. by rewrite app_nil_r.
    - cbn [splits] in Hx. apply elem_of_cons in Hx as [->|Hx].
      + exists []. split; [reflexivity|]. cbn. by rewrite app_nil_r.
      + destruct (IH _ _ Hx) as (q & Hs & Hq). exists (c :: q).
        split; [by rewrite Hs|]. rewrite Hq. by rewrite <- app_assoc. }
  destruct (Hs _ _ _ Hx) as (q & Ha & Hq). cbn in Ha, Hq. subst. by apply H.
Qed.

(** **** Scanning *)

Lemma search_from_cons r b c a :
  search_from r b (c :: a) =
  match match_at r (MState b (c :: a) []) with
  | Some m => Some m
  | None => search_from r (c :: b) a
  end.
Proof. reflexivity. Qed.

Lemma search_from_app r (p a b : text) :
  (forall p1 c p2, p = p1 ++ c :: p2 ->
     run r (MState (rev p1 ++ b) (c :: p2 ++ a) []) = []) ->
  search_from r b (p ++ a) = search_from r (rev p ++ b) a.
Proof.
  revert b. induction p as [|c p IH]; intros b H; [reflexivity|].
  cbn [app]. rewrite search_from_cons. unfold match_at.
  pose proof (H [] c p eq_refl) as H0. cbn [rev app] in H0. rewrite H0.
  rewrite IH.
  - cbn [rev]. by rewrite <- app_assoc.
  - intros p1 c' p2 ->. specialize (H (c :: p1) c' p2 eq_refl).
    cbn [rev] in H. by rewrite <- app_assoc in H.
Qed.

Lemma search_from_here r b a st' rest :
  run r (MState b a []) = st' :: rest ->
  search_from r b a = Some (RMatch (MState b a []) st').
Proof. intros H. destruct a; cbn [search_from]; unfold match_at; by rewrite H. Qed.

Lemma search_from_none r b a :
  (forall p s, a = p ++ s -> run r (MState (rev p ++ b) s []) = []) ->
  search_from r b a = None.
Proof.
  revert b. induction a as [|c a IH]; intros b H.
  - cbn [search_from]. unfold match_at.
    pose proof (H [] [] eq_refl) as H0. cbn [rev app] in H0. by rewrite H0.
  - rewrite search_from_cons. unfold match_at.
    pose proof (H [] (c :: a) eq_refl) as H0. cbn [rev app] in H0. rewrite H0.
    apply IH. intros p s ->. specialize (H (c :: p) s eq_refl).
    cbn [rev] in H. by rewrite <- app_assoc in H.
Qed.

Lemma search_from_Some r b a m :
  search_from r b a = Some m ->
  exists p s rest, a = p ++ s /\ m_start m = MState (rev p ++ b) s []
                   /\ run r (m_start m) = m_end m :: rest
                   /\ (forall p1 c p2, p = p1 ++ c :: p2 ->
                         run r (MState (rev p1 ++ b) (c :: p2 ++ s) []) = []).
Proof.
  revert b. induction a as [|c a IH]; intros b.
  - cbn [search_from]. unfold match_at.
    destruct (run r (MState b [] [])) as [|st' rest] eqn:E; [done|].
    intros [= <-]. exists [], [], rest. repeat split; try done. by intros [|].
  - rewrite search_from_cons. unfold match_at.
    destruct (run r (MState b (c :: a) [])) as [|st' rest] eqn:E.
    + intros H. destruct (IH _ H) as (p & s & rest & -> & Hst & Hrun & Hmin).
      exists (c :: p), s, rest. cbn [rev]. rewrite <- app_assoc. repeat split; try done.
      intros [|c' p1] c'' p2 Hp.
      * injection Hp as -> ->. exact E.
      * injection Hp as -> ->. cbn [rev]. rewrite <- app_assoc. by apply Hmin.
    + intros [= <-]. exists [], (c :: a), rest. repeat split; try done. by intros [|].
Qed.

End ReFacts.

Module ExtractFacts.
Import Py PyFacts Re ReFacts.

Lemma run_Lit_seq l k b a cs :
  run (Seq (Lit l) k) (MState b a cs) =
  if startswith a l then run k (MState (rev l ++ b) (drop (length l) a) cs) else [].
Proof.
  cbn [run]. rewrite run_Lit. destruct (startswith a l); [|reflexivity].
  cbn [flat_map]. apply app_nil_r.
Qed.

Lemma run_Chr_seq c k b a cs :
  run (Seq (Chr c) k) (MState b a cs) =
  match a with
  | d :: a' => if Ascii.eqb c d then run k (MState (d :: b) a' cs) else []
  | [] => []
  end.
Proof.
  cbn [run after before caps]. destruct a as [|d a]; [reflexivity|].
  destruct (Ascii.eqb c d); [|reflexivity]. cbn [flat_map]. apply app_nil_r.
Qed.

Lemma run_body b a cs :
  run body_pattern (MState b a cs) = flat_map (close_at b cs) (splits [] a).
Proof. apply run_lazy_group. Qed.

Lemma run_tag_alt tag b a :
  flat_map (run (Seq (Chr LF) body_pattern)) (run (Lit tag) (MState b a [])) =
  after_tag tag b a.
Proof.
  unfold after_tag. rewrite run_Lit.
  destruct (startswith a tag) eqn:E.
  - apply startswith_iff in E as [r ->].
    cbn [flat_map]. rewrite app_nil_r, run_Chr_seq, drop_app_length.
    destruct r as [|d r].
    + assert (startswith (tag ++ []) (tag ++ nl) = false) as ->; [|reflexivity].
      apply not_true_is_false. intros H. apply startswith_iff in H as [r' H].
      apply (f_equal length) in H. rewrite !length_app in H. simpl in H. lia.
    + destruct (Ascii.eqb LF d) eqn:Ed.
      * apply Ascii.eqb_eq in Ed as <-.
        change (tag ++ LF :: r) with (tag ++ nl ++ r). rewrite app_assoc, startswith_app.
        rewrite drop_app_length, rev_app_distr. reflexivity.
      * assert (startswith (tag ++ d :: r) (tag ++ nl) = false) as ->; [|reflexivity].
        apply not_true_is_false. intros H. apply startswith_iff in H as [r' H].
        rewrite <- app_assoc in H. apply app_inv_head in H. injection H as H _.
        subst. by rewrite Ascii.eqb_refl in Ed.
  - assert (startswith a (tag ++ nl) = false) as ->; [|reflexivity].
    apply not_true_is_false. intros H. apply startswith_iff in H as [r' H].
    rewrite <- app_assoc in H. rewrite H, startswith_app in E. done.
Qed.

Lemma run_fence_pattern b a :
  run fence_pattern (MState b a []) =
  if startswith a fence then
    let b1 := rev fence ++ b in
    let a1 := drop (length fence) a in
    after_tag (str "diff") b1 a1 ++ after_tag (str "patch") b1 a1
    ++ after_tag (str "suggestion") b1 a1 ++ after_tag [] b1 a1
  else [].
Proof.
  unfold fence_pattern. rewrite run_Lit_seq. destruct (startswith a fence); [|reflexivity].
  cbv zeta. set (b1 := rev fence ++ b). set (a1 := drop (length fence) a).
  change (run (Seq ?o ?k) ?st) with (flat_map (run k) (run o st)).
  change (run (Opt ?r) ?st) with (run r st ++ [st]).
  change (run (Alt ?r1 (Alt ?r2 ?r3)) ?st) with (run r1 st ++ run r2 st ++ run r3 st).
  rewrite !flat_map_app. fold body_pattern.
  rewrite !run_tag_alt, <- !app_assoc. do 3 f_equal.
  cbn [flat_map]. rewrite app_nil_r. unfold after_tag. cbn [app length drop rev].
  rewrite run_Chr_seq. destruct a1 as [|d a1]; [reflexivity|].
  cbn [startswith nl]. destruct (Ascii.eqb LF d) eqn:Ed; [|reflexivity].
  apply Ascii.eqb_eq in Ed as <-. reflexivity.
Qed.
End ExtractFacts.

Module ExtractTheory.
Import Py PyFacts Re ReFacts ExtractFacts.

Lemma flat_map_splits_inv {B} (f : text * text -> list B) acc a y ys :
  flat_map f (splits acc a) = y :: ys ->
  exists p r ys', a = p ++ r
    /\ (forall p1 c p2, p = p1 ++ c :: p2 -> f (acc ++ p1, c :: p2 ++ r) = [])
    /\ f (acc ++ p, r) = y :: ys'.
Proof.
  revert acc. induction a as [|c a IH]; intros acc.
  - cbn [splits flat_map]. rewrite app_nil_r. intros H.
    exists [], [], ys. split; [done|]. split; [by intros [|]|]. by rewrite app_nil_r.
  - cbn [splits flat_map]. destruct (f (acc, c :: a)) as [|z zs] eqn:E.
    + cbn [app]. intros H. destruct (IH _ H) as (p & r & ys' & -> & Hmin & Hf).
      exists (c :: p), r, ys'. rewrite <- app_assoc in Hf. repeat split; try done.
      intros [|c' p1] c'' p2 Hp.
      * injection Hp as -> ->. by rewrite app_nil_r.
      * injection Hp as -> ->. specialize (Hmin p1 c'' p2 eq_refl).
        by rewrite <- app_assoc in Hmin.
    + cbn [app]. intros [= -> <-]. exists [], (c :: a), zs.
      split; [done|]. split; [by intros [|]|]. by rewrite app_nil_r.
Qed.

Lemma close_at_eq b cs p r :
  close_at b cs (p, r) =
  if startswith r fence
  then [MState (rev fence ++ rev p ++ b) (drop (length fence) r) ((1%nat, p) :: cs)]
  else [].
Proof. unfold close_at. cbn [fst snd]. apply run_Lit. Qed.

Lemma splits_unfold acc a :
  splits acc a = (acc, a) :: match a with
                             | [] => []
                             | c :: a' => splits (acc ++ [c]) a'
                             end.
Proof. by destruct a. Qed.

Lemma run_body_first b cs body post :
  shortest body post ->
  exists rest,
    run body_pattern (MState b (body ++ fence ++ post) cs) =
    MState (rev fence ++ rev body ++ b) post ((1%nat, body) :: cs) :: rest.
Proof.
  intros Hmin. rewrite run_body, flat_map_splits_first.
  - rewrite splits_unfold. cbn [flat_map].
    rewrite close_at_eq, startswith_app, drop_app_length.
    eexists. reflexivity.
  - intros p1 c p2 Hp. rewrite close_at_eq. by rewrite (Hmin p1 c p2 Hp).
Qed.

Lemma run_body_inv b cs a st rest :
  run body_pattern (MState b a cs) = st :: rest ->
  exists body post, a = body ++ fence ++ post /\ shortest body post
                    /\ caps st = (1%nat, body) :: cs.
Proof.
  rewrite run_body. intros H.
  apply flat_map_splits_inv in H as (p & r & ys' & -> & Hmin & Hf).
  cbn [app] in Hf. rewrite close_at_eq in Hf.
  destruct (startswith r fence) eqn:E; [|done].
  apply startswith_iff in E as [post ->]. injection Hf as <- _.
  exists p, post. repeat split; try done.
  intros b1 c b2 Hb. specialize (Hmin b1 c b2 Hb). cbn [app] in Hmin.
  rewrite close_at_eq in Hmin. by destruct (startswith _ fence).
Qed.

Lemma after_tag_here tag b a2 :
  after_tag tag b (tag ++ nl ++ a2) =
  run body_pattern (MState (rev (tag ++ nl) ++ b) a2 []).
Proof.
  unfold after_tag. rewrite app_assoc, startswith_app. by rewrite drop_app_length.
Qed.

Lemma after_tag_inv tag b a st rest :
  after_tag tag b a = st :: rest ->
  exists a2, a = tag ++ nl ++ a2
             /\ run body_pattern (MState (rev (tag ++ nl) ++ b) a2 []) = st :: rest.
Proof.
  unfold after_tag. destruct (startswith a (tag ++ nl)) eqn:E; [|done].
  apply startswith_iff in E as [a2 ->]. rewrite drop_app_length. intros H.
  exists a2. by rewrite <- app_assoc.
Qed.

(** The tags exclude one another: they differ in their first character,
    and none starts with a line feed. *)
Lemma after_tag_other tag tag' b a2 :
  tag ∈ fence_tags -> tag' ∈ fence_tags -> tag <> tag' ->
  after_tag tag' b (tag ++ nl ++ a2) = [].
Proof.
  intros Ht Ht' Hne. unfold after_tag, fence_tags in *.
  repeat (apply elem_of_cons in Ht as [->|Ht]); [| | | |by apply elem_of_nil in Ht];
    (repeat (apply elem_of_cons in Ht' as [->|Ht']); [| | | |by apply elem_of_nil in Ht']);
    try done; reflexivity.
Qed.

Lemma run_fence_pattern_block b a tag body post :
  block_at a tag body post -> shortest body post ->
  exists st rest,
    run fence_pattern (MState b a []) = st :: rest /\ caps st = [(1%nat, body)].
Proof.
  intros [-> Ht] Hmin. rewrite run_fence_pattern, startswith_app, drop_app_length.
  cbv zeta. set (b1 := rev fence ++ b).
  destruct (run_body_first (rev (tag ++ nl) ++ b1) [] body post Hmin) as [rest Hrun].
  unfold fence_tags in Ht.
  repeat (apply elem_of_cons in Ht as [->|Ht]); [| | | |by apply elem_of_nil in Ht].
  - rewrite after_tag_here, Hrun. eexists _, _. split; reflexivity.
  - rewrite (after_tag_other (str "patch") (str "diff")) by (done || set_solver).
    rewrite after_tag_here, Hrun. eexists _, _. split; reflexivity.
  - rewrite (after_tag_other (str "suggestion") (str "diff")) by (done || set_solver).
    rewrite (after_tag_other (str "suggestion") (str "patch")) by (done || set_solver).
    rewrite after_tag_here, Hrun. eexists _, _. split; reflexivity.
  - rewrite (after_tag_other [] (str "diff")) by (done || set_solver).
    rewrite (after_tag_other [] (str "patch")) by (done || set_solver).
    rewrite (after_tag_other [] (str "suggestion")) by (done || set_solver).
    rewrite after_tag_here, Hrun. eexists _, _. split; reflexivity.
Qed.

Lemma run_fence_pattern_inv b a st rest :
  run fence_pattern (MState b a []) = st :: rest ->
  exists tag body post,
    block_at a tag body post /\ shortest body post /\ caps st = [(1%nat, body)].
Proof.
  rewrite run_fence_pattern. destruct (startswith a fence) eqn:E; [|done].
  apply startswith_iff in E as [a1 ->]. rewrite drop_app_length. cbv zeta.
  set (b1 := rev fence ++ b).
  assert (Hone : forall tag r, tag ∈ fence_tags -> after_tag tag b1 a1 = st :: r ->
            exists tag body post,
              block_at (fence ++ a1) tag body post /\ shortest body post
              /\ caps st = [(1%nat, body)]).
  { intros tag r Ht H. apply after_tag_inv in H as (a2 & -> & H).
    apply run_body_inv in H as (body & post & -> & Hmin & Hc).
    exists tag, body, post. by repeat split. }
  destruct (after_tag (str "diff") b1 a1) as [|x xs] eqn:E1.
  2:{ cbn [app]. intros [= -> <-]. eapply (Hone (str "diff")); [set_solver|done]. }
  destruct (after_tag (str "patch") b1 a1) as [|x xs] eqn:E2.
  2:{ cbn [app]. intros [= -> <-]. eapply (Hone (str "patch")); [set_solver|done]. }
  destruct (after_tag (str "suggestion") b1 a1) as [|x xs] eqn:E3.
  2:{ cbn [app]. intros [= -> <-]. eapply (Hone (str "suggestion")); [set_solver|done]. }
  cbn [app]. intros H. eapply (Hone []); [set_solver|done].
Qed.

Lemma opens_block_shortest a :
  opens_block a -> exists tag body post, block_at a tag body post /\ shortest body post.
Proof.
  intros (tag & body & post & -> & Ht).
  (* the closing fence can be moved left to its first occurrence *)
  assert (H : forall rest : text,
             (exists body post, rest = body ++ fence ++ post) ->
             exists body post, rest = body ++ fence ++ post /\ shortest body post).
  { clear. intros rest. induction rest as [|c rest IH]; intros (body & post & H).
    - destruct body; discriminate H.
    - destruct (startswith (c :: rest) fence) eqn:E.
      + apply startswith_iff in E as [post' E]. exists [], post'. split; [done|]. by intros [|].
      + destruct body as [|d body].
        * cbn [app] in H. rewrite H, startswith_app in E. done.
        * injection H as <- ->. destruct IH as (body' & post' & Heq & Hmin); [by eauto|].
          rewrite Heq.
          exists (c :: body'), post'. split; [done|].
          intros [|d b1] c' b2 Hb.
          -- injection Hb as -> ->. rewrite <- Heq. exact E.
          -- injection Hb as -> ->. by apply (Hmin b1 c' b2). }
  destruct (H (body ++ fence ++ post)) as (body' & post' & Heq & Hmin); [by eauto|].
  exists tag, body', post'. split; [|done]. split; [|done]. by rewrite Heq.
Qed.

Lemma run_fence_pattern_nil b a :
  run fence_pattern (MState b a []) = [] <-> ~ opens_block a.
Proof.
  split.
  - intros H Ho. apply opens_block_shortest in Ho as (tag & body & post & Hb & Hmin).
    destruct (run_fence_pattern_block b a tag body post Hb Hmin) as (st & rest & Hrun & _).
    congruence.
  - intros Hno. destruct (run fence_pattern (MState b a [])) as [|st rest] eqn:E; [done|].
    exfalso. apply Hno. apply run_fence_pattern_inv in E as (tag & body & post & Hb & _).
    by exists tag, body, post.
Qed.

End ExtractTheory.

Module ExtractPatch.
Import Py PyFacts Re ReFacts ExtractFacts ExtractTheory.

Lemma search_from_None_inv r b a :
  search_from r b a = None ->
  forall p s, a = p ++ s -> run r (MState (rev p ++ b) s []) = [].
Proof.
  revert b. induction a as [|c a IH]; intros b H p s Hps.
  - symmetry in Hps. apply app_eq_nil in Hps as [-> ->].
    cbn [search_from] in H. unfold match_at in H. cbn [rev app].
    by destruct (run r (MState b [] [])).
  - rewrite search_from_cons in H. unfold match_at in H.
    destruct (run r (MState b (c :: a) [])) eqn:E; [|done].
    destruct p as [|d p].
    + cbn [app] in Hps. subst s. exact E.
    + injection Hps as <- ->. cbn [rev]. rewrite <- app_assoc. by apply IH.
Qed.

Lemma isspace_LF : isspace LF = true.
Proof. reflexivity. Qed.

Lemma endswith_strip_nl s : endswith (strip s) nl = false.
Proof.
  unfold endswith, strip, strip_by, rstrip_by. rewrite rev_involutive.
  destruct (lstrip_by_spec isspace (rev (lstrip_by isspace s))) as (pre & _ & _ & Hh).
  destruct (lstrip_by isspace (rev (lstrip_by isspace s))) as [|c r]; [reflexivity|].
  specialize (Hh c eq_refl). change (rev nl) with [LF]. cbn [startswith].
  destruct (Ascii.eqb LF c) eqn:E; [|reflexivity].
  apply Ascii.eqb_eq in E as <-. by rewrite isspace_LF in Hh.
Qed.

Lemma extract_patch_None t : extract_patch t = None <-> ~ has_fenced_block t.
Proof.
  unfold extract_patch, search. split.
  - destruct (search_from fence_pattern [] t) eqn:E; [done|]. intros _ (pre & s & -> & Ho).
    pose proof (search_from_None_inv _ _ _ E pre s eq_refl) as H.
    by apply run_fence_pattern_nil in H.
  - intros Hno. rewrite search_from_none; [done|].
    intros p s ->. apply run_fence_pattern_nil. intros Ho. apply Hno. by exists p, s.
Qed.

Lemma extract_patch_first t body :
  first_fenced_block t body -> extract_patch t = Some (strip body ++ nl).
Proof.
  intros (pre & tag & post & -> & Ht & Hpre & Hmin).
  unfold extract_patch, search. rewrite search_from_app.
  2:{ intros p1 c p2 Hp. apply run_fence_pattern_nil. by apply (Hpre p1 c p2). }
  destruct (run_fence_pattern_block (rev pre ++ []) _ tag body post (conj eq_refl Ht) Hmin)
    as (st & rest & Hrun & Hcaps).
  rewrite (search_from_here _ _ _ _ _ Hrun).
  unfold group. cbn [m_end]. rewrite Hcaps. cbn [assoc Nat.eqb default].
  by rewrite endswith_strip_nl.
Qed.

Lemma has_fenced_block_first t :
  has_fenced_block t -> exists body, first_fenced_block t body.
Proof.
  intros Hb. destruct (search fence_pattern t) as [m|] eqn:E.
  - unfold search in E.
    apply search_from_Some in E as (p & s & rest & -> & Hst & Hrun & Hmin).
    rewrite Hst in Hrun. apply run_fence_pattern_inv in Hrun as (tag & body & post & [-> Ht] & Hs & _).
    exists body, p, tag, post. repeat split; try done.
    intros p1 c p2 Hp. apply run_fence_pattern_nil with (b := rev p1 ++ []). by apply Hmin.
  - exfalso. revert Hb. apply extract_patch_None. unfold extract_patch. by rewrite E.
Qed.

End ExtractPatch.

Module LineFacts.
Import Py PyFacts Re ReFacts ExtractFacts ExtractPatch.

Section Prefix.
Variable l : text.
Hypothesis l_nonempty : l <> [].
Hypothesis l_no_LF : LF ∉ l.

Let P (x : text) : bool := startswith x l.

Lemma startswith_first_line a : startswith (hd [] (split LF a)) l = startswith a l.
Proof using l_no_LF.
  clear l_nonempty P. revert a. induction l as [|c l' IH]; intros a; [reflexivity|].
  assert (Hc : c <> LF) by (intros ->; apply l_no_LF; left).
  assert (Hl' : LF ∉ l') by (intros H; apply l_no_LF; by right).
  destruct a as [|d a]; [reflexivity|].
  destruct (decide (d = LF)) as [->|Hd].
  - rewrite split_cons_sep. cbn [hd startswith].
    apply eqb_false_iff in Hc. by rewrite Hc.
  - rewrite split_cons_other by exact Hd. cbn [hd startswith]. by rewrite IH.
Qed.

Lemma existsb_split_head s :
  existsb P (split LF s) = startswith s l || existsb P (tl (split LF s)).
Proof using l_no_LF.
  pose proof (split_not_nil LF s) as Hn. rewrite <- startswith_first_line.
  by destruct (split LF s).
Qed.

Lemma existsb_tail_lines s :
  existsb P (tl (split LF s)) = true <->
  exists p r, s = p ++ r /\ last p = Some LF /\ startswith r l = true.
Proof using l_no_LF.
  split.
  - induction s as [|c s IH]; [done|].
    destruct (decide (c = LF)) as [->|Hc].
    + rewrite split_cons_sep. cbn [tl]. rewrite existsb_split_head.
      intros H. apply orb_true_iff in H as [H|H].
      * by exists [LF], s.
      * destruct (IH H) as (p & r & -> & Hp & Hr). exists (LF :: p), r.
        repeat split; try done. destruct p; [done|]. by rewrite last_cons_cons.
    + rewrite split_cons_other by exact Hc. cbn [tl]. intros H.
      destruct (IH H) as (p & r & -> & Hp & Hr). exists (c :: p), r.
      repeat split; try done. destruct p; [done|]. by rewrite last_cons_cons.
  - intros (p & r & -> & Hp & Hr). apply last_Some in Hp as [p' ->].
    rewrite <- app_assoc. cbn [app]. rewrite split_app_sep.
    pose proof (split_not_nil LF p') as Hn. destruct (split LF p') as [|x xs]; [done|].
    cbn [app tl]. rewrite existsb_app, existsb_split_head, Hr. cbn [orb].
    apply orb_true_r.
Qed.

Lemma existsb_lines_iff s : existsb P (split LF s) = true <-> line_starts l s.
Proof using l_no_LF.
  rewrite existsb_split_head, orb_true_iff, existsb_tail_lines. split.
  - intros [H|(p & r & -> & Hp & Hr)].
    + exists [], s. auto.
    + exists p, r. auto.
  - intros (p & r & -> & [->|Hp] & Hr); [by left|]. right. by exists p, r.
Qed.

Lemma run_line_start b a :
  run (Interactive.line_start l) (MState b a []) <> [] <->
  (b = [] \/ head b = Some LF) /\ startswith a l = true.
Proof using Type.
  unfold Interactive.line_start. cbn [run flat_map before].
  destruct b as [|c b].
  - cbn [flat_map]. rewrite app_nil_r, run_Lit.
    destruct (startswith a l); split; try done; [by auto|by intros [_ ?]].
  - destruct (Ascii.eqb c LF) eqn:E.
    + apply Ascii.eqb_eq in E as ->. cbn [flat_map]. rewrite app_nil_r, run_Lit.
      destruct (startswith a l); split; try done; [by auto|by intros [_ ?]].
    + apply Ascii.eqb_neq in E. cbn [flat_map]. split; [done|].
      intros [[?|[= ?]] _]; done.
Qed.

Lemma found_line_start s :
  Interactive.found (Interactive.line_start l) s = true <-> line_starts l s.
Proof using Type.
  unfold Interactive.found, search.
  destruct (search_from (Interactive.line_start l) [] s) as [m|] eqn:E.
  - split; [intros _|done].
    apply search_from_Some in E as (p & r & rest & -> & Hst & Hrun & _).
    assert (Hne : run (Interactive.line_start l) (MState (rev p ++ []) r []) <> []).
    { rewrite <- Hst, Hrun. done. }
    apply run_line_start in Hne as [Hb Hr]. exists p, r. split; [done|]. split; [|done].
    rewrite app_nil_r in Hb. destruct Hb as [Hb|Hb].
    + left. apply (f_equal (@rev _)) in Hb. by rewrite rev_involutive in Hb.
    + right. by rewrite head_rev in Hb.
  - split; [done|]. intros (p & r & -> & Hp & Hr). exfalso.
    pose proof (search_from_None_inv _ _ _ E p r eq_refl) as H.
    revert H. apply run_line_start. split; [|done]. rewrite app_nil_r.
    destruct Hp as [->|Hp]; [by left|]. right. by rewrite head_rev.
Qed.

Lemma found_line_start_eq s :
  Interactive.found (Interactive.line_start l) s = existsb P (split LF s).
Proof using l_no_LF.
  apply eq_true_iff_eq. by rewrite found_line_start, existsb_lines_iff.
Qed.

(** Folding the lone carriage returns into line feeds loses no line. *)
Lemma line_starts_fold_cr s :
  CR ∉ l -> line_starts l s -> line_starts l (replace s [CR] nl).
Proof using Type.
  intros Hcr (p & r & -> & Hp & Hr). change nl with [LF].
  rewrite replace_char, map_app.
  set (f := fun x => if Ascii.eqb CR x then LF else x).
  exists (map f p), (map f r). split; [done|]. split.
  - destruct Hp as [->|Hp]; [by left|]. right.
    apply last_Some in Hp as [p' ->]. rewrite map_app. cbn [map]. by rewrite last_snoc.
  - apply startswith_iff in Hr as [r' ->]. rewrite map_app.
    assert (map f l = l) as ->; [|apply startswith_app].
    clear -Hcr. induction l as [|c l' IH]; [done|]. cbn [map]. rewrite IH.
    + subst f. cbv beta. destruct (Ascii.eqb CR c) eqn:E; [|done].
      apply Ascii.eqb_eq in E as <-. exfalso. apply Hcr. left.
    + intros H. apply Hcr. by right.
Qed.
End Prefix.

Lemma interactive_line_has_line (l : text) patch :
  l <> [] -> LF ∉ l -> CR ∉ l ->
  existsb (fun x => startswith x l) (interactive_lines patch) = true ->
  has_line (fun x => startswith x l) patch = true.
Proof.
  intros Hne Hlf Hcr H. unfold has_line, diff_lines, unix_newlines.
  apply existsb_lines_iff; [done|]. apply line_starts_fold_cr; [done|].
  by apply existsb_lines_iff in H.
Qed.

(** The lines the interactive check looks at. *)
Lemma interactive_prepare_needs (l : text) patch :
  l <> [] -> LF ∉ l ->
  Interactive.found (Interactive.line_start l)
    (let z := strip_chars (replace patch [CR; LF] nl) nl in
     if endswith z nl then z else z ++ nl)
  = existsb (fun x => startswith x l) (interactive_lines patch).
Proof.
  intros Hne Hlf. cbv zeta. rewrite found_line_start_eq by done.
  assert (Hnil : startswith [] l = false) by (by destruct l).
  set (z := strip_chars _ nl).
  assert (Hz : existsb (fun x => startswith x l) (split LF z)
               = existsb (fun x => startswith x l) (interactive_lines patch)).
  { unfold interactive_lines. subst z. by apply (existsb_split_strip (fun x => startswith x l)). }
  destruct (endswith z nl); [exact Hz|].
  change (z ++ nl) with (z ++ repeat LF 1). rewrite split_app_repeat, existsb_app.
  cbn [repeat existsb]. rewrite Hnil, Hz. by rewrite !orb_false_r.
Qed.

Lemma interactive_prepare_None (l : text) patch :
  l = str "--- " \/ l = str "+++ " \/ l = str "@@ " ->
  existsb (fun x => startswith x l) (interactive_lines patch) = false ->
  Interactive.prepare_patch_for_application patch = None.
Proof.
  intros Hl H. unfold Interactive.prepare_patch_for_application.
  destruct (negb (nonempty _)); [reflexivity|].
  assert (Hf : forall l', l' = l ->
            Interactive.found (Interactive.line_start l')
              (let z := strip_chars (replace patch [CR; LF] nl) nl in
               if endswith z nl then z else z ++ nl) = false).
  { intros l' ->. rewrite interactive_prepare_needs; [exact H| |].
    - by destruct Hl as [->|[->| ->]].
    - destruct Hl as [->|[->| ->]]; intros Hin; by repeat (apply elem_of_cons in Hin as [?|Hin]);
        try apply elem_of_nil in Hin. }
  cbv zeta in Hf.
  destruct Hl as [->|[->| ->]].
  - by rewrite (Hf _ eq_refl).
  - destruct (negb (Interactive.found (Interactive.line_start (str "--- ")) _)); [done|].
    by rewrite (Hf _ eq_refl).
  - destruct (negb (Interactive.found (Interactive.line_start (str "--- ")) _)); [done|].
    destruct (negb (Interactive.found (Interactive.line_start (str "+++ ")) _)); [done|].
    by rewrite (Hf _ eq_refl).
Qed.

End LineFacts.

Module ReLeads.
Import Py PyFacts Re ReFacts ExtractFacts ExtractTheory.

Lemma leads_seq r1 r2 st st1 st2 :
  leads r1 st st1 -> leads r2 st1 st2 -> leads (Seq r1 r2) st st2.
Proof.
  intros [rest1 H1] [rest2 H2]. unfold leads. cbn [run]. rewrite H1.
  cbn [flat_map]. rewrite H2. eexists. reflexivity.
Qed.

Lemma leads_Lit l b a cs :
  leads (Lit l) (MState b (l ++ a) cs) (MState (rev l ++ b) a cs).
Proof. exists []. apply run_Lit_app. Qed.

Lemma leads_Chr c b a cs :
  leads (Chr c) (MState b (c :: a) cs) (MState (c :: b) a cs).
Proof. exists []. cbn [run after before caps]. by rewrite Ascii.eqb_refl. Qed.

Lemma leads_Cls p c b a cs :
  p c = true -> leads (Cls p) (MState b (c :: a) cs) (MState (c :: b) a cs).
Proof. intros Hp. exists []. cbn [run after before caps]. by rewrite Hp. Qed.

Lemma leads_star_greedy p ws b a cs :
  forallb p ws = true -> stops p a ->
  leads (Star true p) (MState b (ws ++ a) cs) (MState (rev ws ++ b) a cs).
Proof.
  intros Hws Ha. unfold leads. cbn [run before after caps].
  revert b. induction ws as [|c ws IH]; intros b.
  - cbn [app rev]. destruct a as [|d a]; [by exists []|].
    cbn [star]. rewrite (Ha d eq_refl). by exists [].
  - cbn [forallb] in Hws. apply andb_true_iff in Hws as [Hc Hws].
    cbn [app star]. rewrite Hc. destruct (IH Hws (c :: b)) as [rest Hr].
    rewrite Hr. cbn [rev]. rewrite <- app_assoc. eexists. reflexivity.
Qed.

Lemma leads_plus_greedy p g b a cs :
  forallb p g = true -> g <> [] -> stops p a ->
  leads (Plus true p) (MState b (g ++ a) cs) (MState (rev g ++ b) a cs).
Proof.
  intros Hg Hne Ha. destruct g as [|c g]; [done|].
  cbn [forallb] in Hg. apply andb_true_iff in Hg as [Hc Hg].
  unfold Plus. eapply leads_seq.
  - cbn [app]. by apply leads_Cls.
  - cbn [rev]. rewrite <- app_assoc. by apply leads_star_greedy.
Qed.

Lemma leads_group n r b a cs p a' cs' :
  leads r (MState b a cs) (MState (rev p ++ b) a' cs') ->
  leads (Group n r) (MState b a cs) (MState (rev p ++ b) a' ((n, p) :: cs')).
Proof.
  intros [rest H]. unfold leads. cbn [run]. rewrite H. cbn [map before after caps].
  rewrite consumed_app. eexists. reflexivity.
Qed.


Lemma leads_lazy_group n k b p r cs st' :
  (forall p1 c p2, p = p1 ++ c :: p2 ->
     run k (MState (rev p1 ++ b) (c :: p2 ++ r) ((n, p1) :: cs)) = []) ->
  leads k (MState (rev p ++ b) r ((n, p) :: cs)) st' ->
  leads (Seq (Group n (Star false any_char)) k) (MState b (p ++ r) cs) st'.
Proof.
  intros Hmin [rest H]. unfold leads. rewrite run_lazy_group.
  rewrite (flat_map_splits_first _ p r).
  - rewrite splits_unfold. cbn [flat_map fst snd]. rewrite H. eexists. reflexivity.
  - intros p1 c p2 Hp. cbn [fst snd]. by apply Hmin.
Qed.


(** **** Occurrences of a marker that begins with a line feed *)

Lemma contains_iff (s sub : text) :
  contains s sub = true <-> exists p r, s = p ++ sub ++ r.
Proof.
  split.
  - induction s as [|c s IH]; cbn [contains].
    + rewrite orb_false_r. intros H. apply startswith_iff in H as [r ->]. by exists [], r.
    + intros H. apply orb_true_iff in H as [H|H].
      * apply startswith_iff in H as [r ->]. by exists [], r.
      * destruct (IH H) as (p & r & ->). by exists (c :: p), r.
  - intros (p & r & ->). induction p as [|c p IH].
    + cbn [app]. destruct (sub ++ r) eqn:E; cbn [contains]; rewrite <- E, startswith_app; done.
    + cbn [app contains]. rewrite IH. apply orb_true_r.
Qed.





End ReLeads.

Module BlockFacts.
Import Py PyFacts Re ReFacts ExtractFacts ExtractTheory ReLeads.









End BlockFacts.

Module ParserFacts.
Import Py PyFacts Re ReFacts ExtractFacts ExtractTheory ReLeads BlockFacts.



Section WithDigest.
Variable sha : text -> text.



End WithDigest.

End ParserFacts.

Module GapFacts.
Import Py PyFacts Re ReFacts ExtractFacts ExtractTheory ReLeads BlockFacts ParserFacts.




Lemma no_LF_block : LF ∉ str "### Assessment".
Proof. intros H. by repeat (apply elem_of_cons in H as [?|H]); try apply elem_of_nil in H. Qed.




















End GapFacts.

Module Properties.
Import Py PyFacts Re Postprocess PostFacts PostTheory PostHeaders.
Import ExtractPatch LineFacts ParserFacts BlockFacts StoreFacts Reconcile Sample.
Import GapFacts History Stale Blocks.

(** *** The apply command and a suggestion without file headers *)


Lemma header_missing (l : text) patch :
  l <> [] -> LF ∉ l -> CR ∉ l ->
  has_line (fun x => startswith x l) patch = false ->
  existsb (fun x => startswith x l) (interactive_lines patch) = false.
Proof.
  intros Hne Hlf Hcr H. destruct (existsb _ (interactive_lines patch)) eqn:E; [|done].
  apply interactive_line_has_line in E; [congruence|done..].
Qed.

Ltac no_break :=
  let H := fresh in
  intros H; by repeat (apply elem_of_cons in H as [?|H]); try apply elem_of_nil in H.

Lemma interactive_needs_both patch :
  has_line is_old patch = false \/ has_line is_new patch = false ->
  Interactive.prepare_patch_for_application patch = None.
Proof.
  intros [H|H].
  - apply (interactive_prepare_None (str "--- ")); [by left|].
    apply header_missing; [done|no_break|no_break|exact H].
  - apply (interactive_prepare_None (str "+++ ")); [by right; left|].
    apply header_missing; [done|no_break|no_break|exact H].
Qed.

Import Interactive.




(** *** The grade of a block *)

(** C2: a block graded [bad] or [Bad] is not retained, where the same block
    graded [BAD] is: the pattern of the block header takes capitals only as
    the grade, so the comparison that ignores case never sees another
    spelling. *)
Theorem lowercase_grade_dropped (sha : text -> text) :
  parse_bad_findings sha lower_report = []
  /\ parse_bad_findings sha mixed_report = []
  /\ parse_bad_findings sha upper_report
     = [finding_of_block sha (mkBlock (str " ") (str "BAD") [] (str "**Title:** x" ++ nl))].
Proof. repeat split; vm_compute; reflexivity. Qed.

(** *** Headers synthesized by the post-processor *)

(** C3: a diff with a hunk header line and no [--- ], [+++ ] or
    [diff --git ] line: for the path src/x.go the result is made of the
    lines of the diff with [--- a/src/x.go] and [+++ b/src/x.go] right
    before the first hunk header, under the [diff --git] line the
    post-processor puts first; with no path, or an empty one, there is no
    result. *)
Theorem headerless_diff_gets_headers (patch : text) :
  has_line is_hunk patch = true ->
  has_line is_old patch = false ->
  has_line is_new patch = false ->
  has_line is_diff_git patch = false ->
  exists pre hunk post,
    trimmed_lines patch = pre ++ hunk :: post
    /\ is_hunk hunk = true
    /\ existsb is_hunk pre = false
    /\ Postprocess.prepare_patch_for_application patch (Some (str "src/x.go"))
       = Some (join nl (str "diff --git a/src/x.go b/src/x.go"
                        :: pre ++ [str "--- a/src/x.go"; str "+++ b/src/x.go"]
                        ++ hunk :: post) ++ nl)
    /\ Postprocess.prepare_patch_for_application patch None = None
    /\ Postprocess.prepare_patch_for_application patch (Some []) = None.
Proof.
  intros H1 H2 H3 H4.
  destruct (headerless_diff patch H1 H2 H3 H4) as (pre & hunk & post & Hl & Hh & Hp & Hr).
  exists pre, hunk, post. split; [exact Hl|]. split; [exact Hh|]. split; [exact Hp|].
  split; [|split].
  - exact (Hr (Some (str "src/x.go"))).
  - exact (Hr None).
  - exact (Hr (Some [])).
Qed.

(** C3 on the diff of the scenario. *)
Lemma headerless_diff_gets_headers_witness :
  exists pre hunk post,
    trimmed_lines hunk_only = pre ++ hunk :: post
    /\ is_hunk hunk = true
    /\ existsb is_hunk pre = false
    /\ Postprocess.prepare_patch_for_application hunk_only (Some (str "src/x.go"))
       = Some (join nl (str "diff --git a/src/x.go b/src/x.go"
                        :: pre ++ [str "--- a/src/x.go"; str "+++ b/src/x.go"]
                        ++ hunk :: post) ++ nl)
    /\ Postprocess.prepare_patch_for_application hunk_only None = None
    /\ Postprocess.prepare_patch_for_application hunk_only (Some []) = None.
Proof. apply (headerless_diff_gets_headers hunk_only); vm_compute; reflexivity. Defined.

(** *** One file header without the other *)

(** C4: a diff with a [--- ] line and no [+++ ] line, or the converse, has
    no normal form: the post-processor returns none whatever the path, and
    so does the interactive reviewer. *)
Theorem one_header_is_rejected (patch : text) :
  has_line is_old patch <> has_line is_new patch ->
  (forall file_path, Postprocess.prepare_patch_for_application patch file_path = None)
  /\ Interactive.prepare_patch_for_application patch = None.
Proof.
  intros H. split.
  - intros file_path. by apply one_header_rejected.
  - apply interactive_needs_both.
    destruct (has_line is_old patch), (has_line is_new patch); auto; congruence.
Qed.

(** C4 on a diff with the old-file header only. *)
Lemma one_header_is_rejected_witness :
  (forall file_path, Postprocess.prepare_patch_for_application old_only file_path = None)
  /\ Interactive.prepare_patch_for_application old_only = None.
Proof. apply (one_header_is_rejected old_only). vm_compute. discriminate. Defined.

(** *** Identifiers of the findings *)







(** *** Reconciliation after the report changed *)

(** C6 on a store written for another report, in which [foo] was fixed:
    its entry starts afresh. *)
Lemma ensure_state_fresh_witness :
  let state' := ensure_state_for_findings stale_state (str "h1") [foo; bar] in
  review_hash state' = Some (str "h1")
  /\ current_index state' = Some 0
  /\ forall id : text,
       findings_state state' !! id =
       if bool_decide (id ∈ map identifier [foo; bar])
       then Some {[ str "status" := str "pending"; str "last_ai_output" := [];
                    str "last_patch" := []; str "last_patch_source" := [] ]}
       else None.
Proof. apply (ensure_state_fresh stale_state (str "h1") [foo; bar]). vm_compute. discriminate. Defined.

(** *** Where the loop starts *)

(** C7, an input on which the specification and the code differ: the
    cursor is on a finding that is acknowledged, the first pending finding
    is the next one, and the loop starts on the cursor all the same. *)
Lemma resume_on_resolved :
  current_index resumed_state = Some 0
  /\ [foo; bar] !! 0%nat = Some foo
  /\ status_of resumed_state foo = acknowledged
  /\ find_first_pending_index [foo; bar] resumed_state = 1
  /\ initial_index [foo; bar] resumed_state = 0.
Proof. repeat split; vm_compute; reflexivity. Qed.

(** *** Statuses during a session *)

(** C8, a run on which the specification and the code differ: fix, apply
    and confirm, then prev and next. The finding is saved as fixed, then as
    acknowledged. *)
Lemma fixed_then_acknowledged :
  saved_statuses (identifier foo) (interactive_loop [foo; bar] fresh_state session).2
  = [pending; fixed; fixed; acknowledged; acknowledged]
  /\ ((fun st => status_at st (identifier foo))
        <$> (interactive_loop [foo; bar] fresh_state session).1)
     = Some acknowledged.
Proof. split; vm_compute; reflexivity. Qed.

(** C8 on a run from a store in which [foo] is acknowledged: fix, apply
    and confirm, then prev and next. The finding is resolved in the state
    the session starts from and in every state it saves. *)
Lemma session_keeps_resolved_witness :
  let run := interactive_loop [foo; bar] resumed_state session in
  status_at resumed_state (identifier foo) = acknowledged
  /\ saved_statuses (identifier foo) run.2
     = [acknowledged; fixed; fixed; acknowledged; acknowledged]
  /\ keeps_resolved (resumed_state :: saved run.2)
  /\ forall state', run.1 = Some state' ->
                    keeps_resolved (resumed_state :: saved run.2 ++ [state']).
Proof.
  cbv zeta. split; [vm_compute; reflexivity|]. split; [vm_compute; reflexivity|].
  apply (session_keeps_resolved [foo; bar] resumed_state session). reflexivity.
Defined.

(** *** Extraction of a fenced diff *)

(** C9, as the code has it: there is no result exactly when no fenced block
    tagged diff, patch, suggestion or not tagged opens in the text;
    otherwise the text has a first such block, and the result is its
    interior without the white space at its two ends, followed by one line
    feed. *)
Theorem extract_patch_spec (t : text) :
  (extract_patch t = None <-> ~ has_fenced_block t)
  /\ (has_fenced_block t -> exists body, first_fenced_block t body)
  /\ (forall body, first_fenced_block t body ->
                   extract_patch t = Some (strip body ++ nl)).
Proof.
  split; [apply extract_patch_None|]. split; [apply has_fenced_block_first|].
  intros body. apply extract_patch_first.
Qed.

(** C9, an input on which the specification and the code differ: the
    interior of the block is a context line, which begins with a blank and
    ends with a line feed; the result is not that interior, it has lost the
    blank. *)
Lemma interior_not_verbatim :
  first_fenced_block (fenced indented) indented
  /\ endswith indented nl = true
  /\ extract_patch (fenced indented) = Some (str "a" ++ nl)
  /\ extract_patch (fenced indented) <> Some indented.
Proof.
  split; [|split; [|split]; vm_compute; (reflexivity || discriminate)].
  exists [], (str "diff"), []. cbv zeta. split; [vm_compute; reflexivity|].
  split; [unfold fence_tags; apply elem_of_cons; by left|].
  split; [intros p1 c p2 H; by destruct p1|].
  intros [|? [|? [|? [|? ?]]]] c b2 [=]; subst; reflexivity.
Qed.

(** *** Normalising twice *)

(** C10, an input on which the specification and the code differ: a path
    with a line feed in it. The headers written for it take two lines each,
    the second pass reads them as lines of their own and writes the headers
    again. *)
Lemma second_pass_differs :
  Postprocess.prepare_patch_for_application hunk_only (Some broken_path) = Some once
  /\ Postprocess.prepare_patch_for_application once (Some broken_path) = Some twice
  /\ once <> twice.
Proof. repeat split; try (vm_compute; reflexivity). vm_compute. discriminate. Qed.

(** C10 on the diff of the scenario and the path src/x.go. *)
Lemma normalize_idempotent_witness :
  Postprocess.prepare_patch_for_application x_go (Some (str "src/x.go")) = Some x_go.
Proof.
  apply (Idempotence.normalize_idempotent hunk_only (Some (str "src/x.go")) x_go).
  - split; no_break.
  - vm_compute. reflexivity.
Defined.

End Properties.

(** * Further properties *)

Module ReconcileMore.
Import Interactive Reconcile.

Lemma ensure_state_lookup (state : State) (new_hash : text) (findings : list Finding) id :
  findings_state (ensure_state_for_findings state new_hash findings) !! id
  = if bool_decide (id ∈ map identifier findings)
    then Some (default fresh_entry
                 ((if bool_decide (review_hash state = Some new_hash)
                   then findings_state state else ∅) !! id))
    else None.
Proof.
  unfold ensure_state_for_findings. cbn [findings_state].
  rewrite fold_setdefault_lookup.
  set (old := findings_state (if bool_decide _ then state else _)).
  assert (Hold : old = if bool_decide (review_hash state = Some new_hash)
                       then findings_state state else ∅).
  { subst old. by destruct (bool_decide _). }
  rewrite <- Hold. clearbody old.
  rewrite map_lookup_filter.
  destruct (old !! id) as [e|] eqn:E; cbn.
  - destruct (decide (id ∈ map identifier findings)) as [Hin|Hnin].
    + rewrite bool_decide_eq_true_2 by done. rewrite option_guard_True by done. reflexivity.
    + rewrite bool_decide_eq_false_2 by done. rewrite option_guard_False by done. reflexivity.
  - by destruct (bool_decide _).
Qed.

Lemma ensure_state_hash (state : State) new_hash findings :
  review_hash (ensure_state_for_findings state new_hash findings) = Some new_hash.
Proof.
  unfold ensure_state_for_findings.
  destruct (bool_decide (review_hash state = Some new_hash)) eqn:E; [|reflexivity].
  by apply bool_decide_eq_true_1 in E.
Qed.

(** X1: when the stored fingerprint is the one of the report just parsed,
    reconciliation keeps the fingerprint and the cursor (0 when the store
    has none), keeps as it is the entry of every current finding that has
    one, gives the current findings that have none the entry made of the
    four keys status, last_ai_output, last_patch and last_patch_source,
    with the status pending and the three others empty, and drops the
    entries of identifiers no current finding has. *)
Theorem ensure_state_same_report (state : State) (new_hash : text)
    (findings : list Finding) :
  review_hash state = Some new_hash ->
  let state' := ensure_state_for_findings state new_hash findings in
  review_hash state' = Some new_hash
  /\ current_index state' = Some (default 0 (current_index state))
  /\ forall id : text,
       findings_state state' !! id =
       if bool_decide (id ∈ map identifier findings)
       then Some (default
                    {[ str "status" := str "pending"; str "last_ai_output" := [];
                       str "last_patch" := []; str "last_patch_source" := [] ]}
                    (findings_state state !! id))
       else None.
Proof.
  intros Hh. cbv zeta. rewrite <- fresh_entry_keys. split; [|split].
  - apply ensure_state_hash.
  - unfold ensure_state_for_findings.
    rewrite (bool_decide_eq_true_2 (review_hash state = Some new_hash)) by done.
    cbn [current_index]. by destruct (current_index state).
  - intros id. rewrite ensure_state_lookup.
    by rewrite (bool_decide_eq_true_2 (review_hash state = Some new_hash)).
Qed.

Lemma ensure_state_cursor (state : State) new_hash findings :
  exists i, current_index (ensure_state_for_findings state new_hash findings) = Some i.
Proof.
  unfold ensure_state_for_findings. cbn [current_index].
  destruct (current_index (if bool_decide _ then state else _)); eauto.
Qed.

(** X2: reconciliation is idempotent: reconciling again the store it
    returned, for the same report, changes nothing. *)
Theorem ensure_state_idempotent (state : State) (new_hash : text)
    (findings : list Finding) :
  let state' := ensure_state_for_findings state new_hash findings in
  ensure_state_for_findings state' new_hash findings = state'.
Proof.
  cbv zeta. set (s1 := ensure_state_for_findings state new_hash findings).
  pose proof (ensure_state_hash state new_hash findings) as Hh. fold s1 in Hh.
  destruct (ensure_state_cursor state new_hash findings) as [i Hi]. fold s1 in Hi.
  assert (Hl : forall id, findings_state (ensure_state_for_findings s1 new_hash findings) !! id
                          = findings_state s1 !! id).
  { intros id. rewrite ensure_state_lookup.
    rewrite (bool_decide_eq_true_2 (review_hash s1 = Some new_hash)) by done.
    subst s1. rewrite ensure_state_lookup.
    destruct (bool_decide (id ∈ map identifier findings)); reflexivity. }
  apply map_eq in Hl.
  destruct s1 as [h fs c] eqn:Es. cbn in Hh, Hi. subst h c.
  unfold ensure_state_for_findings in *. cbn [review_hash] in *.
  rewrite (bool_decide_eq_true_2 (Some new_hash = Some new_hash)) in * by done.
  cbn [review_hash current_index findings_state] in *. by rewrite Hl.
Qed.

(** X3: after the report changed, the session starts on the first finding
    and every finding of the report is pending. *)
Theorem changed_report_restarts (state : State) (new_hash : text)
    (findings : list Finding) :
  review_hash state <> Some new_hash ->
  let state' := ensure_state_for_findings state new_hash findings in
  initial_index findings state' = 0
  /\ forall finding, finding ∈ findings -> status_of state' finding = pending.
Proof.
  intros Hh. cbv zeta. split.
  - unfold initial_index.
    assert (Hc : current_index (ensure_state_for_findings state new_hash findings) = Some 0).
    { unfold ensure_state_for_findings.
      by rewrite (bool_decide_eq_false_2 (review_hash state = Some new_hash)). }
    rewrite Hc. cbn [default from_option]. unfold id.
    destruct findings as [|f fs]; [reflexivity|].
    set (total := Z.of_nat (length (f :: fs))).
    assert (Ht : 0 < total) by (subst total; cbn [length]; lia).
    clearbody total. rewrite Z.min_l by lia.
    destruct (0 >=? total) eqn:E; [|reflexivity].
    apply Z.geb_le in E. lia.
  - intros finding Hin. unfold status_of. rewrite ensure_state_lookup.
    rewrite (bool_decide_eq_false_2 (review_hash state = Some new_hash)) by done.
    rewrite bool_decide_eq_true_2 by (apply list_elem_of_fmap; eauto).
    rewrite lookup_empty. reflexivity.
Qed.

End ReconcileMore.

Module PatchFacts.
Import Py PyFacts Re Postprocess PostFacts PostTheory PostHeaders NormalForm Idempotence.
Import ReFacts ReLeads ExtractTheory ExtractPatch LineFacts Suggestion.

(** **** When the post-processor has no result *)

Lemma existsb_prepared q h ls :
  q = is_old \/ q = is_new \/ q = is_hunk ->
  existsb q (map (rewrite_header h) (with_diff_line h ls)) = existsb q ls.
Proof.
  intros Hq. rewrite existsb_map_rewrite_header.
  - by apply with_diff_line_existsb.
  - unfold line_test. tauto.
Qed.

Lemma insert_headers_None h prepared :
  insert_headers h prepared = None
  <-> nonempty h = false \/ existsb is_hunk prepared = false.
Proof.
  unfold insert_headers. destruct (nonempty h); cbn [negb].
  - destruct (find_index is_hunk prepared) as [i|] eqn:E.
    + split; [done|]. intros [?|H]; [done|]. apply find_index_None in H. congruence.
    + split; [|done]. intros _. right. by apply find_index_None.
  - split; [|done]. intros _. by left.
Qed.

(** X4: the post-processor has no result for a diff exactly when the diff
    has no hunk header line, or has one of the two file headers without the
    other, or has neither file header and no usable path is known. *)
Theorem prepare_none_iff (patch : text) (file_path : option text) :
  Postprocess.prepare_patch_for_application patch file_path = None
  <-> has_line is_hunk patch = false
      \/ has_line is_old patch <> has_line is_new patch
      \/ (has_line is_old patch = false /\ has_line is_new patch = false
          /\ nonempty (path_hint_of file_path) = false).
Proof.
  rewrite prepare_eq. rewrite (has_line_trimmed is_hunk) by reflexivity.
  destruct (nonempty (strip_chars (unix_newlines patch) nl)) eqn:Hne; cbn [andb].
  2:{ split; [|done]. intros _. left.
      rewrite <- (has_line_trimmed is_hunk) by reflexivity. unfold trimmed_lines.
      destruct (strip_chars (unix_newlines patch) nl); [reflexivity|discriminate]. }
  destruct (has_line is_hunk patch) eqn:Hh.
  2:{ split; [|done]. intros _. by left. }
  unfold assemble. rewrite !has_line_trimmed by reflexivity.
  destruct (has_line is_old patch) eqn:Ho, (has_line is_new patch) eqn:Hn; cbn.
  - split; [done|]. intros [?|[?|(? & _)]]; done.
  - split; [|done]. intros _. right. by left.
  - split; [|done]. intros _. right. by left.
  - destruct (insert_headers _ _) as [ls|] eqn:E.
    + split; [done|]. intros [?|[?|(_ & _ & Hp)]]; [done..|].
      assert (insert_headers (path_hint_of file_path)
                (map (rewrite_header (path_hint_of file_path))
                   (with_diff_line (path_hint_of file_path) (trimmed_lines patch))) = None)
        as HN by (apply insert_headers_None; by left).
      congruence.
    + split; [|done]. intros _. right. right. split; [done|]. split; [done|].
      apply insert_headers_None in E as [E|E]; [done|].
      rewrite existsb_prepared in E by tauto.
      rewrite has_line_trimmed in E by reflexivity. congruence.
Qed.

(** **** What a result of the post-processor looks like *)

Lemma no_cr_rendered (ls : list text) :
  Forall no_line_break ls -> CR ∉ join nl ls ++ nl.
Proof.
  intros Hnb H. apply elem_of_app in H as [H|H].
  - revert H. apply not_in_join.
    + intros H. apply list_elem_of_singleton in H. discriminate.
    + eapply Forall_impl; [exact Hnb|]. by intros x [_ ?].
  - apply list_elem_of_singleton in H. discriminate.
Qed.

Lemma lines_of_rendered (ls : list text) :
  ls <> [] -> Forall no_line_break ls ->
  diff_lines (join nl ls ++ nl) = ls ++ [[]].
Proof.
  intros Hne Hnb. unfold diff_lines.
  pose proof (no_cr_rendered ls Hnb) as Hcr.
  rewrite unix_newlines_id by done.
  change (join nl ls ++ nl) with (join nl ls ++ LF :: []).
  rewrite split_app_sep. f_equal. apply split_join; [done|].
  eapply Forall_impl; [exact Hnb|]. by intros x [? _].
Qed.

Lemma has_line_rendered (p : text -> bool) (ls : list text) :
  p [] = false -> ls <> [] -> Forall no_line_break ls ->
  has_line p (join nl ls ++ nl) = existsb p ls.
Proof.
  intros Hp Hne Hnb. unfold has_line. rewrite lines_of_rendered by done.
  rewrite existsb_app. cbn. rewrite Hp. by rewrite !orb_false_r.
Qed.

Lemma normal_lines_ne h ls : normal_lines h ls -> ls <> [].
Proof. intros (_ & _ & _ & _ & _ & (_ & _ & H) & _). exact H. Qed.

(** X5: a result of the post-processor, for a path without line break, has
    a line of each of the three kinds [--- ], [+++ ] and [@@], carries when
    the path is known the [diff --git] line of that path as its first such
    line, holds no carriage return, does not begin with a line feed and
    ends with exactly one. *)
Theorem prepared_shape (patch : text) (file_path : option text) (q : text) :
  no_line_break (path_hint_of file_path) ->
  Postprocess.prepare_patch_for_application patch file_path = Some q ->
  has_line is_old q = true
  /\ has_line is_new q = true
  /\ has_line is_hunk q = true
  /\ (nonempty (path_hint_of file_path) = true ->
      head (List.filter is_diff_git (diff_lines q))
      = Some (diff_header (path_hint_of file_path)))
  /\ (CR ∉ q)
  /\ head q <> Some LF
  /\ exists q', q = q' ++ nl /\ q' <> [] /\ last q' <> Some LF.
Proof.
  intros Hh Hq. destruct (first_pass patch file_path q Hh Hq) as (ls & -> & Hn).
  pose proof (normal_lines_ne _ _ Hn) as Hne.
  destruct Hn as (Hfix & Hdiff & Ho & Hnw & Hhk & Hends & Hnb).
  destruct (join_clean_ends ls Hends Hnb) as (Hj & Hhd & Hlast).
  rewrite !has_line_rendered by done. split; [done|]. split; [done|]. split; [done|].
  split; [|split; [|split]].
  - intros Hp. rewrite lines_of_rendered by done.
    rewrite List.filter_app. cbn [List.filter]. change (is_diff_git []) with false.
    rewrite app_nil_r. by apply Hdiff.
  - by apply no_cr_rendered.
  - destruct (join nl ls) as [|c s] eqn:E; [done|]. exact Hhd.
  - exists (join nl ls). done.
Qed.

(** **** The two normalisers, one after the other *)

Lemma in_join (c : ascii) sep (ls : list text) x : x ∈ ls -> c ∈ x -> c ∈ join sep ls.
Proof.
  intros Hx Hc. induction ls as [|l ls IH]; [by apply elem_of_nil in Hx|].
  destruct ls as [|l' ls].
  - apply list_elem_of_singleton in Hx as ->. exact Hc.
  - rewrite join_cons. apply elem_of_cons in Hx as [->|Hx].
    + apply elem_of_app. by left.
    + apply elem_of_app. right. apply elem_of_app. right. by apply IH.
Qed.

Lemma strip_nonempty (s : text) c : c ∈ s -> isspace c = false -> strip s <> [].
Proof.
  intros Hc Hs. unfold strip, strip_by.
  destruct (lstrip_by_spec isspace s) as (pre & Heq & Hpre & Hhead).
  set (y := lstrip_by isspace s) in *.
  assert (Hy : y <> []).
  { intros Hy. rewrite Hy, app_nil_r in Heq. subst pre.
    rewrite Forall_forall in Hpre. rewrite (Hpre c Hc) in Hs. done. }
  destruct (rstrip_by_spec isspace y) as (suf & Heq' & Hsuf & _).
  intros Hr. rewrite Hr in Heq'. cbn in Heq'. subst suf.
  destruct y as [|d y']; [done|]. specialize (Hhead d eq_refl).
  apply Forall_cons in Hsuf as [Hd _]. congruence.
Qed.

Lemma endswith_nl_last (s : text) : endswith s nl = true <-> last s = Some LF.
Proof.
  unfold endswith. rewrite <- head_rev. change (rev nl) with [LF].
  destruct (rev s) as [|c r]; cbn [startswith head]; [split; discriminate|].
  destruct r; rewrite andb_true_r, eqb_true_iff;
    (split; [by intros <-|by intros [= ->]]).
Qed.

Lemma interactive_lines_rendered (ls : list text) :
  ls <> [] -> Forall no_line_break ls ->
  interactive_lines (join nl ls ++ nl) = ls ++ [[]].
Proof.
  intros Hne Hnb. unfold interactive_lines.
  pose proof (no_cr_rendered ls Hnb) as Hcr.
  rewrite (replace_no_old _ [CR; LF] nl CR) by done.
  change (join nl ls ++ nl) with (join nl ls ++ LF :: []).
  rewrite split_app_sep. f_equal. apply split_join; [done|].
  eapply Forall_impl; [exact Hnb|]. by intros x [? _].
Qed.

Lemma existsb_snoc_nil (p : text -> bool) (ls : list text) :
  p [] = false -> existsb p (ls ++ [[]]) = existsb p ls.
Proof. intros Hp. rewrite existsb_app. cbn. by rewrite Hp, !orb_false_r. Qed.

Lemma interactive_on_rendered (ls : list text) :
  ends_ok ls -> Forall no_line_break ls ->
  existsb is_old ls = true -> existsb is_new ls = true ->
  Interactive.prepare_patch_for_application (join nl ls ++ nl)
  = if existsb (fun x => startswith x (str "@@ ")) ls
    then Some (join nl ls ++ nl) else None.
Proof.
  intros Hends Hnb Ho Hn.
  assert (Hne : ls <> []) by (by destruct Hends as (_ & _ & ?)).
  destruct (join_clean_ends ls Hends Hnb) as (Hj & Hhd & Hlast).
  pose proof (no_cr_rendered ls Hnb) as Hcr.
  assert (He : endswith (join nl ls) nl = false).
  { destruct (endswith (join nl ls) nl) eqn:E; [|reflexivity].
    apply endswith_nl_last in E. done. }
  assert (Hl : forall l, l <> [] -> LF ∉ l ->
            Interactive.found (Interactive.line_start l) (join nl ls ++ nl)
            = existsb (fun x => startswith x l) ls).
  { intros l Hl1 Hl2.
    pose proof (interactive_prepare_needs l (join nl ls ++ nl) Hl1 Hl2) as H. cbv zeta in H.
    rewrite interactive_lines_rendered in H by done.
    rewrite existsb_snoc_nil in H by (by destruct l).
    rewrite (replace_no_old (join nl ls ++ nl) [CR; LF] nl CR) in H by done.
    rewrite strip_chars_join in H by done. rewrite He in H. exact H. }
  unfold Interactive.prepare_patch_for_application.
  rewrite (replace_no_old (join nl ls ++ nl) [CR; LF] nl CR) by done.
  rewrite strip_chars_join by done.
  assert (Hs : nonempty (strip (join nl ls)) = true).
  { apply existsb_exists in Ho as (x & Hx & Hox).
    assert (Hd : "-"%char ∈ join nl ls).
    { apply is_old_head in Hox. destruct x as [|c x']; [done|]. injection Hox as ->.
      apply (in_join _ _ _ ("-"%char :: x')); [by apply list_elem_of_In|].
      apply elem_of_cons. by left. }
    pose proof (strip_nonempty _ _ Hd eq_refl) as H.
    by destruct (strip (join nl ls)). }
  rewrite Hs. cbn [negb]. rewrite He.
  rewrite (Hl (str "--- ")), (Hl (str "+++ ")), (Hl (str "@@ ")); try done;
    try (intros H; by repeat (apply elem_of_cons in H as [?|H]); try apply elem_of_nil in H).
  change (existsb (fun x => startswith x (str "--- ")) ls) with (existsb is_old ls).
  change (existsb (fun x => startswith x (str "+++ ")) ls) with (existsb is_new ls).
  rewrite Ho, Hn. cbn [negb].
  match goal with
  | |- (if negb ?a then _ else _) = (if ?b then _ else _) => change b with a; destruct a
  end; reflexivity.
Qed.

(** X6: a result of the post-processor, for a path without line break, is
    accepted as it is by the normaliser of the interactive script when one
    of its lines begins with [@@] and a blank, and is rejected by it
    otherwise (the post-processor asks for [@@] only). *)
Theorem prepared_then_interactive (patch : text) (file_path : option text) (q : text) :
  no_line_break (path_hint_of file_path) ->
  Postprocess.prepare_patch_for_application patch file_path = Some q ->
  Interactive.prepare_patch_for_application q
  = if has_line (fun x => startswith x (str "@@ ")) q then Some q else None.
Proof.
  intros Hh Hq. destruct (first_pass patch file_path q Hh Hq) as (ls & -> & Hn).
  pose proof (normal_lines_ne _ _ Hn) as Hne.
  destruct Hn as (Hfix & Hdiff & Ho & Hnw & Hhk & Hends & Hnb).
  rewrite has_line_rendered by done. by apply interactive_on_rendered.
Qed.

(** **** What an extracted diff looks like *)

Lemma strip_idem (s : text) : strip (strip s) = strip s.
Proof.
  unfold strip, strip_by.
  destruct (lstrip_by_spec isspace s) as (pre & _ & _ & Hhead).
  set (y := lstrip_by isspace s) in *.
  destruct (rstrip_by_spec isspace y) as (suf & Hy & _ & Hlast).
  set (z := rstrip_by isspace y) in *.
  assert (Hz : forall c, head z = Some c -> isspace c = false).
  { intros c Hc. apply Hhead. rewrite Hy. destruct z; [done|exact Hc]. }
  rewrite (lstrip_by_id isspace z Hz). by apply rstrip_by_id.
Qed.

Lemma contains_infix (pre s suf sub : text) :
  contains (pre ++ s ++ suf) sub = false -> contains s sub = false.
Proof.
  intros H. destruct (contains s sub) eqn:E; [|reflexivity].
  apply contains_iff in E as (p & r & ->).
  assert (contains (pre ++ (p ++ sub ++ r) ++ suf) sub = true); [|congruence].
  apply contains_iff. exists (pre ++ p), (r ++ suf). by rewrite <- !app_assoc.
Qed.

Lemma strip_infix (s : text) : exists pre suf, s = pre ++ strip s ++ suf.
Proof.
  unfold strip, strip_by.
  destruct (lstrip_by_spec isspace s) as (pre & Hs & _ & _).
  destruct (rstrip_by_spec isspace (lstrip_by isspace s)) as (suf & Hy & _ & _).
  exists pre, suf. by rewrite <- Hy.
Qed.

Lemma shortest_no_fence body post : shortest body post -> contains body fence = false.
Proof.
  intros Hs. destruct (contains body fence) eqn:E; [|reflexivity].
  apply contains_iff in E as (p & r & ->).
  specialize (Hs p "`"%char (str "``" ++ r) eq_refl). discriminate Hs.
Qed.

Lemma extract_patch_some_block t p :
  extract_patch t = Some p -> has_fenced_block t.
Proof.
  unfold extract_patch, search. destruct (search_from fence_pattern [] t) as [m|] eqn:E; [|done].
  intros _. apply search_from_Some in E as (p0 & s & rest & -> & Hst & Hrun & _).
  rewrite Hst in Hrun. apply run_fence_pattern_inv in Hrun as (tag & body & post & Hb & _ & _).
  exists p0, s. split; [reflexivity|]. by exists tag, body, post.
Qed.

(** X7: a diff that extraction returns ends with a line feed; what comes
    before that line feed has no white space at either end and holds no
    fence. *)
Theorem extract_patch_shape (t p : text) :
  extract_patch t = Some p ->
  exists s, p = s ++ nl /\ strip s = s /\ contains s fence = false.
Proof.
  intros Hp. pose proof (extract_patch_some_block t p Hp) as Hb.
  destruct (has_fenced_block_first t Hb) as (body & Hf).
  pose proof (extract_patch_first t body Hf) as E. rewrite Hp in E. injection E as ->.
  exists (strip body). split; [reflexivity|]. split; [apply strip_idem|].
  destruct Hf as (pre & tag & post & _ & _ & _ & Hs).
  destruct (strip_infix body) as (a & b & Hbody).
  apply (contains_infix a (strip body) b). rewrite <- Hbody.
  by apply (shortest_no_fence body post).
Qed.

(** **** A diff written by the post-processor and read back *)

Lemma rstrip_by_app_all p (s ws : text) :
  Forall (fun c => p c = true) ws -> rstrip_by p (s ++ ws) = rstrip_by p s.
Proof.
  intros H. unfold rstrip_by. rewrite rev_app_distr. f_equal.
  apply lstrip_by_all. by apply Forall_rev.
Qed.

Lemma strip_by_app_all p (s ws : text) :
  Forall (fun c => p c = true) ws -> strip_by p (s ++ ws) = strip_by p s.
Proof.
  intros H. unfold strip_by.
  destruct (lstrip_by_spec p s) as (pre & Hs & Hpre & Hhead).
  set (y := lstrip_by p s) in *.
  destruct y as [|c y'] eqn:Ey.
  - rewrite app_nil_r in Hs. subst pre.
    assert (lstrip_by p (s ++ ws) = []) as ->; [|reflexivity].
    rewrite <- (app_nil_r (s ++ ws)). rewrite lstrip_by_all; [reflexivity|].
    apply Forall_app. by split.
  - assert (lstrip_by p (s ++ ws) = (c :: y') ++ ws) as ->.
    { rewrite Hs at 1. rewrite <- app_assoc. rewrite lstrip_by_all by done.
      apply lstrip_by_id. intros d [= <-]. by apply Hhead. }
    by apply rstrip_by_app_all.
Qed.

Lemma strip_rstrip_nl (patch : text) : strip (rstrip_chars patch nl ++ nl) = strip patch.
Proof.
  unfold rstrip_chars. destruct (rstrip_by_spec (in_chars nl) patch) as (suf & Hp & Hsuf & _).
  set (body := rstrip_by (in_chars nl) patch) in *.
  assert (Hsp : Forall (fun c => isspace c = true) suf).
  { eapply Forall_impl; [exact Hsuf|]. intros c Hc. cbv beta in Hc |- *.
    rewrite in_chars_nl in Hc.
    apply eqb_true_iff in Hc as ->. reflexivity. }
  clearbody body. unfold strip. rewrite Hp. rewrite !strip_by_app_all; [reflexivity|exact Hsp|].
  repeat constructor.
Qed.

Lemma fenced_body_shortest (body : text) :
  contains body fence = false -> shortest (body ++ nl) [].
Proof.
  intros Hc b1 c b2 Heq.
  destruct (startswith (c :: b2 ++ fence ++ []) fence) eqn:E; [|reflexivity]. exfalso.
  rewrite app_nil_r in E.
  assert (Hlast : last (c :: b2) = Some LF).
  { assert (last (body ++ nl) = Some LF) as H by apply last_snoc.
    rewrite Heq in H. rewrite last_app_ne in H by done. exact H. }
  destruct b2 as [|d [|e b3]].
  - injection Hlast as ->. discriminate E.
  - cbn in Hlast. injection Hlast as ->. cbn in E. rewrite andb_false_r in E. discriminate E.
  - assert (Hf : startswith (c :: d :: e :: b3) fence = true).
    { cbn [app startswith fence str list_ascii_of_string] in E |- *.
      apply andb_true_iff in E as [E1 E]. apply andb_true_iff in E as [E2 E].
      apply andb_true_iff in E as [E3 _]. by rewrite E1, E2, E3. }
    apply startswith_iff in Hf as (r & Hr).
    assert (Hr' : exists r', r = r' ++ nl).
    { destruct (list_eq_nil_dec r) as [->|Hne].
      - rewrite app_nil_r in Hr. rewrite Hr in Hlast. discriminate Hlast.
      - destruct (exists_last Hne) as (r' & x & ->). exists r'.
        rewrite Hr in Hlast. rewrite app_assoc, last_snoc in Hlast. by injection Hlast as ->. }
    destruct Hr' as (r' & ->).
    assert (body = b1 ++ fence ++ r').
    { apply (app_inv_tail nl). rewrite Heq, Hr. by rewrite <- !app_assoc. }
    subst body.
    assert (contains (b1 ++ fence ++ r') fence = true); [|congruence].
    apply contains_iff. by exists b1, r'.
Qed.

(** X8: what [format_diff_suggestion] writes for a diff that holds no
    fence is read back by extraction as that diff without the white space at
    its two ends, followed by one line feed; so a diff that begins and ends
    without white space, but for its final line feed, comes back as it
    was. *)
Theorem format_then_extract (patch : text) :
  contains (rstrip_chars patch nl) fence = false ->
  extract_patch (format_diff_suggestion patch) = Some (strip patch ++ nl)
  /\ (strip patch ++ nl = patch ->
      extract_patch (format_diff_suggestion patch) = Some patch).
Proof.
  intros Hc.
  assert (E : extract_patch (format_diff_suggestion patch) = Some (strip patch ++ nl)).
  { rewrite <- strip_rstrip_nl. apply extract_patch_first.
    unfold format_diff_suggestion. cbv zeta.
    exists nl, (str "diff"), []. cbv zeta.
    split; [by rewrite <- !app_assoc|].
    split; [unfold fence_tags; apply elem_of_cons; by left|].
    split.
    - intros p1 c p2 Hp (tag & body & post & Hb & _).
      destruct p1 as [|x [|]]; [|discriminate Hp..].
      injection Hp as <- <-. discriminate Hb.
    - by apply fenced_body_shortest. }
  split; [exact E|]. intros Hid. by rewrite E, Hid.
Qed.

(** **** Paths *)

Lemma drop_dot_slash_spec (n : nat) (s : text) :
  (length s <= n)%nat ->
  startswith (drop_dot_slash s) (str "./") = false
  /\ exists k, s = concat (repeat (str "./") k) ++ drop_dot_slash s.
Proof.
  revert s. induction n as [|n IH]; intros s Hn.
  - destruct s; [|cbn in Hn; lia]. split; [reflexivity|]. by exists 0%nat.
  - destruct s as [|c [|d rest]].
    + split; [reflexivity|]. by exists 0%nat.
    + split; [cbn; by rewrite andb_false_r|]. by exists 0%nat.
    + cbn [drop_dot_slash].
      destruct (Ascii.eqb c "." && Ascii.eqb d "/") eqn:E.
      * apply andb_true_iff in E as [E1 E2].
        apply eqb_true_iff in E1 as ->. apply eqb_true_iff in E2 as ->.
        destruct (IH rest) as (H1 & k & Hk); [cbn in Hn; lia|].
        split; [exact H1|]. exists (S k). cbn [repeat concat]. rewrite <- app_assoc.
        rewrite <- Hk. reflexivity.
      * split; [|by exists 0%nat].
        cbn [startswith str list_ascii_of_string].
        rewrite (Ascii.eqb_sym "." c), (Ascii.eqb_sym "/" d). by rewrite andb_true_r.
Qed.

Lemma drop_dot_slash_id (s : text) :
  startswith s (str "./") = false -> drop_dot_slash s = s.
Proof.
  destruct s as [|c [|d rest]]; try reflexivity.
  cbn [startswith str list_ascii_of_string drop_dot_slash].
  rewrite (Ascii.eqb_sym "." c), (Ascii.eqb_sym "/" d), andb_true_r. by intros ->.
Qed.

(** X9: a sanitized path holds no backslash and does not begin with [./];
    a path that is already so, with no white space at its ends, is left as
    it is. *)
Theorem sanitize_path_spec (path : text) :
  (backslash ∉ sanitize_path path)
  /\ startswith (sanitize_path path) (str "./") = false
  /\ (strip path = path -> backslash ∉ path ->
      startswith path (str "./") = false -> sanitize_path path = path).
Proof.
  unfold sanitize_path.
  set (s := replace (strip path) [backslash] (str "/")).
  destruct (drop_dot_slash_spec (length s) s (le_n _)) as (H1 & k & Hk).
  split; [|split; [exact H1|]].
  - intros Hin. assert (backslash ∈ s).
    { rewrite Hk. apply elem_of_app. by right. }
    revert H. subst s. by apply replace_char_not_in.
  - intros Hs Hb Hd. subst s. rewrite Hs.
    rewrite (replace_no_old path [backslash] (str "/") backslash) by done.
    by apply drop_dot_slash_id.
Qed.

(** **** The normaliser of the interactive script, twice *)

Lemma strip_chars_nl_again (s : text) :
  strip_chars s nl <> [] -> strip_chars (strip_chars s nl ++ nl) nl = strip_chars s nl.
Proof.
  intros Hne. destruct (strip_nl_spec s) as (k & m & _ & Hh & Hl).
  set (z := strip_chars s nl) in *.
  unfold strip_chars. rewrite strip_by_app_all.
  - apply strip_by_id.
    + intros c Hc. rewrite in_chars_nl. apply eqb_false_iff. intros ->. done.
    + intros c Hc. rewrite in_chars_nl. apply eqb_false_iff. intros ->. done.
  - repeat constructor.
Qed.

(** X10: a diff the interactive normaliser returns, in which no carriage
    return is left before a line feed, is returned unchanged when it is
    normalised again: what [apply_patch] pipes to git is then the diff the
    preview showed. *)
Theorem interactive_prepare_again (patch q : text) :
  Interactive.prepare_patch_for_application patch = Some q ->
  replace q [CR; LF] nl = q ->
  Interactive.prepare_patch_for_application q = Some q.
Proof.
  unfold Interactive.prepare_patch_for_application.
  set (z := strip_chars (replace patch [CR; LF] nl) nl).
  destruct (negb (nonempty (strip z))) eqn:Hz; [discriminate|].
  assert (Hzne : z <> []).
  { intros Hz0. rewrite Hz0 in Hz. discriminate Hz. }
  assert (He : endswith z nl = false).
  { destruct (endswith z nl) eqn:E; [|reflexivity]. apply endswith_nl_last in E.
    subst z. destruct (strip_nl_spec (replace patch [CR; LF] nl)) as (k & m & _ & _ & Hl).
    done. }
  rewrite He.
  destruct (negb (Interactive.found _ (z ++ nl))) eqn:F1; [discriminate|].
  destruct (negb (Interactive.found (Interactive.line_start (str "+++ ")) (z ++ nl))) eqn:F2;
    [discriminate|].
  destruct (negb (Interactive.found (Interactive.line_start (str "@@ ")) (z ++ nl))) eqn:F3;
    [discriminate|].
  intros [= <-] Hq. rewrite Hq.
  subst z. rewrite strip_chars_nl_again by done.
  set (z := strip_chars (replace patch [CR; LF] nl) nl) in *.
  rewrite Hz, He, F1, F2, F3. reflexivity.
Qed.

End PatchFacts.

Module FieldFacts.
Import Py PyFacts Re ReFacts ReLeads ExtractTheory ExtractPatch FieldLines PatchFacts.
Import Postprocess.

(** **** One line of the loop *)

Lemma step_rule f c l :
  is_rule l = true -> parse_fields_line (f, c) l = (f, None).
Proof.
  unfold is_rule, parse_fields_line. cbv zeta. intros H.
  destruct (strip l) as [|x s] eqn:E; [discriminate H|]. by rewrite H.
Qed.

(** What a line does when no field is open depends on the line only. *)
Lemma step_closed f l :
  opens_field l = None -> parse_fields_line (f, None) l = (f, None).
Proof.
  unfold opens_field, parse_fields_line. cbv zeta.
  destruct (strip l) as [|x s] eqn:E; [reflexivity|].
  destruct (_ || _); [reflexivity|].
  destruct (startswith (x :: s) (str "**")); [|reflexivity].
  destruct (_ =? -1); [reflexivity|].
  destruct (canonicalize_label _) as [k|]; [|reflexivity].
  destruct (lstrip_chars _ _); discriminate.
Qed.

Lemma fold_closed f (ls : list text) :
  Forall (fun l => opens_field l = None) ls ->
  fold_left parse_fields_line ls (f, None) = (f, None).
Proof.
  induction 1 as [|l ls Hl _ IH]; [reflexivity|].
  cbn [fold_left]. by rewrite step_closed.
Qed.

(** X11: in the body of a block, a line that begins with [---] or with
    [### ] closes the field being read, and the lines after it, up to the
    next label line, go to no field: the fields are those of the body cut
    before that line. *)
Theorem rule_cuts_field (body cut : text) (ls after : list text) (rule : text) :
  splitlines cut = ls ->
  splitlines body = ls ++ rule :: after ->
  is_rule rule = true ->
  Forall (fun l => opens_field l = None) after ->
  parse_fields body = parse_fields cut.
Proof.
  intros Hc Hb Hr Ha. unfold parse_fields. rewrite Hc, Hb, fold_left_app.
  cbn [fold_left]. destruct (fold_left parse_fields_line ls (∅, None)) as [f c].
  rewrite step_rule by done. by rewrite fold_closed.
Qed.

(** **** The names of the fields *)

Lemma canonicalize_label_names label k :
  canonicalize_label label = Some k -> k ∈ field_names.
Proof.
  unfold canonicalize_label. cbv zeta. intros H.
  apply elem_of_list_to_map_2 in H.
  match type of H with (_, _) ∈ ?l => assert (Hk : k ∈ (snd <$> l)) end.
  { apply list_elem_of_fmap. eexists. split; [|exact H]. reflexivity. }
  clear H. cbn [fmap list_fmap snd] in Hk.
  repeat (apply elem_of_cons in Hk as [->|Hk];
          [apply (bool_decide_unpack _); vm_compute; exact I|]).
  by apply elem_of_nil in Hk.
Qed.

Lemma named_append f c k x :
  named (f, c) -> k ∈ field_names -> named (setdefault_append k x f, Some k).
Proof.
  intros [Hf _] Hk. split; cbn [fst snd].
  - intros k' Hs. unfold setdefault_append in Hs.
    destruct (decide (k = k')) as [<-|Hne]; [done|].
    rewrite lookup_insert_ne in Hs by done. by apply Hf.
  - by intros k' [= <-].
Qed.

Lemma named_nil f c k :
  named (f, c) -> k ∈ field_names -> named (setdefault_nil k f, Some k).
Proof.
  intros [Hf _] Hk. split; cbn [fst snd].
  - intros k' Hs. unfold setdefault_nil in Hs.
    destruct (f !! k) eqn:E; [by apply Hf|].
    destruct (decide (k = k')) as [<-|Hne]; [done|].
    rewrite lookup_insert_ne in Hs by done. by apply Hf.
  - by intros k' [= <-].
Qed.

Lemma named_step acc l : named acc -> named (parse_fields_line acc l).
Proof.
  destruct acc as [f c]. intros Hn.
  assert (Hcont : named match c with
                        | Some cf => (setdefault_append cf (clean_value l) f, c)
                        | None => (f, c)
                        end).
  { destruct c as [cf|]; [|exact Hn]. apply (named_append f (Some cf)); [exact Hn|].
    by apply Hn. }
  unfold parse_fields_line. cbv zeta.
  destruct (strip l) as [|x s] eqn:E.
  - destruct c as [cf|]; [|exact Hn]. apply (named_append f (Some cf)); [exact Hn|].
    by apply Hn.
  - destruct (_ || _).
    { split; [apply Hn|discriminate]. }
    destruct (startswith (x :: s) (str "**")); [|exact Hcont].
    destruct (_ =? -1); [exact Hcont|].
    destruct (canonicalize_label _) as [k|] eqn:Ek; [|exact Hcont].
    apply canonicalize_label_names in Ek.
    destruct (lstrip_chars _ _).
    + by apply (named_nil f c).
    + destruct (named_nil f c k Hn Ek) as [Hf' _].
      apply (named_append (setdefault_nil k f) c); [|exact Ek].
      split; [exact Hf'|]. apply Hn.
Qed.

Lemma named_fold ls acc : named acc -> named (fold_left parse_fields_line ls acc).
Proof.
  revert acc. induction ls as [|l ls IH]; intros acc Hn; [exact Hn|].
  cbn [fold_left]. by apply IH, named_step.
Qed.

(** X12: the parser of a block body yields fields of the seven known names
    only, and no value begins or ends with a line feed. *)
Theorem parse_fields_names (body k v : text) :
  parse_fields body !! k = Some v ->
  k ∈ field_names /\ head v <> Some LF /\ last v <> Some LF.
Proof.
  unfold parse_fields.
  pose proof (named_fold (splitlines body) (∅, None)) as Hn.
  destruct (fold_left parse_fields_line (splitlines body) (∅, None)) as [f c].
  rewrite lookup_fmap. destruct (f !! k) as [xs|] eqn:E; [|discriminate].
  cbn. intros [= <-]. split.
  - assert (Hn' : named (f, c)).
    { apply Hn. split; cbn; [|discriminate]. intros k' [? H]. by rewrite lookup_empty in H. }
    destruct Hn' as [Hf _]. apply Hf. exists xs. exact E.
  - destruct (strip_nl_spec (join nl xs)) as (a & b & _ & Hh & Hl). by split.
Qed.

(** **** A fenced diff inside a field *)

Lemma strip_nil_rstrip (l : text) : strip l = [] -> rstrip l = [].
Proof.
  unfold strip, strip_by, rstrip. intros H.
  destruct (lstrip_by_spec isspace l) as (pre & Hl & Hpre & _).
  destruct (rstrip_by_spec isspace (lstrip_by isspace l)) as (suf & Hy & Hsuf & _).
  rewrite H in Hy. cbn in Hy. rewrite Hy in Hl.
  assert (Hall : Forall (fun c => isspace c = true) l).
  { rewrite Hl. apply Forall_app. by split. }
  destruct (rstrip_by_spec isspace l) as (suf' & Hr & _ & Hlast).
  destruct (rstrip_by isspace l) as [|c r] eqn:E using rev_ind; [reflexivity|].
  exfalso. clear IHr. rewrite last_snoc in Hlast. specialize (Hlast c eq_refl).
  rewrite Hr in Hall. apply Forall_app in Hall as [Hall _].
  apply Forall_app in Hall as [_ Hc]. apply Forall_cons in Hc as [Hc _]. congruence.
Qed.

Lemma clean_value_blank (l : text) : strip l = [] -> clean_value l = [].
Proof. intros H. unfold clean_value. by rewrite (strip_nil_rstrip l H). Qed.

Lemma step_plain f k l :
  plain l ->
  parse_fields_line (f, Some k) l = (setdefault_append k (clean_value l) f, Some k).
Proof.
  intros [Ho Hr]. unfold opens_field, is_rule, parse_fields_line in *. cbv zeta in *.
  destruct (strip l) as [|x s] eqn:E.
  - by rewrite (clean_value_blank l E).
  - rewrite Hr. destruct (startswith (x :: s) (str "**")); [|reflexivity].
    rewrite Hr in Ho.
    destruct (_ =? -1); [reflexivity|].
    destruct (canonicalize_label _) as [k'|]; [|reflexivity].
    destruct (lstrip_chars _ _); discriminate.
Qed.

Lemma fold_plain (ls : list text) f k xs :
  Forall plain ls -> f !! k = Some xs ->
  let r := fold_left parse_fields_line ls (f, Some k) in
  r.1 !! k = Some (xs ++ map clean_value ls) /\ r.2 = Some k.
Proof.
  intros Hls. revert f xs. induction Hls as [|l ls Hl _ IH]; intros f xs Hk; cbv zeta.
  - cbn. by rewrite app_nil_r.
  - cbn [fold_left map]. rewrite step_plain by done.
    specialize (IH (setdefault_append k (clean_value l) f) (xs ++ [clean_value l])).
    cbv zeta in IH. rewrite <- app_assoc in IH. apply IH.
    unfold setdefault_append. rewrite Hk. apply lookup_insert_eq.
Qed.

Lemma step_other f c l k :
  c <> Some k -> opens_field l <> Some k ->
  (parse_fields_line (f, c) l).1 !! k = f !! k
  /\ (parse_fields_line (f, c) l).2 <> Some k.
Proof.
  intros Hc Ho.
  assert (Hcont : (match c with
                   | Some cf => (setdefault_append cf (clean_value l) f, c)
                   | None => (f, c)
                   end).1 !! k = f !! k
                  /\ (match c with
                      | Some cf => (setdefault_append cf (clean_value l) f, c)
                      | None => (f, c)
                      end).2 <> Some k).
  { destruct c as [cf|]; [|done]. cbn [fst snd]. split; [|done].
    unfold setdefault_append. apply lookup_insert_ne. congruence. }
  unfold opens_field, parse_fields_line in *. cbv zeta in *.
  destruct (strip l) as [|x s] eqn:E.
  - destruct c as [cf|]; [|done]. cbn [fst snd]. split; [|done].
    unfold setdefault_append. apply lookup_insert_ne. congruence.
  - destruct (_ || _); [done|].
    destruct (startswith (x :: s) (str "**")); [|exact Hcont].
    destruct (_ =? -1); [exact Hcont|].
    destruct (canonicalize_label _) as [k'|]; [|exact Hcont].
    assert (Hk' : k' <> k) by (destruct (lstrip_chars _ _); cbn in Ho; congruence).
    assert (Hn : setdefault_nil k' f !! k = f !! k).
    { unfold setdefault_nil. destruct (f !! k'); [reflexivity|]. by apply lookup_insert_ne. }
    destruct (lstrip_chars _ _); cbn [fst snd].
    + split; [exact Hn|congruence].
    + split; [|congruence]. unfold setdefault_append. by rewrite lookup_insert_ne.
Qed.

Lemma fold_other (ls : list text) f c k :
  c <> Some k -> Forall (fun l => opens_field l <> Some k) ls ->
  (fold_left parse_fields_line ls (f, c)).1 !! k = f !! k.
Proof.
  intros Hc Hls. revert f c Hc. induction Hls as [|l ls Hl _ IH]; intros f c Hc; [reflexivity|].
  cbn [fold_left]. destruct (step_other f c l k Hc Hl) as [H1 H2].
  destruct (parse_fields_line (f, c) l) as [f' c']. cbn [fst snd] in *.
  rewrite IH by done. exact H1.
Qed.

Lemma step_bare_label f c k l :
  bare_label k l -> f !! k = None ->
  parse_fields_line (f, c) l = (<[k := []]> f, Some k).
Proof.
  unfold bare_label, parse_fields_line. cbv zeta. intros Hb Hk.
  destruct (strip l) as [|x s] eqn:E; [discriminate Hb|].
  destruct (_ || _); [discriminate Hb|].
  destruct (startswith (x :: s) (str "**")); [|discriminate Hb].
  destruct (_ =? -1); [discriminate Hb|].
  destruct (canonicalize_label _) as [k'|]; [|discriminate Hb].
  pose proof (f_equal snd Hb) as Hs. pose proof (f_equal fst Hb) as Hm. clear Hb.
  destruct (lstrip_chars _ _); cbn [fst snd] in Hs, Hm; injection Hs as ->.
  - unfold setdefault_nil. by rewrite Hk.
  - exfalso.
    apply (f_equal (fun m : gmap text (list text) => m !! k)) in Hm.
    unfold setdefault_append in Hm. rewrite lookup_insert_eq, lookup_singleton_eq in Hm.
    injection Hm as Hm. by apply app_eq_nil in Hm as [_ ?].
Qed.

Lemma is_old_is_rule (l : text) : is_old l = true -> is_rule l = true.
Proof.
  unfold Postprocess.is_old, is_rule. cbv zeta. intros H.
  apply startswith_iff in H as (r & ->).
  assert (Hs : exists r', strip (str "--- " ++ r) = str "---" ++ r').
  { unfold strip, strip_by. rewrite lstrip_by_id by (by intros c [= <-]).
    destruct (rstrip_by_spec isspace (str "--- " ++ r)) as (suf & Hl & Hsuf & _).
    destruct (rstrip_by isspace (str "--- " ++ r)) as [|a [|b [|c z]]] eqn:E.
    - cbn in Hl. subst suf. apply Forall_cons in Hsuf as [? _]. done.
    - injection Hl as <- Hl. subst suf. apply Forall_cons in Hsuf as [? _]. done.
    - injection Hl as <- <- Hl. subst suf. apply Forall_cons in Hsuf as [? _]. done.
    - injection Hl as <- <- <- _. by exists z. }
  destruct Hs as (r' & ->). reflexivity.
Qed.

Lemma startswith_app_sep (c : ascii) (a b sub : text) :
  c ∉ sub -> startswith (a ++ c :: b) sub = startswith a sub.
Proof.
  revert a. induction sub as [|x sub IH]; intros a Hc; [reflexivity|].
  destruct a as [|y a]; cbn [app startswith].
  - destruct (Ascii.eqb x c) eqn:E; [|reflexivity].
    apply eqb_true_iff in E as ->. exfalso. apply Hc. apply elem_of_cons. by left.
  - rewrite IH; [reflexivity|]. intros H. apply Hc. apply elem_of_cons. by right.
Qed.

Lemma contains_app_sep (c : ascii) (a b sub : text) :
  c ∉ sub -> sub <> [] ->
  contains (a ++ c :: b) sub = contains a sub || contains b sub.
Proof.
  intros Hc Hne. induction a as [|y a IH].
  - pose proof (startswith_app_sep c [] b sub Hc) as H. cbn [app] in H.
    cbn [app contains]. rewrite H. by rewrite orb_false_r.
  - pose proof (startswith_app_sep c (y :: a) b sub Hc) as H. cbn [app] in H.
    cbn [app contains]. rewrite H, IH. by rewrite orb_assoc.
Qed.

Lemma fence_no_LF : LF ∉ fence.
Proof. intros H. by repeat (apply elem_of_cons in H as [?|H]); try apply elem_of_nil in H. Qed.

Lemma contains_join_lines (ls : list text) :
  Forall (fun l => contains l fence = false) ls -> contains (join nl ls) fence = false.
Proof.
  induction 1 as [|l ls Hl Hls IH]; [reflexivity|].
  destruct ls as [|l' ls]; [exact Hl|].
  rewrite join_cons. change (l ++ nl ++ join nl (l' :: ls)) with (l ++ LF :: join nl (l' :: ls)).
  rewrite contains_app_sep; [|apply fence_no_LF|done]. by rewrite Hl, IH.
Qed.

Lemma clean_value_prefix (l : text) : exists r, l = clean_value l ++ r.
Proof.
  unfold clean_value, rstrip.
  destruct (rstrip_by_spec isspace l) as (suf & Hl & _ & _).
  set (c := rstrip_by isspace l) in *.
  destruct (endswith c (str "\")); [|by exists suf].
  destruct (rstrip_by_spec isspace (removelast c)) as (suf' & Hc & _ & _).
  destruct c as [|x c'] using rev_ind.
  - cbn. by exists suf.
  - clear IHc'. rewrite removelast_last in *. exists (suf' ++ [x] ++ suf).
    rewrite Hl at 1. rewrite Hc at 1. by rewrite <- !app_assoc.
Qed.

Lemma contains_prefix (s r sub : text) : contains (s ++ r) sub = false -> contains s sub = false.
Proof. intros H. apply (contains_infix [] s r). exact H. Qed.

Lemma no_block_after_one_fence (w : text) :
  contains w fence = false -> ~ has_fenced_block (fence ++ w).
Proof.
  intros Hw (pre & s & Heq & tag & body & post & -> & _).
  set (P := pre ++ fence ++ tag ++ nl ++ body) in *.
  assert (HP : fence ++ w = P ++ fence ++ post).
  { rewrite Heq. unfold P. by rewrite <- !app_assoc. }
  assert (Hlen : (3 <= length P)%nat).
  { unfold P. rewrite !length_app. cbn. lia. }
  apply app_eq_inv in HP as [(k & Hfk & Hk)|(k & HPk & Hwk)].
  - assert (k = []).
    { apply (f_equal (@length _)) in Hfk. rewrite length_app in Hfk. cbn in Hfk.
      destruct k; [reflexivity|]. cbn in Hfk. lia. }
    subst k. cbn in Hk. assert (contains w fence = true); [|congruence].
    apply contains_iff. exists [], post. by rewrite <- Hk.
  - assert (contains w fence = true); [|congruence].
    apply contains_iff. exists k, post. exact Hwk.
Qed.

(** X13: a suggestion written as a label line, then a fenced diff that has
    a [--- ] file header, is cut by the parser at that header: the value of
    the field is the opening fence and the lines before the header, and
    extraction finds no diff in it. *)
Theorem headers_cut_suggestion (body head_text : text) (pre : list text)
    (label : text) (before : list text) (header : text) (after : list text) :
  let k := str "suggestion" in
  let v := strip_chars (join nl (str "```diff" :: map clean_value before)) nl in
  splitlines head_text = pre ->
  parse_fields head_text !! k = None ->
  splitlines body = pre ++ label :: str "```diff" :: before ++ header :: after ->
  bare_label k label ->
  Forall plain before ->
  Forall (fun l => contains l fence = false) before ->
  is_old header = true ->
  Forall (fun l => opens_field l <> Some k) after ->
  parse_fields body !! k = Some v /\ extract_patch v = None.
Proof.
  intros k v Hpre Hhead Hbody Hlab Hplain Hnf Hold Hafter. split.
  - unfold parse_fields in *. rewrite Hpre in Hhead. rewrite Hbody.
    change (pre ++ label :: str "```diff" :: before ++ header :: after)
      with (pre ++ [label] ++ (str "```diff" :: before) ++ [header] ++ after).
    rewrite !fold_left_app.
    destruct (fold_left parse_fields_line pre (∅, None)) as [f0 c0].
    rewrite lookup_fmap in Hhead.
    assert (Hf0 : f0 !! k = None) by (by destruct (f0 !! k)).
    change (fold_left parse_fields_line [label] (f0, c0))
      with (parse_fields_line (f0, c0) label).
    rewrite (step_bare_label f0 c0 k label Hlab Hf0).
    assert (Hall : Forall plain (str "```diff" :: before)).
    { constructor; [|exact Hplain]. split; vm_compute; reflexivity. }
    destruct (fold_plain _ (<[k := []]> f0) k [] Hall (lookup_insert_eq _ _ _)) as [H1 H2].
    destruct (fold_left parse_fields_line (str "```diff" :: before) _) as [f1 c1].
    cbn [fst snd] in H1, H2. subst c1.
    change (fold_left parse_fields_line [header] (f1, Some k))
      with (parse_fields_line (f1, Some k) header).
    rewrite (step_rule f1 (Some k) header (is_old_is_rule _ Hold)).
    pose proof (fold_other after f1 None k ltac:(discriminate) Hafter) as H3.
    destruct (fold_left parse_fields_line after (f1, None)) as [f2 c2].
    cbn [fst] in H3. rewrite lookup_fmap, H3, H1. reflexivity.
  - apply extract_patch_None. subst v.
    set (J := join nl (str "```diff" :: map clean_value before)).
    assert (HJ : exists w, J = fence ++ w /\ contains w fence = false).
    { unfold J. destruct (map clean_value before) as [|l ls] eqn:E.
      - exists (str "diff"). split; reflexivity.
      - rewrite join_cons. exists (str "diff" ++ LF :: join nl (l :: ls)). split; [reflexivity|].
        rewrite contains_app_sep; [|apply fence_no_LF|done].
        rewrite <- E. rewrite contains_join_lines; [reflexivity|].
        clear -Hnf. induction Hnf as [|x xs Hx _ IH]; [constructor|].
        cbn [map]. constructor; [|exact IH].
        destruct (clean_value_prefix x) as (r & Hr). rewrite Hr in Hx.
        by apply contains_prefix in Hx. }
    destruct HJ as (w & HJ & Hw).
    unfold strip_chars, strip_by.
    rewrite (lstrip_by_id (in_chars nl) J) by (rewrite HJ; by intros c [= <-]).
    destruct (rstrip_by_spec (in_chars nl) J) as (suf & HJ' & Hsuf & _).
    set (z := rstrip_by (in_chars nl) J) in *. clearbody z.
    assert (Hz : exists w', z = fence ++ w' /\ w = w' ++ suf).
    { rewrite HJ in HJ'.
      destruct z as [|a [|b [|c z']]].
      - cbn in HJ'. subst suf. apply Forall_cons in Hsuf as [? _]. done.
      - injection HJ' as <- HJ'. subst suf. apply Forall_cons in Hsuf as [? _]. done.
      - injection HJ' as <- <- HJ'. subst suf. apply Forall_cons in Hsuf as [? _]. done.
      - injection HJ' as <- <- <- Hw'. exists z'. split; [reflexivity|exact Hw']. }
    destruct Hz as (w' & -> & Hww).
    apply no_block_after_one_fence. rewrite Hww in Hw. by apply contains_prefix in Hw.
Qed.

End FieldFacts.

Module SessionFacts.
Import Interactive StoreFacts Audit.

(** **** The rules of [hstep] *)

Section Rules.
Variable I : World -> Prop.

Lemma hstep_ret {A} (a : A) (Q : A -> Prop) : Q a -> hstep I (ret a) Q.
Proof. intros HQ w Hw. split; [exact Hw|]. intros a' [= <-]. exact HQ. Qed.

Lemma hstep_bind {A B} (m : M A) (k : A -> M B) (P : A -> Prop) (Q : B -> Prop) :
  hstep I m P -> (forall a, P a -> hstep I (k a) Q) -> hstep I (bind m k) Q.
Proof.
  intros Hm Hk w Hw. unfold bind. destruct (Hm w Hw) as [Hs Hr].
  destruct (m w) as [[a|] w'] eqn:E; cbn [fst snd] in *.
  - apply (Hk a (Hr a eq_refl) w' Hs).
  - split; [exact Hs|]. intros a [=].
Qed.

Lemma hstep_weaken {A} (m : M A) (P Q : A -> Prop) :
  hstep I m P -> (forall a, P a -> Q a) -> hstep I m Q.
Proof.
  intros Hm HPQ w Hw. destruct (Hm w Hw) as [Hs Hr]. split; [exact Hs|].
  intros a Ha. by apply HPQ, Hr.
Qed.
End Rules.

Lemma bind_run {A B} (m : M A) (k : A -> M B) w :
  bind m k w = match m w with
               | (Some a, w') => k a w'
               | (None, w') => (None, w')
               end.
Proof. reflexivity. Qed.

(** **** The commands under an invariant

    The invariant [I] of the world is kept by the three ways the loop has
    to touch the world but [git apply]; [G] is what every saved state
    satisfies and [E] what the entry of a finding satisfies. *)

Section Commands.
Variable findings : list Finding.
Variable I : World -> Prop.
Variable G : State -> Prop.
Variable E : Finding -> gmap text text -> Prop.

Variable total : Z.
Hypothesis total_eq : total = Z.of_nat (length findings).

Hypothesis I_emit : forall e w,
  quiet e -> (forall st, e = Save st -> G st) -> I w -> I (emit e w).2.
Hypothesis I_input : forall prompt w, I w -> I (input prompt w).2.
Hypothesis I_ai : forall finding w, I w -> I (run_ai_fix finding w).2.
Hypothesis G_store : forall finding entry state,
  G state -> E finding entry -> G (store finding entry state).
Hypothesis G_index : forall index state,
  G state -> 0 <= index <= total -> G (set_index index state).
Hypothesis E_lookup : forall finding state,
  G state -> E finding (default ∅ (findings_state state !! identifier finding)).
Hypothesis E_insert : forall finding entry k v,
  k <> k_status -> E finding entry -> E finding (<[k := v]> entry).
Hypothesis E_acknowledged : forall finding entry,
  E finding entry -> E finding (<[k_status := acknowledged]> entry).

Lemma hstep_emit e :
  quiet e -> (forall st, e = Save st -> G st) -> hstep I (emit e) (fun _ => True).
Proof. intros Hq He w Hw. split; [by apply I_emit|done]. Qed.

Lemma hstep_print msg : hstep I (print msg) (fun _ => True).
Proof. apply hstep_emit; [exact Logic.I|]. intros st [=]. Qed.

Lemma hstep_save st : G st -> hstep I (save_state st) (fun _ => True).
Proof. intros H. apply hstep_emit; [exact Logic.I|]. by intros st' [= <-]. Qed.

Lemma hstep_input prompt : hstep I (input prompt) (fun _ => True).
Proof. intros w Hw. split; [by apply I_input|done]. Qed.

Lemma hstep_run_ai_fix finding : hstep I (run_ai_fix finding) (fun _ => True).
Proof. intros w Hw. split; [by apply I_ai|done]. Qed.

Ltac hs :=
  first
    [ apply hstep_ret
    | eapply hstep_bind;
      [ first [ apply hstep_print | apply hstep_input | apply hstep_run_ai_fix
              | apply hstep_save
              | apply hstep_emit; [exact Logic.I|intros ? [=]] ] | intros ? _ ] ].

Lemma E_forget finding entry : E finding entry -> E finding (forget_patch entry).
Proof. intros H. unfold forget_patch. do 2 (apply E_insert; [key_ne|]). exact H. Qed.

Lemma E_remember finding entry patch source :
  E finding entry -> E finding (remember_patch patch source entry).
Proof. intros H. unfold remember_patch. do 2 (apply E_insert; [key_ne|]). exact H. Qed.

Lemma hstep_command_fix finding entry index state :
  G state -> E finding entry ->
  hstep I (command_fix finding entry index state) (keeps_G G).
Proof.
  intros Hs He. unfold command_fix.
  eapply hstep_bind; [apply hstep_run_ai_fix|]. intros ai_output _.
  eapply hstep_bind with (P := E finding).
  - destruct (truthy ai_output); [|by apply hstep_ret].
    destruct (truthy _); (eapply hstep_bind; [apply hstep_print|]; intros _ _; apply hstep_ret).
    + do 3 (apply E_insert; [key_ne|]). exact He.
    + apply E_forget, E_insert; [key_ne|exact He].
  - intros entry' He'. eapply hstep_bind; [apply hstep_save; by apply G_store|].
    intros _ _. apply hstep_ret. by apply G_store.
Qed.

Lemma hstep_apply_patch :
  (forall patch w, I w -> I (git_apply patch w).2) ->
  forall patch, hstep I (apply_patch patch) (fun _ => True).
Proof.
  intros I_git patch. unfold apply_patch.
  destruct (prepare_patch_for_application patch).
  - eapply hstep_bind with (P := fun _ => True).
    + intros w Hw. split; [by apply I_git|done].
    + intros ok _. destruct ok; (eapply hstep_bind; [apply hstep_print|]; intros; by apply hstep_ret).
  - eapply hstep_bind; [apply hstep_print|]. intros; by apply hstep_ret.
Qed.

Lemma confirm_from_apply :
  (forall patch, hstep I (apply_patch patch)
     (fun applied => applied = true ->
        forall finding entry, E finding entry -> E finding (<[k_status := fixed]> entry))) ->
  confirm_ok total I G E.
Proof.
  intros Happly finding entry patch source index state Hs He Hi.
  unfold confirm_and_apply. do 3 hs. destruct (negb _).
  - do 2 hs. exact Hs.
  - eapply hstep_bind; [apply Happly|]. intros applied Hfix.
    assert (Hst : G (let '(index0, state0) :=
                       if applied then
                         (index + 1,
                          store finding (<[k_last_patch_source := source]>
                                           (<[k_status := fixed]> entry)) state)
                       else (index, state) in set_index index0 state0)).
    { destruct applied; [|apply G_index; [exact Hs|lia]].
      apply G_index; [|lia]. apply G_store; [exact Hs|].
      apply E_insert; [key_ne|]. by apply Hfix. }
    destruct applied; cbn in *;
      (eapply hstep_bind; [apply hstep_save; exact Hst|]); intros _ _;
      apply hstep_ret; exact Hst.
Qed.

Lemma hstep_resolve_by_assistant finding entry issue index state :
  confirm_ok total I G E -> G state -> E finding entry -> 0 <= index < total ->
  hstep I (resolve_by_assistant finding entry issue index state) (keeps_G G).
Proof.
  intros Hconf Hs He Hi. unfold resolve_by_assistant.
  eapply hstep_bind with (P := fun _ => True).
  { destruct (nonempty issue); [apply hstep_print | by apply hstep_ret]. }
  intros _ _. hs. destruct (negb _); [do 2 hs; exact Hs|].
  hs. destruct (negb _); [do 2 hs; exact Hs|].
  assert (He' : E finding (<[k_last_ai_output := default [] a0]> entry)).
  { apply E_insert; [key_ne|exact He]. }
  destruct (negb _).
  { hs. eapply hstep_bind; [apply hstep_save|intros _ _; apply hstep_ret];
      by apply G_store, E_forget. }
  destruct (negb _).
  { hs. eapply hstep_bind; [apply hstep_save|intros _ _; apply hstep_ret];
      by apply G_store, E_forget. }
  eapply hstep_bind; [apply hstep_save; by apply G_store, E_remember|].
  intros _ _. hs.
  apply Hconf; [by apply G_store, E_remember|by apply E_remember|exact Hi].
Qed.

Lemma hstep_resolve_by_suggestion finding entry index state :
  confirm_ok total I G E -> G state -> E finding entry -> 0 <= index < total ->
  hstep I (resolve_by_suggestion finding entry index state) (keeps_G G).
Proof.
  intros Hconf Hs He Hi. unfold resolve_by_suggestion.
  destruct (nonempty _); [|by apply hstep_resolve_by_assistant].
  destruct (truthy _); [|by apply hstep_resolve_by_assistant].
  destruct (truthy _); [|by apply hstep_resolve_by_assistant].
  eapply hstep_bind; [apply hstep_save; by apply G_store, E_remember|].
  intros _ _.
  apply Hconf; [by apply G_store, E_remember|by apply E_remember|exact Hi].
Qed.

Lemma hstep_command_apply finding entry index state :
  confirm_ok total I G E -> G state -> E finding entry -> 0 <= index < total ->
  hstep I (command_apply finding entry index state) (keeps_G G).
Proof.
  intros Hconf Hs He Hi. unfold command_apply.
  destruct (truthy _); [by apply Hconf|].
  destruct (nonempty _); [|by apply hstep_resolve_by_suggestion].
  hs. eapply hstep_bind; [apply hstep_save; by apply G_store, E_forget|].
  intros _ _.
  apply hstep_resolve_by_suggestion;
    [exact Hconf|by apply G_store, E_forget|by apply E_forget|exact Hi].
Qed.

Lemma hstep_command_next finding entry index state :
  G state -> E finding entry -> 0 <= index < total ->
  hstep I (command_next finding entry index state) (keeps_G G).
Proof.
  intros Hs He Hi. unfold command_next.
  assert (H : G (set_index (index + 1)
                   (store finding (<[k_status := acknowledged]> entry) state))).
  { apply G_index; [|lia]. apply G_store; [exact Hs|]. by apply E_acknowledged. }
  eapply hstep_bind; [apply hstep_save; exact H|]. intros _ _. apply hstep_ret. exact H.
Qed.

Lemma hstep_loop_body index state :
  confirm_ok total I G E -> G state -> 0 <= index < total ->
  hstep I (loop_body findings index state) (keeps_G G).
Proof.
  intros Hconf Hs Hi. unfold loop_body.
  destruct (findings !! Z.to_nat index) as [finding|]; [|by apply hstep_ret].
  eapply hstep_bind; [apply hstep_emit; [exact Logic.I|intros ? [=]]|]. intros _ _.
  hs.
  repeat match goal with
         | |- hstep _ (if ?b then _ else _) _ => destruct b
         end.
  - do 2 hs. exact Hs.
  - hs. exact Hs.
  - assert (H : G (set_index (0 `max` (index - 1)) state)) by (apply G_index; [exact Hs|lia]).
    eapply hstep_bind; [apply hstep_save; exact H|].
    intros _ _. apply hstep_ret. exact H.
  - do 2 hs. exact Hs.
  - apply hstep_command_fix; [exact Hs|by apply E_lookup].
  - apply hstep_command_apply; [exact Hconf|exact Hs|by apply E_lookup|exact Hi].
  - apply hstep_command_next; [exact Hs|by apply E_lookup|exact Hi].
  - do 2 hs. exact Hs.
Qed.

Lemma hstep_loop fuel index state :
  confirm_ok total I G E -> G state ->
  hstep I (loop fuel findings index state) (fun r => G r.2).
Proof.
  intros Hconf. revert index state.
  induction fuel as [|fuel IH]; intros index state Hs; cbn [loop].
  - destruct (_ && _); [|by apply hstep_ret]. intros w Hw. split; [exact Hw|]. intros a [=].
  - destruct (_ && _) eqn:Hg; [|by apply hstep_ret].
    eapply hstep_bind; [apply hstep_loop_body; [exact Hconf|exact Hs|rewrite total_eq; lia]|].
    intros [i s|i s] Hc; [by apply IH|by apply hstep_ret].
Qed.

Lemma hstep_session state (w : World) :
  confirm_ok total I G E -> G state -> I w ->
  I (interactive_loop findings state w).2
  /\ forall state', (interactive_loop findings state w).1 = Some state' -> G state'.
Proof.
  intros Hconf Hs Hw. unfold interactive_loop.
  match goal with |- context [bind ?m ?k w] => set (prog := bind m k) end.
  assert (Hp : hstep I prog G).
  { subst prog. eapply hstep_bind; [by apply hstep_loop|].
    intros [index st] Hr. cbn [snd] in Hr.
    assert (H : G (set_index (0 `max` (index `min` Z.of_nat (length findings))) st)).
    { apply G_index; [exact Hr|rewrite total_eq; lia]. }
    eapply hstep_bind; [apply hstep_save; exact H|]. intros _ _.
    eapply hstep_bind with (P := fun _ => True).
    { destruct (_ >=? _); [apply hstep_print|by apply hstep_ret]. }
    intros _ _. apply hstep_ret. exact H. }
  exact (Hp w Hw).
Qed.

End Commands.

(** **** Saved states *)

Lemma saves_all_snoc G (w : World) e stdin' ai' git' :
  (forall st, e = Save st -> G st) ->
  saves_all G w -> saves_all G (mkWorld stdin' ai' git' (trace w ++ [e])).
Proof.
  intros He Hw st Hin. cbn [trace] in Hin.
  apply in_app_or in Hin as [Hin|[Heq|[]]]; [by apply Hw|by apply He].
Qed.

Lemma saves_all_emit G e w :
  (forall st, e = Save st -> G st) -> saves_all G w -> saves_all G (emit e w).2.
Proof. intros He Hw. by apply saves_all_snoc. Qed.

Lemma saves_all_input G prompt w : saves_all G w -> saves_all G (input prompt w).2.
Proof.
  intros Hw. unfold input. destruct (stdin w); [exact Hw|].
  cbn [snd]. apply saves_all_snoc; [|exact Hw]. intros st [=].
Qed.

Lemma saves_all_ai G finding w : saves_all G w -> saves_all G (run_ai_fix finding w).2.
Proof. intros Hw. apply saves_all_snoc; [|exact Hw]. intros st [=]. Qed.

Lemma saves_all_git G patch w : saves_all G w -> saves_all G (git_apply patch w).2.
Proof. intros Hw. apply saves_all_snoc; [|exact Hw]. intros st [=]. Qed.

(** **** The cursor *)

(** X14: when the store the session starts from has its cursor within the
    list of findings, or right after it, so has every state the session
    saves and the state it ends with. *)
Theorem cursor_in_bounds (findings : list Finding) (state : State) (w : World) :
  let total := Z.of_nat (length findings) in
  cursor_ok total state ->
  saves_all (cursor_ok total) w ->
  saves_all (cursor_ok total) (interactive_loop findings state w).2
  /\ forall state', (interactive_loop findings state w).1 = Some state' ->
                    cursor_ok total state'.
Proof.
  intros total Hs Hw.
  set (I := saves_all (cursor_ok total)).
  set (G := cursor_ok total).
  set (E := fun (_ : Finding) (_ : gmap text text) => True).
  assert (Iemit : forall e w', quiet e -> (forall st, e = Save st -> G st) ->
                               I w' -> I (emit e w').2).
  { intros e w' _ He. by apply saves_all_emit. }
  assert (Iinput : forall p w', I w' -> I (input p w').2).
  { intros p w'. apply saves_all_input. }
  assert (Iai : forall f w', I w' -> I (run_ai_fix f w').2).
  { intros f w'. apply saves_all_ai. }
  assert (Igit : forall p w', I w' -> I (git_apply p w').2).
  { intros p w'. apply saves_all_git. }
  assert (Gstore : forall finding entry st, G st -> E finding entry ->
                                            G (store finding entry st)).
  { intros finding entry st Hst _. exact Hst. }
  assert (Gindex : forall index st, G st -> 0 <= index <= total -> G (set_index index st)).
  { intros index st _ Hi. by exists index. }
  assert (Elookup : forall finding st, G st ->
            E finding (default ∅ (findings_state st !! identifier finding))) by done.
  assert (Einsert : forall finding entry (k v : text), k <> k_status ->
            E finding entry -> E finding (<[k := v]> entry)) by done.
  assert (Eack : forall finding entry, E finding entry ->
            E finding (<[k_status := acknowledged]> entry)) by done.
  assert (Hconf : confirm_ok total I G E).
  { apply (confirm_from_apply findings I G E total Iemit Iinput Gstore Gindex Einsert).
    intros patch. eapply hstep_weaken; [exact (hstep_apply_patch I G Iemit Igit patch)|done]. }
  exact (hstep_session findings I G E total eq_refl Iemit Iinput Iai Gstore Gindex
           Elookup Einsert Eack state w Hconf Hs Hw).
Qed.

(** **** No fix without git *)

Lemma git_fails_emit base e w :
  quiet e -> (forall st, e = Save st -> no_new_fixed base st) ->
  git_fails base w -> git_fails base (emit e w).2.
Proof. intros _ He [H1 H2]. split; [exact H1|by apply saves_all_emit]. Qed.

Lemma git_fails_git_apply base patch :
  hstep (git_fails base) (git_apply patch) (fun ok => ok = false).
Proof.
  intros w [Hg Hs]. unfold git_apply. cbv zeta. cbn [fst snd]. split.
  - split.
    + cbn [git_replies]. destruct (git_replies w); [constructor|].
      by apply Forall_cons in Hg as [_ ?].
    + apply saves_all_snoc; [|exact Hs]. intros st [=].
  - intros a [= <-]. destruct (git_replies w) as [|b r]; [reflexivity|].
    by apply Forall_cons in Hg as [-> _].
Qed.

Lemma git_fails_apply_patch base patch :
  hstep (git_fails base) (apply_patch patch) (fun applied => applied = false).
Proof.
  unfold apply_patch. destruct (prepare_patch_for_application patch) as [prepared|].
  - eapply hstep_bind; [apply git_fails_git_apply|]. intros ok ->.
    eapply hstep_bind;
      [exact (hstep_print (git_fails base) (no_new_fixed base) (git_fails_emit base) _)|].
    intros _ _. by apply hstep_ret.
  - eapply hstep_bind;
      [exact (hstep_print (git_fails base) (no_new_fixed base) (git_fails_emit base) _)|].
    intros _ _. by apply hstep_ret.
Qed.

(** X15: while [git apply] does not succeed, no finding becomes fixed: in
    every state the session saves and in the state it ends with, a finding
    is fixed only if the store the session started from had it fixed. *)
Theorem fixed_only_by_git (findings : list Finding) (state : State) (w : World) :
  Forall (fun ok => ok = false) (git_replies w) ->
  saves_all (no_new_fixed state) w ->
  saves_all (no_new_fixed state) (interactive_loop findings state w).2
  /\ forall state', (interactive_loop findings state w).1 = Some state' ->
                    no_new_fixed state state'.
Proof.
  intros Hg Hw.
  set (total := Z.of_nat (length findings)).
  set (I := git_fails state).
  set (G := no_new_fixed state).
  set (E := entry_not_fixed state).
  assert (Iemit : forall e w', quiet e -> (forall st, e = Save st -> G st) ->
                               I w' -> I (emit e w').2).
  { intros e w'. apply git_fails_emit. }
  assert (Iinput : forall p w', I w' -> I (input p w').2).
  { intros p w' [H1 H2]. split; [|by apply saves_all_input].
    unfold input. by destruct (stdin w'). }
  assert (Iai : forall f w', I w' -> I (run_ai_fix f w').2).
  { intros f w' [H1 H2]. split; [exact H1|by apply saves_all_ai]. }
  assert (Gstore : forall finding entry st, G st -> E finding entry ->
                                            G (store finding entry st)).
  { intros finding entry st Hst He id. rewrite status_at_store.
    destruct (decide (identifier finding = id)) as [<-|]; [exact He|apply Hst]. }
  assert (Gindex : forall index st, G st -> 0 <= index <= total -> G (set_index index st)).
  { intros index st Hst _ id. apply Hst. }
  assert (Elookup : forall finding st, G st ->
            E finding (default ∅ (findings_state st !! identifier finding))).
  { intros finding st Hst Hf. exact (Hst (identifier finding) Hf). }
  assert (Einsert : forall finding entry (k v : text), k <> k_status ->
            E finding entry -> E finding (<[k := v]> entry)).
  { intros finding entry k v Hk He. unfold E, entry_not_fixed.
    rewrite lookup_insert_ne by done. exact He. }
  assert (Eack : forall finding entry, E finding entry ->
            E finding (<[k_status := acknowledged]> entry)).
  { intros finding entry _. unfold E, entry_not_fixed. rewrite lookup_insert_eq. discriminate. }
  assert (Hconf : confirm_ok total I G E).
  { apply (confirm_from_apply findings I G E total Iemit Iinput Gstore Gindex Einsert).
    intros patch. eapply hstep_weaken; [apply git_fails_apply_patch|].
    intros a ->. discriminate. }
  destruct (hstep_session findings I G E total eq_refl Iemit Iinput Iai Gstore Gindex
              Elookup Einsert Eack state w Hconf) as [[_ H1] H2].
  - by intros id.
  - by split.
  - by split.
Qed.

(** **** No git without a yes *)

Lemma confirmed_snoc_quiet t e : quiet e -> confirmed t -> confirmed (t ++ [e]).
Proof.
  intros Hq Ht l patch ok r Heq.
  destruct r as [|x r _] using rev_ind.
  - apply app_inj_tail in Heq as [_ ->]. destruct Hq.
  - change (l ++ GitApply patch ok :: r ++ [x])
      with (l ++ (GitApply patch ok :: r) ++ [x]) in Heq.
    rewrite app_assoc in Heq. apply app_inj_tail in Heq as [Heq _].
    by apply (Ht l patch ok r).
Qed.

Lemma confirmed_snoc_git t answer patch ok :
  Py.lower (Py.strip answer) = str "y" ->
  confirmed (t ++ [Input prompt_confirm answer]) ->
  confirmed ((t ++ [Input prompt_confirm answer]) ++ [GitApply patch ok]).
Proof.
  intros Hy Ht l patch' ok' r Heq.
  destruct r as [|x r _] using rev_ind.
  - apply app_inj_tail in Heq as [<- _]. by exists t, answer.
  - change (l ++ GitApply patch' ok' :: r ++ [x])
      with (l ++ (GitApply patch' ok' :: r) ++ [x]) in Heq.
    rewrite app_assoc in Heq. apply app_inj_tail in Heq as [Heq _].
    by apply (Ht l patch' ok' r).
Qed.

Lemma asked_emit e w :
  quiet e -> (forall st, e = Save st -> True) -> asked w -> asked (emit e w).2.
Proof. intros Hq _ Hw. by apply confirmed_snoc_quiet. Qed.

Lemma asked_input prompt w : asked w -> asked (input prompt w).2.
Proof.
  intros Hw. unfold input. destruct (stdin w); [exact Hw|].
  by apply confirmed_snoc_quiet.
Qed.

Lemma asked_ai finding w : asked w -> asked (run_ai_fix finding w).2.
Proof. intros Hw. by apply confirmed_snoc_quiet. Qed.

Lemma asked_print msg : hstep asked (print msg) (fun _ => True).
Proof. exact (hstep_print asked (fun _ => True) asked_emit msg). Qed.

Lemma asked_save st : hstep asked (save_state st) (fun _ => True).
Proof. exact (hstep_save asked (fun _ => True) asked_emit st Logic.I). Qed.

Lemma asked_apply_patch t answer patch w :
  trace w = t ++ [Input prompt_confirm answer] ->
  Py.lower (Py.strip answer) = str "y" ->
  asked w -> asked (apply_patch patch w).2.
Proof.
  intros Ht Hy Hw. unfold apply_patch.
  destruct (prepare_patch_for_application patch) as [prepared|].
  - rewrite bind_run. unfold git_apply at 1. cbv beta iota zeta.
    set (ok := default false (head (git_replies w))). set (w1 := mkWorld _ _ _ _).
    assert (H1 : asked w1).
    { subst w1. unfold asked in *. cbn [trace]. rewrite Ht in *.
      by apply confirmed_snoc_git. }
    clearbody w1.
    assert (Hk : hstep asked (if ok
                              then print (str "Patch applied successfully.");; ret true
                              else print (str "git apply failed.");; ret false)
                   (fun _ => True)).
    { destruct ok; (eapply hstep_bind; [apply asked_print|]; intros _ _; by apply hstep_ret). }
    apply (Hk w1 H1).
  - assert (Hk : hstep asked
                   (print (str "The provided patch is not a valid unified diff.");; ret false)
                   (fun _ => True)).
    { eapply hstep_bind; [apply asked_print|]. intros _ _. by apply hstep_ret. }
    apply (Hk w Hw).
Qed.

Lemma asked_confirm total : confirm_ok total asked (fun _ => True) (fun _ _ => True).
Proof.
  intros finding entry patch source index state _ _ _.
  unfold confirm_and_apply. cbv zeta.
  eapply hstep_bind; [apply asked_print|]. intros _ _.
  eapply hstep_bind; [apply asked_print|]. intros _ _.
  intros w Hw. split; [|done]. rewrite bind_run. unfold input at 1.
  destruct (stdin w) as [|answer rest]; [exact Hw|]. cbv beta iota.
  set (w3 := mkWorld _ _ _ _).
  assert (Ht : trace w3 = trace w ++ [Input prompt_confirm answer]) by reflexivity.
  assert (Hw3 : asked w3).
  { unfold asked. rewrite Ht. by apply confirmed_snoc_quiet. }
  clearbody w3.
  destruct (bool_decide (Py.lower (Py.strip answer) = str "y")) eqn:Hy; cbn [negb].
  - apply bool_decide_eq_true_1 in Hy. rewrite bind_run.
    pose proof (asked_apply_patch _ answer patch w3 Ht Hy Hw3) as H4.
    destruct (apply_patch patch w3) as [[applied|] w4]; cbn [snd] in H4; [|exact H4].
    match goal with |- asked (?k w4).2 =>
      assert (Hk : hstep asked k (fun _ => True)); [|exact (proj1 (Hk w4 H4))] end.
    destruct applied; cbv beta iota zeta;
      (eapply hstep_bind; [apply asked_save|]; intros _ _; by apply hstep_ret).
  - match goal with |- asked (?k w3).2 =>
      assert (Hk : hstep asked k (fun _ => True)); [|exact (proj1 (Hk w3 Hw3))] end.
    eapply hstep_bind; [apply asked_print|]. intros _ _. by apply hstep_ret.
Qed.

(** X16: [git apply] runs only on a yes: in the record of a session, every
    run of [git apply] comes right after the answer y (whatever the case and
    the blanks around it) to the question whether to apply the patch. *)
Theorem apply_needs_confirmation (findings : list Finding) (state : State) (w : World) :
  confirmed (trace w) ->
  confirmed (trace (interactive_loop findings state w).2).
Proof.
  intros Hw.
  set (total := Z.of_nat (length findings)).
  set (G := fun _ : State => True).
  set (E := fun (_ : Finding) (_ : gmap text text) => True).
  destruct (hstep_session findings asked G E total eq_refl asked_emit asked_input asked_ai
              ltac:(done) ltac:(done) ltac:(done) ltac:(done) ltac:(done)
              state w (asked_confirm total)) as [H _]; done.
Qed.

End SessionFacts.

Module SpanFacts.
Import Py PyFacts Re ReFacts ReLeads ExtractFacts Span.

Lemma leads_opt r st st' : leads r st st' -> leads (Opt r) st st'.
Proof. intros [rest H]. exists (rest ++ [st]). cbn [run]. by rewrite H. Qed.

Lemma leads_head r st st' :
  leads r st st' -> match_at r st = Some (RMatch st st').
Proof. intros [rest H]. unfold match_at. by rewrite H. Qed.

Lemma stops_digit_after_space (ws s : text) c :
  forallb isspace ws = true -> isdigit c = false ->
  stops isdigit (ws ++ c :: s).
Proof.
  intros Hws Hc d Hd. destruct ws as [|x ws]; cbn in Hd; injection Hd as <-; [exact Hc|].
  cbn in Hws. apply andb_true_iff in Hws as [Hx _].
  destruct (isdigit x) eqn:E; [|reflexivity].
  exfalso. revert Hx E. unfold isspace, isdigit. cbv zeta.
  generalize (nat_of_ascii x). intros n Hx E.
  repeat (apply andb_true_iff in E as [? E] || apply orb_true_iff in Hx as [Hx|Hx]
          || apply andb_true_iff in Hx as [? Hx]);
    repeat match goal with
           | H : (_ <=? _)%nat = true |- _ => apply Nat.leb_le in H
           | H : (_ =? _)%nat = true |- _ => apply Nat.eqb_eq in H
           end; lia.
Qed.

Lemma isdigit_not_space c : isdigit c = true -> isspace c = false.
Proof.
  unfold isspace, isdigit. cbv zeta. generalize (nat_of_ascii c). intros n E.
  apply andb_true_iff in E as [E1 E2]. apply Nat.leb_le in E1, E2.
  repeat (apply orb_false_iff; split); try apply andb_false_iff;
    try (apply Nat.eqb_neq; lia);
    try (left; apply Nat.leb_gt; lia); try (right; apply Nat.leb_gt; lia).
Qed.

(** X18: a text that begins with digits, then blanks, a dash, blanks and
    digits again is read as the span from the first number to the second,
    whatever follows the second number, when neither number has more than
    4300 digits; the call raises [ValueError] when one of them has. *)
Theorem parse_line_span_range (d1 ws1 ws2 d2 rest : text) :
  forallb isdigit d1 = true -> d1 <> [] ->
  forallb isspace ws1 = true -> forallb isspace ws2 = true ->
  forallb isdigit d2 = true -> d2 <> [] ->
  stops isdigit rest ->
  parse_line_span (d1 ++ ws1 ++ "-"%char :: ws2 ++ d2 ++ rest)
  = if (length d1 <=? 4300)%nat && (length d2 <=? 4300)%nat
    then Returns (Some (int_of_digits d1), Some (int_of_digits d2))
    else ValueError.
Proof.
  intros Hd1 Hn1 Hw1 Hw2 Hd2 Hn2 Hrest. unfold parse_line_span.
  assert (Hne : nonempty (d1 ++ ws1 ++ "-"%char :: ws2 ++ d2 ++ rest) = true)
    by (by destruct d1).
  rewrite Hne. cbn [negb].
  assert (Hl : leads span_pattern
                 (MState [] (d1 ++ ws1 ++ "-"%char :: ws2 ++ d2 ++ rest) [])
                 (MState (rev d2 ++ rev ws2 ++ "-"%char :: rev ws1 ++ rev d1 ++ [])
                         rest [(g_last, d2); (g_first, d1)])).
  { unfold span_pattern. eapply leads_seq.
    - apply leads_group. apply leads_plus_greedy; [exact Hd1|exact Hn1|].
      by apply stops_digit_after_space.
    - apply leads_opt. unfold span_tail. eapply leads_seq.
      { apply leads_star_greedy; [exact Hw1|]. by intros c [= <-]. }
      eapply leads_seq; [apply leads_Chr|].
      eapply leads_seq.
      { apply (leads_star_greedy isspace ws2); [exact Hw2|].
        intros c Hc. destruct d2 as [|x d2']; [done|]. cbn in Hc. injection Hc as <-.
        cbn in Hd2. apply andb_true_iff in Hd2 as [Hx _]. by apply isdigit_not_space. }
      apply leads_group.
      apply leads_plus_greedy; [exact Hd2|exact Hn2|exact Hrest]. }
  rewrite (leads_head _ _ _ Hl).
  change (group _ g_first) with d1. change (group _ g_last) with d2.
  assert (Hne2 : nonempty d2 = true) by (by destruct d2).
  rewrite Hne2. unfold int. change int_max_str_digits with 4300%nat.
  destruct (length d1 <=? 4300)%nat; [|reflexivity].
  destruct (length d2 <=? 4300)%nat; reflexivity.
Qed.

Lemma star_stops g p b a cs : stops p a -> star g p b a cs = [MState b a cs].
Proof.
  intros H. destruct a as [|c a]; [reflexivity|]. cbn [star].
  by rewrite (H c eq_refl).
Qed.

Lemma run_span_tail_nil b a cs :
  stops ends_span a -> run span_tail (MState b a cs) = [].
Proof.
  intros H. unfold span_tail.
  change (run (Seq ?r ?k) ?st) with (flat_map (run k) (run r st)).
  change (run (Star true isspace) (MState b a cs)) with (star true isspace b a cs).
  rewrite star_stops.
  2:{ intros c Hc. specialize (H c Hc). unfold ends_span in H.
      apply orb_false_iff in H as [H _]. by apply orb_false_iff in H as [_ ?]. }
  cbn [flat_map]. rewrite app_nil_r, run_Chr_seq. destruct a as [|d a']; [reflexivity|].
  specialize (H d eq_refl). unfold ends_span in H. apply orb_false_iff in H as [_ H].
  rewrite Ascii.eqb_sym in H. by rewrite H.
Qed.

(** X19: a text that does not begin with a digit, the empty text and a
    text that begins with a blank among them, is read as no span; a text
    that begins with digits followed by nothing, or by a character that is
    not a digit, a blank or a dash, is read as the span of that one line
    when it has no more than 4300 digits, and the call raises
    [ValueError] when it has more. *)
Theorem parse_line_span_edges :
  (forall line, stops isdigit line -> parse_line_span line = Returns (None, None))
  /\ (forall d1 rest,
        forallb isdigit d1 = true -> d1 <> [] -> stops ends_span rest ->
        parse_line_span (d1 ++ rest)
        = if (length d1 <=? 4300)%nat
          then Returns (Some (int_of_digits d1), Some (int_of_digits d1))
          else ValueError).
Proof.
  split.
  - intros line H. unfold parse_line_span.
    destruct line as [|c line]; [reflexivity|]. cbn [nonempty negb].
    unfold match_at, span_pattern, Plus. cbn [run before after caps].
    by rewrite (H c eq_refl).
  - intros d1 rest Hd Hne Hrest. unfold parse_line_span.
    assert (Hn : nonempty (d1 ++ rest) = true) by (by destruct d1).
    rewrite Hn. cbn [negb].
    assert (Hl : leads span_pattern (MState [] (d1 ++ rest) [])
                   (MState (rev d1 ++ []) rest [(g_first, d1)])).
    { unfold span_pattern. eapply leads_seq.
      - apply leads_group. apply leads_plus_greedy; [exact Hd|exact Hne|].
        intros c Hc. specialize (Hrest c Hc). unfold ends_span in Hrest.
        apply orb_false_iff in Hrest as [Hrest _]. by apply orb_false_iff in Hrest as [? _].
      - exists []. cbn [run]. by rewrite run_span_tail_nil. }
    rewrite (leads_head _ _ _ Hl).
    change (group _ g_first) with d1. change (group _ g_last) with (@nil ascii).
    cbn [nonempty]. unfold int. change int_max_str_digits with 4300%nat.
    destruct (length d1 <=? 4300)%nat; reflexivity.
Qed.

End SpanFacts.

Module SuggestionFacts.
Import Py PyFacts Re ReFacts ReLeads ExtractFacts BlockFacts Suggestion.

Lemma run_suggestion_unlabelled b a cs :
  startswith a (str "**Suggestion") = false ->
  run suggestion_pattern (MState b a cs) = [].
Proof.
  intros H. unfold suggestion_pattern.
  change (run (Seq ?r ?k) ?st) with (flat_map (run k) (run r st)).
  change (run (Group ?n ?r) ?st) with
    (map (fun st' => MState (before st') (after st') ((n, consumed st st') :: caps st'))
       (run r st)).
  by rewrite run_Lit_seq, H.
Qed.

Lemma absent_before_split (m p1 p2 t : text) c :
  absent_before m (p1 ++ c :: p2) = true ->
  startswith (c :: p2 ++ m ++ t) m = false.
Proof.
  induction p1 as [|d p1 IH]; cbn [app absent_before]; intros H;
    apply andb_true_iff in H as [H1 H2].
  - apply negb_true_iff in H1. apply not_true_is_false. intros Hs.
    apply startswith_iff in Hs as [r Hs].
    assert (startswith ((c :: p2) ++ m) m = true) as Ht;
      [|cbn [app] in Ht; congruence].
    apply startswith_iff.
    assert (Hlen : (length m <= length ((c :: p2) ++ m))%nat)
      by (rewrite length_app; lia).
    exists (drop (length m) ((c :: p2) ++ m)).
    apply (f_equal (take (length m))) in Hs. rewrite take_app_length in Hs.
    change (c :: p2 ++ m ++ t) with ((c :: p2) ++ m ++ t) in Hs.
    rewrite app_assoc, take_app_le in Hs by exact Hlen.
    transitivity (take (length m) ((c :: p2) ++ m) ++ drop (length m) ((c :: p2) ++ m));
      [by rewrite take_drop|by rewrite Hs].
  - by apply IH.
Qed.

Lemma run_content_end b a cs :
  run content_end (MState b a cs)
  = if ends_content a then [MState b a cs] else [].
Proof.
  unfold content_end, ends_content.
  change (run (Ahead ?r) ?st) with (match run r st with [] => [] | _ :: _ => [st] end).
  change (run (Alt ?r1 ?r2) ?st) with (run r1 st ++ run r2 st).
  change (run (Alt ?r1 ?r2) ?st) with (run r1 st ++ run r2 st).
  rewrite !run_Lit.
  destruct (startswith a (LF :: str "**Reasoning")); [by rewrite orb_true_r|].
  destruct (startswith a (LF :: str "---")); [by rewrite orb_true_r|].
  rewrite !orb_false_r. by destruct a.
Qed.

Lemma content_of_end content rest :
  content_of content rest = true -> ends_content rest = true.
Proof.
  induction content as [|c content IH]; cbn [content_of]; [done|].
  intros H. apply andb_true_iff in H as [_ H]. by apply IH.
Qed.

Lemma content_of_split p1 c p2 rest :
  content_of (p1 ++ c :: p2) rest = true -> ends_content (c :: p2 ++ rest) = false.
Proof.
  induction p1 as [|d p1 IH]; cbn [app content_of]; intros H;
    apply andb_true_iff in H as [H1 H2].
  - by apply negb_true_iff in H1.
  - by apply IH.
Qed.

Lemma leads_label (m t lab b a : text) cs :
  forallb not_star lab = true -> stops not_star (t ++ a) ->
  leads (Seq (Lit m) (Seq (Star true not_star) (Lit t)))
    (MState b ((m ++ lab ++ t) ++ a) cs) (MState (rev (m ++ lab ++ t) ++ b) a cs).
Proof.
  intros Hlab Ht. rewrite !rev_app_distr, <- !app_assoc.
  eapply leads_seq; [apply leads_Lit|]. eapply leads_seq.
  - apply leads_star_greedy; [exact Hlab|exact Ht].
  - apply leads_Lit.
Qed.

Lemma leads_suggestion b lab content rest :
  forallb not_star lab = true -> content_of content rest = true ->
  let label := str "**Suggestion" ++ lab ++ str "**:" in
  leads suggestion_pattern (MState b (label ++ content ++ rest) [])
    (MState (rev content ++ rev label ++ b) rest
       [(g_content, content); (g_label, label)]).
Proof.
  intros Hlab Hc label. unfold suggestion_pattern. eapply leads_seq.
  - apply leads_group. apply leads_label; [exact Hlab|]. by intros c [= <-].
  - apply leads_lazy_group.
    + intros p1 c p2 ->. rewrite run_content_end.
      by rewrite (content_of_split _ _ _ _ Hc).
    + exists []. rewrite run_content_end. by rewrite (content_of_end _ _ Hc).
Qed.

Lemma star_then_lit (p : ascii -> bool) (c : ascii) (t a b : text) cs :
  p c = false -> startswith (skip p a) (c :: t) = false ->
  flat_map (run (Lit (c :: t))) (star true p b a cs) = [].
Proof.
  intros Hc. revert b. induction a as [|d a IH]; intros b H.
  - cbn [star flat_map]. by rewrite run_Lit, app_nil_r.
  - cbn [star skip] in *. destruct (p d) eqn:Ed.
    + rewrite flat_map_app, (IH _ H). cbn [flat_map app]. rewrite run_Lit, app_nil_r.
      cbn [startswith]. destruct (Ascii.eqb c d) eqn:E; [|reflexivity].
      apply Ascii.eqb_eq in E as <-. congruence.
    + cbn [flat_map]. by rewrite run_Lit, H.
Qed.

Lemma run_suggestion_no_label b a cs :
  label_at a = false -> run suggestion_pattern (MState b a cs) = [].
Proof.
  intros H. unfold label_at in H.
  destruct (startswith a (str "**Suggestion")) eqn:Es;
    [|by apply run_suggestion_unlabelled].
  cbn [andb] in H. unfold suggestion_pattern.
  change (run (Seq ?r ?k) ?st) with (flat_map (run k) (run r st)).
  change (run (Group ?n ?r) ?st) with
    (map (fun st' => MState (before st') (after st') ((n, consumed st st') :: caps st'))
       (run r st)).
  rewrite run_Lit_seq, Es.
  change (run (Seq ?r ?k) ?st) with (flat_map (run k) (run r st)).
  change (run (Star true not_star) ?st) with
    (star true not_star (before st) (after st) (caps st)).
  cbn [before after caps].
  by rewrite (star_then_lit not_star "*"%char (str "*:") _ _ _ eq_refl H).
Qed.

Lemma has_label_suffix (p s : text) : has_label (p ++ s) = false -> has_label s = false.
Proof.
  induction p as [|c p IH]; [done|]. cbn [app has_label]. intros H.
  apply orb_false_iff in H as [_ H]. by apply IH.
Qed.

(** X20: a block in which no suggestion label begins (the two stars and
    the word, no star up to the two closing stars, then a colon) is
    returned unchanged; so is a block whose label has its colon inside the
    stars. *)
Theorem update_suggestion_block_unlabelled (raw_block replacement : text) :
  has_label raw_block = false ->
  update_suggestion_block raw_block replacement = raw_block.
Proof.
  intros H. unfold update_suggestion_block, search.
  rewrite search_from_none; [done|].
  intros p s ->. apply run_suggestion_no_label.
  apply has_label_suffix in H. destruct s; cbn [has_label] in H;
    by apply orb_false_iff in H as [? _].
Qed.

(** X21: in a block whose first suggestion label is followed by a content
    that ends at the end of the block or before the first line that opens
    the reasoning or begins with three dashes, the content is replaced and
    everything before and after it is kept. *)
Theorem update_suggestion_block_spec (pre lab content rest replacement : text) :
  absent_before (str "**Suggestion") pre = true ->
  forallb not_star lab = true ->
  content_of content rest = true ->
  let label := str "**Suggestion" ++ lab ++ str "**:" in
  update_suggestion_block (pre ++ label ++ content ++ rest) replacement
  = pre ++ label ++ replacement ++ rest.
Proof.
  intros Hpre Hlab Hc label. unfold update_suggestion_block, search.
  rewrite search_from_app.
  2:{ intros p1 c p2 Hp. apply run_suggestion_unlabelled. subst pre.
      unfold label.
      rewrite <- (app_assoc (str "**Suggestion") (lab ++ str "**:")).
      exact (absent_before_split _ _ _ _ _ Hpre). }
  destruct (leads_suggestion (rev pre ++ []) lab content rest Hlab Hc) as [more Hrun].
  fold label in Hrun. rewrite (search_from_here _ _ _ _ _ Hrun).
  cbv zeta. cbn [m_start m_end before].
  change (group _ g_label) with label.
  rewrite !length_app, !length_rev. cbn [length]. rewrite Nat.add_0_r.
  rewrite (app_assoc pre label), <- length_app.
  rewrite take_app_length.
  replace (length content + (length label + length pre))%nat
    with (length ((pre ++ label) ++ content))
    by (rewrite !length_app; lia).
  rewrite (app_assoc (pre ++ label) content rest), drop_app_length.
  by rewrite <- !app_assoc.
Qed.

End SuggestionFacts.

Module Checks.
Import Py Re Interactive Postprocess Sample Cases Audit FieldLines Span Suggestion.

(** X1 on a store of the same report in which [foo] was acknowledged. *)
Lemma ensure_state_same_report_witness :
  let state' := ensure_state_for_findings resumed_state (str "h1") [foo; bar] in
  review_hash state' = Some (str "h1")
  /\ current_index state' = Some (default 0 (current_index resumed_state))
  /\ forall id : text,
       findings_state state' !! id =
       if bool_decide (id ∈ map identifier [foo; bar])
       then Some (default
                    {[ str "status" := str "pending"; str "last_ai_output" := [];
                       str "last_patch" := []; str "last_patch_source" := [] ]}
                    (findings_state resumed_state !! id))
       else None.
Proof.
  apply (ReconcileMore.ensure_state_same_report resumed_state (str "h1") [foo; bar]).
  reflexivity.
Defined.

(** X3 on a store written for another report, in which [foo] was fixed. *)
Lemma changed_report_restarts_witness :
  let state' := ensure_state_for_findings stale_state (str "h1") [foo; bar] in
  initial_index [foo; bar] state' = 0
  /\ forall finding, finding ∈ [foo; bar] -> status_of state' finding = pending.
Proof.
  apply (ReconcileMore.changed_report_restarts stale_state (str "h1") [foo; bar]).
  vm_compute. discriminate.
Defined.

(** X5 on the diff of the scenario and the path src/x.go. *)
Lemma prepared_shape_witness :
  has_line is_old x_go = true
  /\ has_line is_new x_go = true
  /\ has_line is_hunk x_go = true
  /\ (nonempty (path_hint_of (Some (str "src/x.go"))) = true ->
      head (List.filter is_diff_git (diff_lines x_go))
      = Some (diff_header (path_hint_of (Some (str "src/x.go")))))
  /\ (CR ∉ x_go)
  /\ head x_go <> Some LF
  /\ exists q', x_go = q' ++ nl /\ q' <> [] /\ last q' <> Some LF.
Proof.
  apply (PatchFacts.prepared_shape hunk_only (Some (str "src/x.go")) x_go).
  - split; intros H; by repeat (apply elem_of_cons in H as [?|H]); try apply elem_of_nil in H.
  - vm_compute. reflexivity.
Defined.

(** X6 on a diff whose hunk header has no blank: the post-processor
    returns it with its headers and the interactive script rejects that. *)
Lemma prepared_then_interactive_witness :
  Postprocess.prepare_patch_for_application tight (Some (str "src/x.go")) = Some tight_x_go
  /\ Interactive.prepare_patch_for_application tight_x_go = None.
Proof.
  assert (H : Postprocess.prepare_patch_for_application tight (Some (str "src/x.go"))
              = Some tight_x_go) by (vm_compute; reflexivity).
  split; [exact H|].
  refine (PatchFacts.prepared_then_interactive tight (Some (str "src/x.go")) tight_x_go _ H).
  split; intros Hc; by repeat (apply elem_of_cons in Hc as [?|Hc]); try apply elem_of_nil in Hc.
Defined.

(** X7 on the fenced diff of the scenario. *)
Lemma extract_patch_shape_witness :
  exists s, hunk_only = s ++ nl /\ strip s = s /\ contains s fence = false.
Proof.
  apply (PatchFacts.extract_patch_shape (fenced hunk_only) hunk_only).
  vm_compute. reflexivity.
Defined.

(** X8 on the normalised diff of the scenario. *)
Lemma format_then_extract_witness :
  extract_patch (format_diff_suggestion x_go) = Some (strip x_go ++ nl)
  /\ (strip x_go ++ nl = x_go ->
      extract_patch (format_diff_suggestion x_go) = Some x_go).
Proof.
  apply (PatchFacts.format_then_extract x_go). vm_compute. reflexivity.
Defined.

(** X9 on a path written with backslashes. *)
Lemma sanitize_path_spec_witness :
  (backslash ∉ sanitize_path (str " .\src\x.go"))
  /\ startswith (sanitize_path (str " .\src\x.go")) (str "./") = false
  /\ (strip (str " .\src\x.go") = str " .\src\x.go" -> backslash ∉ str " .\src\x.go" ->
      startswith (str " .\src\x.go") (str "./") = false ->
      sanitize_path (str " .\src\x.go") = str " .\src\x.go").
Proof. exact (PatchFacts.sanitize_path_spec (str " .\src\x.go")). Defined.

(** X10 on a diff that begins with an empty line. *)
Lemma interactive_prepare_again_witness :
  Interactive.prepare_patch_for_application (nl ++ with_headers) = Some with_headers
  /\ Interactive.prepare_patch_for_application with_headers = Some with_headers.
Proof.
  assert (H : Interactive.prepare_patch_for_application (nl ++ with_headers)
              = Some with_headers) by (vm_compute; reflexivity).
  split; [exact H|].
  apply (PatchFacts.interactive_prepare_again (nl ++ with_headers) with_headers H).
  vm_compute. reflexivity.
Defined.

(** X11 on a field followed by a rule and a line of text. *)
Lemma rule_cuts_field_witness :
  parse_fields (str "**Details:** a" ++ nl ++ str "---" ++ nl ++ str "b")
  = parse_fields (str "**Details:** a").
Proof.
  apply (FieldFacts.rule_cuts_field _ _ [str "**Details:** a"] [str "b"] (str "---")).
  - vm_compute. reflexivity.
  - vm_compute. reflexivity.
  - vm_compute. reflexivity.
  - repeat constructor.
Defined.

(** X12 on the title of a block. *)
Lemma parse_fields_names_witness :
  str "title" ∈ field_names /\ head (str "x") <> Some LF /\ last (str "x") <> Some LF.
Proof.
  apply (FieldFacts.parse_fields_names (str "**Title:** x" ++ nl) (str "title") (str "x")).
  vm_compute. reflexivity.
Defined.

(** X13 on the block the post-processor wrote: its suggestion is read as
    the opening fence and the [diff --git] line, in which no diff is
    found. *)
Lemma headers_cut_suggestion_witness :
  parse_fields body_normalised !! str "suggestion"
  = Some (str "```diff" ++ nl ++ str "diff --git a/src/x.go b/src/x.go")
  /\ extract_patch (str "```diff" ++ nl ++ str "diff --git a/src/x.go b/src/x.go") = None.
Proof.
  apply (FieldFacts.headers_cut_suggestion body_normalised (str "**Title**: x")
           [str "**Title**: x"] label_line
           [str "diff --git a/src/x.go b/src/x.go"] (str "--- a/src/x.go")
           [str "+++ b/src/x.go"; str "@@ -1,1 +1,1 @@"; str "-a"; str "+b";
            str "```"; str "**Reasoning**: r"]).
  - vm_compute. reflexivity.
  - vm_compute. reflexivity.
  - vm_compute. reflexivity.
  - vm_compute. reflexivity.
  - repeat constructor; vm_compute; reflexivity.
  - repeat constructor; vm_compute; reflexivity.
  - vm_compute. reflexivity.
  - repeat constructor; vm_compute; discriminate.
Defined.

(** X14 on the session of the scenario. *)
Lemma cursor_in_bounds_witness :
  let total := Z.of_nat (length [foo; bar]) in
  saves_all (cursor_ok total) (interactive_loop [foo; bar] fresh_state session).2
  /\ forall state', (interactive_loop [foo; bar] fresh_state session).1 = Some state' ->
                    cursor_ok total state'.
Proof.
  apply (SessionFacts.cursor_in_bounds [foo; bar] fresh_state session).
  - exists 0. split; [reflexivity|]. cbn. lia.
  - intros st [].
Defined.

(** X15 on a session in which the patch is confirmed and [git apply]
    fails. *)
Lemma fixed_only_by_git_witness :
  saves_all (no_new_fixed baz_state) (interactive_loop [baz] baz_state refused).2
  /\ forall state', (interactive_loop [baz] baz_state refused).1 = Some state' ->
                    no_new_fixed baz_state state'.
Proof.
  apply (SessionFacts.fixed_only_by_git [baz] baz_state refused).
  - repeat constructor.
  - intros st [].
Defined.

(** X16 on the session of the scenario. *)
Lemma apply_needs_confirmation_witness :
  confirmed (trace session)
  /\ confirmed (trace (interactive_loop [foo; bar] fresh_state session).2).
Proof.
  assert (H : confirmed (trace session)) by (intros [|e l] patch ok r Heq; discriminate).
  split; [exact H|].
  exact (SessionFacts.apply_needs_confirmation [foo; bar] fresh_state session H).
Defined.

(** X18 on a span followed by more text. *)
Lemma parse_line_span_range_witness :
  parse_line_span (lines baz) = Returns (Some 10, Some 12).
Proof.
  apply (SpanFacts.parse_line_span_range (str "10") (str " ") (str " ") (str "12")
           (str ", 14")); try reflexivity; try discriminate.
  intros c Hc. injection Hc as <-. reflexivity.
Defined.

(** X19 on a text that begins with a blank, on a single number and on a
    number of 4301 digits. *)
Lemma parse_line_span_edges_witness :
  parse_line_span (str " 3") = Returns (None, None)
  /\ parse_line_span (lines bar) = Returns (Some 3, Some 3)
  /\ parse_line_span (repeat "1"%char 4301) = ValueError.
Proof.
  destruct SpanFacts.parse_line_span_edges as [Hnone Hone]. split; [|split].
  - apply Hnone. intros c Hc. injection Hc as <-. reflexivity.
  - apply (Hone (str "3") []); [reflexivity|discriminate|]. intros c Hc. discriminate.
  - assert (Hd : forallb isdigit (repeat "1"%char 4301) = true) by (vm_compute; reflexivity).
    assert (Hn : repeat "1"%char 4301 <> []) by discriminate.
    assert (Hs : Matching.stops ends_span []) by (intros c Hc; discriminate).
    pose proof (Hone (repeat "1"%char 4301) [] Hd Hn Hs) as H.
    rewrite app_nil_r in H. exact H.
Defined.

(** X20 on a block whose suggestion label has its colon inside the
    stars. *)
Lemma update_suggestion_block_unlabelled_witness :
  update_suggestion_block raw_colon_inside format_no_patch = raw_colon_inside.
Proof.
  apply (SuggestionFacts.update_suggestion_block_unlabelled raw_colon_inside).
  vm_compute. reflexivity.
Defined.

(** X21 on a block with a headerless suggestion, replaced by the
    normalised diff. *)
Lemma update_suggestion_block_spec_witness :
  update_suggestion_block raw_headerless (format_diff_suggestion x_go) = raw_normalised.
Proof.
  assert (Hpre : absent_before (str "**Suggestion") block_top = true)
    by (vm_compute; reflexivity).
  assert (Hc : content_of (format_diff_suggestion hunk_only) block_tail = true)
    by (vm_compute; reflexivity).
  exact (SuggestionFacts.update_suggestion_block_spec block_top (str " (if 'BAD')")
           (format_diff_suggestion hunk_only) block_tail (format_diff_suggestion x_go)
           Hpre eq_refl Hc).
Defined.

End Checks.
